(** * mytar: a shallow embedding of [mytar.c] and its archive walk

    The development follows the C source function by function.  A [char]
    is the integer value the program sees; [long] and [int] arithmetic is
    written with its 64-bit and 32-bit two's-complement wrap-around; a C
    string is the list of characters before its terminating NUL; the
    512-byte [buffer] is a list of characters on which [struct Header] is
    overlaid through field offsets, exactly as the cast in the source
    does. *)

From Stdlib Require Import ZArith Lia.
From stdpp Require Import base list gmap.

Local Open Scope Z_scope.

(** ** Machine integers *)

Abbreviation char := Z (only parsing).

(** A C string value: the characters that precede the terminating NUL. *)
Abbreviation cstring := (list Z) (only parsing).

Definition LONG_MAX : Z := 2 ^ 63 - 1.
Definition INT_MAX : Z := 2 ^ 31 - 1.

(** Two's-complement reduction to [w] bits, signed. *)
Definition wrap (w : Z) (x : Z) : Z := (x + 2 ^ (w - 1)) mod 2 ^ w - 2 ^ (w - 1).

(** [long] is 64 bits wide, [int] 32 bits. *)
Definition wrap64 : Z -> Z := wrap 64.
Definition wrap32 : Z -> Z := wrap 32.

Definition BLOCK_SIZE : Z := 512.

(** [MAGIC] is the literal "ustar  " (two spaces) and [REG_FILE] the
    literal "0", both without their terminating NUL. *)
Definition MAGIC : cstring := [117; 115; 116; 97; 114; 32; 32].
Definition REG_FILE : cstring := [48].

(** ** [struct Header]: the field layout overlaid on a block *)

Module Header.

Inductive field :=
| name | mode | uid | gid | size | mtime | chksum | typeflag | linkname
| magic | version | uname | gname | devmajor | devminor | prefix.

Definition width (f : field) : nat :=
  match f with
  | name => 100 | mode => 8 | uid => 8 | gid => 8 | size => 12
  | mtime => 12 | chksum => 8 | typeflag => 1 | linkname => 100
  | magic => 6 | version => 2 | uname => 32 | gname => 32
  | devmajor => 8 | devminor => 8 | prefix => 155
  end%nat.

(** Declaration order of the members. *)
Definition fields : list field :=
  [name; mode; uid; gid; size; mtime; chksum; typeflag; linkname;
   magic; version; uname; gname; devmajor; devminor; prefix].

Definition field_eqb (f g : field) : bool :=
  match f, g with
  | name, name | mode, mode | uid, uid | gid, gid | size, size
  | mtime, mtime | chksum, chksum | typeflag, typeflag
  | linkname, linkname | magic, magic | version, version
  | uname, uname | gname, gname | devmajor, devmajor
  | devminor, devminor | prefix, prefix => true
  | _, _ => false
  end.

(** Byte offset of a member: the widths of the members declared before
    it (all members are [char] arrays, so there is no padding). *)
Fixpoint offset_in (fs : list field) (f : field) : nat :=
  match fs with
  | [] => 0
  | g :: fs' => if field_eqb g f then 0 else width g + offset_in fs' f
  end%nat.

Definition offset (f : field) : nat := offset_in fields f.

(** [header->f] as a pointer: the memory of the block from the member
    onwards. *)
Definition at_field (buffer : list char) (f : field) : list char :=
  drop (offset f) buffer.

(** The bytes of the member itself. *)
Definition bytes (buffer : list char) (f : field) : list char :=
  take (width f) (at_field buffer f).

End Header.

(** ** C strings in memory *)

(** The string that starts at the head of [mem]: the characters up to the
    first NUL.  [None] when the memory ends before a NUL is met, that is,
    when the C code would read outside the object. *)
Fixpoint cstr (mem : list char) : option cstring :=
  match mem with
  | [] => None
  | c :: mem' =>
      if c =? 0 then Some []
      else match cstr mem' with
           | Some s => Some (c :: s)
           | None => None
           end
  end.

(** [strcmp(mem, lit) == 0] for a string literal [lit] (given without
    its NUL).  The comparison reads [mem] only up to the first difference
    or to the NUL that ends both. *)
Fixpoint strcmp_eq (mem : list char) (lit : cstring) : option bool :=
  match lit, mem with
  | _, [] => None
  | [], c :: _ => Some (c =? 0)
  | l :: lit', c :: mem' => if c =? l then strcmp_eq mem' lit' else Some false
  end.

(** ** [oct2dec] *)

(** The loop of [oct2dec], run from the last character to the first:
    [rest] holds [octal[i]], [octal[i-1]], ..., [octal[0]]. *)
Fixpoint oct2dec_loop (rest : list char) (decimal radix : Z) : Z :=
  match rest with
  | [] => decimal
  | c :: rest' =>
      oct2dec_loop rest'
        (wrap64 (decimal + wrap64 ((c - 48) * radix)))
        (wrap64 (radix * 8))
  end.

(** [oct2dec] on a string value: [length] is [strlen(octal)]. *)
Definition oct2dec_str (octal : cstring) : Z :=
  oct2dec_loop (rev octal) 0 1.

(** [oct2dec(ptr)] for a pointer into memory: [strlen] first looks for
    the NUL. *)
Definition oct2dec (mem : list char) : option Z :=
  match cstr mem with
  | Some octal => Some (oct2dec_str octal)
  | None => None
  end.

(** The value the digits denote: the sum of [digit_i * 8^(n-1-i)]. *)
Fixpoint octal_value (s : cstring) : Z :=
  match s with
  | [] => 0
  | c :: s' => (c - 48) * 8 ^ Z.of_nat (length s') + octal_value s'
  end.

Definition is_octal_digit (c : char) : bool := (48 <=? c) && (c <=? 55).

(** ** The other pure helpers *)

(** [is_empty_block]: every one of the [BLOCK_SIZE] bytes is zero. *)
Definition is_empty_block (buffer : list char) : bool :=
  forallb (fun c => c =? 0) buffer.

(** Number of data blocks of an entry, as computed in [read_archive] and
    in [extract_file]; [/] on [long] truncates towards zero. *)
Definition blocks_count (file_size : Z) : Z :=
  wrap64 (Z.quot (wrap64 (wrap64 (file_size + BLOCK_SIZE) - 1)) BLOCK_SIZE).

(** Data bytes in the last block, as computed in [extract_file]. *)
Definition bytes_left (file_size : Z) : Z :=
  wrap64 (file_size - wrap64 (wrap64 (blocks_count file_size - 1) * BLOCK_SIZE)).

(** ** The world the program runs in *)

(** Texts of the diagnostics the program can print on standard error. *)
Inductive message :=
| msg_not_tar                     (* This does not look like a tar archive *)
| msg_exiting_failure             (* Exiting with failure status due to previous errors *)
| msg_unsupported_type (code : Z) (* Unsupported header type: %d *)
| msg_not_found (name : cstring)  (* %s: Not found in archive *)
| msg_error_creating_file         (* Error creating file *)
| msg_unexpected_eof              (* Unexpected EOF in archive *)
| msg_not_recoverable             (* Error is not recoverable: exiting now *)
| msg_lone_zero_block (n : Z)     (* A lone zero block at %d *)
| msg_calloc.                     (* calloc *)

Inductive event :=
| Stdout (line : cstring)         (* printf("%s\n", line) *)
| Stderr (m : message).           (* warnx / errx *)

(** An input stream: the bytes of the file and the file position. *)
Record FILE := mkFILE { contents : list char; position : nat }.

(** [fin] is the archive; [console] the lines printed so far, oldest
    first; [disk] the files written by extraction, by name; [can_create]
    tells for which names [fopen(name, "w")] succeeds.  The archive itself
    is assumed not to be among the files the extraction creates. *)
Record world := mkWorld {
  fin : FILE;
  console : list event;
  disk : gmap (list Z) (list Z);
  can_create : cstring -> bool
}.

Definition set_fin (f : FILE) (w : world) : world :=
  mkWorld f (console w) (disk w) (can_create w).
Definition set_disk (d : gmap (list Z) (list Z)) (w : world) : world :=
  mkWorld (fin w) (console w) d (can_create w).
Definition emit (e : event) (w : world) : world :=
  mkWorld (fin w) (console w ++ [e]) (disk w) (can_create w).

(** How a computation ends: it returns a value, the process exits
    ([errx]), the C code has undefined behaviour (a read outside an
    object), or the step budget of the model ran out. *)
Inductive res (A : Type) : Type :=
| Ret (a : A) (w : world)
| Exit (status : Z) (w : world)
| Undef
| OutOfFuel.
Arguments Ret {A} a w.
Arguments Exit {A} status w.
Arguments Undef {A}.
Arguments OutOfFuel {A}.

Definition M (A : Type) : Type := world -> res A.

Definition ret {A} (a : A) : M A := fun w => Ret a w.

Definition bind {A B} (c : M A) (k : A -> M B) : M B :=
  fun w =>
    match c w with
    | Ret a w' => k a w'
    | Exit status w' => Exit status w'
    | Undef => Undef
    | OutOfFuel => OutOfFuel
    end.

Notation "x <- c1 ;; c2" := (bind c1 (fun x => c2))
  (at level 100, c1 at next level, right associativity).
Notation "c1 ;; c2" := (bind c1 (fun _ => c2))
  (at level 100, right associativity).

Definition undef {A} : M A := fun _ => Undef.
Definition out_of_fuel {A} : M A := fun _ => OutOfFuel.

(** *** err.h and stdio.h *)

Definition warnx (m : message) : M unit := fun w => Ret tt (emit (Stderr m) w).
Definition errx {A} (status : Z) (m : message) : M A :=
  fun w => Exit status (emit (Stderr m) w).
Definition printf_line (s : cstring) : M unit := fun w => Ret tt (emit (Stdout s) w).

(** [fread(buffer, BLOCK_SIZE, 1, fin) == 1]: a whole block or nothing.
    A short read leaves the position at the end of the file. *)
Definition fread_block : M (option (list char)) :=
  fun w =>
    let f := fin w in
    if (position f + 512 <=? length (contents f))%nat
    then Ret (Some (take 512 (drop (position f) (contents f))))
             (set_fin (mkFILE (contents f) (position f + 512)) w)
    else Ret None
             (set_fin (mkFILE (contents f)
                         (Nat.max (position f) (length (contents f)))) w).

(** [fseek(fin, offset, SEEK_CUR)].  The position may go past the end of
    the file; a target that is negative or does not fit a [long] makes
    the call fail and leaves the position where it was (the program
    ignores the return value).  A file system may refuse a target past
    the end of the file earlier than that, beyond its largest file
    offset; see [seek_reach] below. *)
Definition fseek_cur (offset : Z) : M unit :=
  fun w =>
    let f := fin w in
    let target := Z.of_nat (position f) + offset in
    if (0 <=? target) && (target <=? LONG_MAX)
    then Ret tt (set_fin (mkFILE (contents f) (Z.to_nat target)) w)
    else Ret tt w.

Definition ftell : M Z := fun w => Ret (Z.of_nat (position (fin w))) w.

(** [get_archive_size]: seek to the end, [ftell], seek back to the start. *)
Definition get_archive_size : M Z :=
  fun w =>
    let f := fin w in
    Ret (Z.of_nat (length (contents f))) (set_fin (mkFILE (contents f) 0) w).

(** [fopen(name, "w")]: creates or truncates; the handle is the name.
    The disk is keyed by the name as it is passed; see [plain_name]
    below for the names of which this is the file system's view. *)
Definition fopen_w (name : cstring) : M (option cstring) :=
  fun w =>
    if can_create w name
    then Ret (Some name) (set_disk (<[name := []]> (disk w)) w)
    else Ret None w.

(** [fwrite(buffer, n, 1, fout)]: appends the first [n] bytes of
    [buffer]; asking for more than the buffer holds reads outside it. *)
Definition fwrite (fout : cstring) (buffer : list char) (n : Z) : M unit :=
  fun w =>
    if (0 <=? n) && (n <=? Z.of_nat (length buffer))
    then Ret tt (set_disk
                   (alter (fun c => c ++ take (Z.to_nat n) buffer) fout (disk w)) w)
    else Undef.

Definition fclose (fout : cstring) : M unit := ret tt.

(** ** The functions of the program *)

Inductive mode := LIST | EXTRACT.

(** [is_tar_archive]: [strcmp(header->magic, MAGIC)].  The block read by
    [fread] always holds the eight bytes the comparison can reach; a
    shorter [buffer] would be a read outside the object. *)
Definition is_tar_archive (buffer : list char) : M unit :=
  match strcmp_eq (Header.at_field buffer Header.magic) MAGIC with
  | Some true => ret tt
  | Some false => warnx msg_not_tar ;; errx 2 msg_exiting_failure
  | None => undef
  end.

(** [is_regular_file]: [strcmp(header->typeflag, REG_FILE)]; the message
    prints [header->typeflag[0]]. *)
Definition is_regular_file (buffer : list char) : M unit :=
  match strcmp_eq (Header.at_field buffer Header.typeflag) REG_FILE with
  | Some true => ret tt
  | Some false =>
      match Header.at_field buffer Header.typeflag with
      | code :: _ => errx 2 (msg_unsupported_type code)
      | [] => undef
      end
  | None => undef
  end.

(** [files_found[i]].  The array has [files_count] cells and the loops
    below keep [i] under [files_count]; outside it the model reads the
    zero that [calloc] would have left. *)
Definition flag (files_found : list bool) (i : nat) : bool :=
  match files_found !! i with
  | Some b => b
  | None => false
  end.

(** The loop of [mark_file] from index [i] on; [rest] is [files_args]
    from that index. *)
Fixpoint mark_file_loop (i : nat) (filename : cstring) (rest : list cstring)
    (files_found : list bool) : bool * list bool :=
  match rest with
  | [] => (false, files_found)
  | arg :: rest' =>
      if bool_decide (filename = arg) && negb (flag files_found i)
      then (true, <[i := true]> files_found)
      else mark_file_loop (S i) filename rest' files_found
  end.

(** [mark_file]: the returned pair is the result and the array
    [files_found] after the call. *)
Definition mark_file (filename : cstring) (files_args : list cstring)
    (files_found : list bool) : bool * list bool :=
  mark_file_loop 0 filename files_args files_found.

Fixpoint report_missing_loop (i : nat) (rest : list cstring)
    (files_found : list bool) (was_found : bool) : M bool :=
  match rest with
  | [] => ret was_found
  | arg :: rest' =>
      if negb (flag files_found i)
      then warnx (msg_not_found arg) ;;
           report_missing_loop (S i) rest' files_found true
      else report_missing_loop (S i) rest' files_found was_found
  end.

(** [report_missing_files]: the result is true when some requested file
    was not found. *)
Definition report_missing_files (files_args : list cstring)
    (files_found : list bool) : M bool :=
  report_missing_loop 0 files_args files_found false.

(** The [for] loop of [extract_file]; [i] is an [int].  Every round that
    goes on has read a whole block, so the bytes left in the stream bound
    the number of rounds: [fuel] is set from them in [extract_file]. *)
Fixpoint extract_loop (fuel : nat) (fout : cstring) (i : Z)
    (blocks_count bytes_left : Z) : M unit :=
  match fuel with
  | O => out_of_fuel
  | S fuel' =>
      if i <? blocks_count then
        r <- fread_block ;;
        match r with
        | Some buffer =>
            (if wrap32 (i + 1) =? blocks_count
             then fwrite fout buffer bytes_left
             else fwrite fout buffer BLOCK_SIZE) ;;
            extract_loop fuel' fout (wrap32 (i + 1)) blocks_count bytes_left
        | None =>
            warnx msg_unexpected_eof ;; errx 2 msg_not_recoverable
        end
      else ret tt
  end.

Definition bytes_ahead (w : world) : nat :=
  (length (contents (fin w)) - position (fin w))%nat.

Definition extract_file (buffer : list char) : M unit :=
  match cstr (Header.at_field buffer Header.name) with
  | None => undef
  | Some name =>
      fout <- fopen_w name ;;
      match fout with
      | None => errx 2 msg_error_creating_file
      | Some fout =>
          match oct2dec (Header.at_field buffer Header.size) with
          | None => undef
          | Some file_size =>
              (fun w =>
                 extract_loop (S (bytes_ahead w)) fout 0
                   (blocks_count file_size) (bytes_left file_size) w) ;;
              fclose fout
          end
      end
  end.

(** The local variables of [read_archive] that live across iterations. *)
Record locals := mkLocals {
  files_found : list bool;
  first_empty : bool;
  second_empty : bool;
  blocks_read : Z
}.

(** How one round of the [while] loop ends: the condition failed (no
    whole block could be read), [break], or on to the next round. *)
Inductive round :=
| EndOfInput (l : locals)
| Break (l : locals)
| Continue (l : locals).

Section read_archive.

Variables (archive_size : Z) (files_args : list cstring)
          (action : mode) (verbose : bool).

Definition files_count : Z := Z.of_nat (length files_args).

Definition is_list (a : mode) : bool :=
  match a with LIST => true | EXTRACT => false end.
Definition is_extract (a : mode) : bool :=
  match a with LIST => false | EXTRACT => true end.

(** The check that follows the skip or the extraction of an entry. *)
Definition check_position : M unit :=
  pos <- ftell ;;
  if pos >? archive_size
  then warnx msg_unexpected_eof ;; errx 2 msg_not_recoverable
  else ret tt.

(** The loop body for a non-zero block, up to and including the skip
    or the extraction of its entry; the result is [files_found] after
    [mark_file] and the block count of the entry. *)
Definition handle_entry (buffer : list char) (l : locals)
    : M (list bool * Z) :=
  match oct2dec (Header.at_field buffer Header.size) with
  | None => undef
  | Some file_size =>
      let blocks_count := blocks_count file_size in
      is_tar_archive buffer ;;
      is_regular_file buffer ;;
      match cstr (Header.at_field buffer Header.name) with
      | None => undef
      | Some name =>
          let (filename_found, found') :=
            mark_file name files_args (files_found l) in
          let should_print := (files_count =? 0) || filename_found in
          (if should_print &&
              (is_list action || (is_extract action && verbose))
           then printf_line name else ret tt) ;;
          (if is_extract action && should_print
           then extract_file buffer
           else fseek_cur (wrap64 (BLOCK_SIZE * blocks_count))) ;;
          ret (found', blocks_count)
      end
  end.

(** The rest of the loop body: the position check and the update of
    [blocks_read]. *)
Definition process_entry (buffer : list char) (l : locals) : M round :=
  e <- handle_entry buffer l ;;
  check_position ;;
  ret (Continue
         (mkLocals (fst e) (first_empty l) (second_empty l)
            (wrap32 (wrap64 (blocks_read l + snd e))))).

(** One evaluation of the loop condition followed by the loop body. *)
Definition loop_body (l : locals) : M round :=
  r <- fread_block ;;
  match r with
  | None => ret (EndOfInput l)
  | Some buffer =>
      let l1 := mkLocals (files_found l) (first_empty l) (second_empty l)
                  (wrap32 (blocks_read l + 1)) in
      if is_empty_block buffer then
        if negb (first_empty l1)
        then ret (Continue (mkLocals (files_found l1) true
                              (second_empty l1) (blocks_read l1)))
        else ret (Break (mkLocals (files_found l1) (first_empty l1)
                           true (blocks_read l1)))
      else process_entry buffer l1
  end.

(** The [while] loop.  A corrupt size field can make the program seek
    backwards and read the same header for ever, so the loop is run
    with a budget of rounds. *)
Fixpoint while_loop (fuel : nat) (l : locals) : M locals :=
  match fuel with
  | O => out_of_fuel
  | S fuel' =>
      r <- loop_body l ;;
      match r with
      | EndOfInput l' => ret l'
      | Break l' => ret l'
      | Continue l' => while_loop fuel' l'
      end
  end.

(** What [read_archive] does once the loop is left. *)
Definition after_loop (l : locals) : M unit :=
  (if first_empty l && negb (second_empty l)
   then warnx (msg_lone_zero_block (blocks_read l)) else ret tt) ;;
  missing <- report_missing_files files_args (files_found l) ;;
  if missing then errx 2 msg_exiting_failure else ret tt.

(** [calloc(files_count, sizeof(bool))]: all flags false.  The
    allocation is taken to succeed. *)
Definition initial_locals : locals :=
  mkLocals (replicate (length files_args) false) false false 0.

Definition read_archive (fuel : nat) : M unit :=
  l <- while_loop fuel initial_locals ;;
  after_loop l.

End read_archive.

(** [main] after the command line has been parsed and the archive
    opened: the size of the archive is taken from the stream itself, and
    falling off the end of [main] is exit status 0. *)
Definition main_walk (fuel : nat) (files_args : list cstring)
    (action : mode) (verbose : bool) : M Z :=
  archive_size <- get_archive_size ;;
  read_archive archive_size files_args action verbose fuel ;;
  ret 0.

(** ** Sample archives *)

(** [field] bytes of a header member: [s] followed by NULs. *)
Definition padded (n : nat) (s : list char) : list char :=
  take n (s ++ replicate n 0).

(** A header block with the given name, size field, type flag, link
    name, magic and version; every other member is filled with NULs. *)
Definition header_block (name size : list char) (typeflag : char)
    (linkname magic version : list char) : list char :=
  padded 100 name ++ replicate 24 0 ++ padded 12 size ++ replicate 20 0 ++
  [typeflag] ++ padded 100 linkname ++ padded 6 magic ++ padded 2 version ++
  replicate 247 0.

Definition gnu_magic : list char := [117; 115; 116; 97; 114; 32].
Definition gnu_version : list char := [32; 0].
Definition posix_magic : list char := [117; 115; 116; 97; 114; 0].
Definition posix_version : list char := [48; 48].

(** A regular-file header carrying the tag the program accepts. *)
Definition file_header (name size : list char) : list char :=
  header_block name size 48 [] gnu_magic gnu_version.

Definition zero_block : list char := replicate 512 0.

Definition data_block (payload : list char) : list char := padded 512 payload.

Definition start (archive : list char) (creatable : cstring -> bool) : world :=
  mkWorld (mkFILE archive 0) [] ∅ creatable.

(** ** Vocabulary of the statements *)

(** [blocks_read++] on entry to the body. *)
Definition counted (l : locals) : locals :=
  mkLocals (files_found l) (first_empty l) (second_empty l)
    (wrap32 (blocks_read l + 1)).

Definition locals_of (r : round) : locals :=
  match r with EndOfInput l | Break l | Continue l => l end.

(** The entry is printed, and under [-x] extracted: [should_print]. *)
Definition selected (files_args : list (list Z)) (filename_found : bool)
  : bool := (files_count files_args =? 0) || filename_found.

(** The tag the program accepts, spelled over the two members it spans:
    [magic] is "ustar " and [version] is a space and a NUL. *)
Definition accepted_tag (buffer : list char) : Prop :=
  Header.bytes buffer Header.magic = gnu_magic /\
  Header.bytes buffer Header.version = gnu_version.

Definition not_a_tar_archive (w : world) : world :=
  emit (Stderr msg_exiting_failure) (emit (Stderr msg_not_tar) w).

Definition unsupported_type (code : Z) (w : world) : world :=
  emit (Stderr (msg_unsupported_type code)) w.

(** Appending several events to the console at once. *)
Definition emit_all (es : list event) (w : world) : world :=
  mkWorld (fin w) (console w ++ es) (disk w) (can_create w).

(** The requested names whose flag is unset, in the order requested. *)
Definition missing (files_args : list (list Z)) (files_found : list bool)
  : list (list Z) :=
  map fst (List.filter (fun p => negb (snd p)) (zip files_args files_found)).

Definition not_found_lines (names : list (list Z)) : list event :=
  map (fun name => Stderr (msg_not_found name)) names.

(** The digits read backwards, as the loop meets them. *)
Fixpoint backward_value (rest : list Z) : Z :=
  match rest with
  | [] => 0
  | c :: rest' => (c - 48) + 8 * backward_value rest'
  end.

Section walk_vocabulary.

Variables (archive_size : Z) (files_args : list (list Z))
          (action : mode) (verbose : bool).

(** The state in which the skip or the extraction starts: the name has
    been printed if it had to be. *)
Definition announced (name : list Z) (found : bool) (w : world) : world :=
  if selected files_args found &&
     (is_list action || (is_extract action && verbose))
  then emit (Stdout name) w else w.

(** The states in which the walk, started in [w0], evaluates the loop
    condition, that is, expects the next header. *)
Inductive expects_header (w0 : world) : locals -> world -> Prop :=
| expects_first :
    expects_header w0 (initial_locals files_args) w0
| expects_next l w l' w' :
    expects_header w0 l w ->
    loop_body archive_size files_args action verbose l w
      = Ret (Continue l') w' ->
    expects_header w0 l' w'.

End walk_vocabulary.

(** ** More sample archives *)

Definition posix_archive : list Z :=
  header_block [97] [48; 0] 48 [] posix_magic posix_version
  ++ zero_block ++ zero_block.

(** An archive of one entry whose header is a regular file (type flag
    '0', accepted tag, size 0) that carries a link name, followed by the
    end-of-archive marker. *)
Definition linked_regular_header : list Z :=
  header_block [97] [48; 0] 48 [120] gnu_magic gnu_version.

Definition linked_regular_archive : list Z :=
  linked_regular_header ++ zero_block ++ zero_block.

(** A zero block, an entry of size 0, a second zero block, and one more
    entry. *)
Definition interrupted_archive : list Z :=
  zero_block ++ file_header [97] [48; 0] ++ zero_block
  ++ file_header [98] [48; 0].

Definition stranded_archive : list Z :=
  file_header [97] [48; 0] ++ zero_block ++ zero_block.

Definition three_byte_archive : list Z :=
  file_header [97] [48;48;48;48;48;48;48;48;48;48;51;0]
  ++ data_block [1; 2; 3] ++ zero_block ++ zero_block.

(** ** [main]: the command line *)

(** The ways [main] can end before the archive is read.  Each stands for
    the diagnostic printed on standard error and exit status 2. *)
Inductive usage_error :=
| err_insufficient_arguments   (* Insufficient number of arguments *)
| err_option_requires_argument (* Option requires an argument -- 'f' *)
| err_unknown_option           (* Unknown option *)
| err_refusing_terminal        (* Refusing to read archive contents from
                                  terminal; Error is not recoverable:
                                  exiting now *)
| err_specify_mode             (* You must specify either -t  or -x option *)
| err_opening_file.            (* Error opening file *)

(** The variables the argument loop of [main] updates.  [filename] is
    [None] while the pointer is uninitialised; [files] is
    [files_args[0 .. files_count - 1]]. *)
Record cmdline := mkCmdline {
  fflag : bool;
  tflag : bool;
  xflag : bool;
  vflag : bool;
  filename : option (list Z);
  files : list (list Z)
}.

Definition no_flags : cmdline := mkCmdline false false false false None [].

(** [s[k]] for a C string [s] and [k] at most its length: a character of
    the string or its terminating NUL. *)
Definition char_at (s : cstring) (k : nat) : Z := nth k s 0.

(** The [for] loop over [argv[1 .. argc - 1]]; [rest] is what is left of
    [argv] from index [i] on.  Option [f] takes [argv[++i]] as it is. *)
Fixpoint parse_args (rest : list cstring) (c : cmdline)
    : usage_error + cmdline :=
  match rest with
  | [] => inr c
  | arg :: rest' =>
      if char_at arg 0 =? 45 then
        if char_at arg 1 =? 102 then
          match rest' with
          | [] => inl err_option_requires_argument
          | file :: rest'' =>
              parse_args rest''
                (mkCmdline true (tflag c) (xflag c) (vflag c) (Some file)
                   (files c))
          end
        else if char_at arg 1 =? 116 then
          parse_args rest'
            (mkCmdline (fflag c) true (xflag c) (vflag c) (filename c)
               (files c))
        else if char_at arg 1 =? 120 then
          parse_args rest'
            (mkCmdline (fflag c) (tflag c) true (vflag c) (filename c)
               (files c))
        else if char_at arg 1 =? 118 then
          parse_args rest'
            (mkCmdline (fflag c) (tflag c) (xflag c) true (filename c)
               (files c))
        else inl err_unknown_option
      else if tflag c || xflag c then
        parse_args rest'
          (mkCmdline (fflag c) (tflag c) (xflag c) (vflag c) (filename c)
             (files c ++ [arg]))
      else parse_args rest' c
  end.

(** [main].  [archives] tells which files [fopen(filename, "r")] can open
    and what they hold; [malloc] is taken to succeed.  The result is
    either a usage error or the outcome of the walk, which starts with
    an empty console and no extracted file. *)
Definition main (fuel : nat) (argv : list cstring)
    (archives : cstring -> option (list char))
    (creatable : cstring -> bool) : usage_error + res Z :=
  if (length argv <? 2)%nat then inl err_insufficient_arguments
  else
    match parse_args (tail argv) no_flags with
    | inl e => inl e
    | inr c =>
        if negb (fflag c) then inl err_refusing_terminal
        else if negb (Nat.b2n (tflag c) + Nat.b2n (xflag c) =? 1)%nat
        then inl err_specify_mode
        else
          match filename c with
          | None => inr Undef
          | Some name =>
              match archives name with
              | None => inl err_opening_file
              | Some archive =>
                  inr (main_walk fuel (files c)
                         (if tflag c then LIST else EXTRACT) (vflag c)
                         (start archive creatable))
              end
          end
    end.

(** ** Archives as sequences of entries *)

(** A block that is a header the walk accepts: it has the accepted tag,
    passes the type check, and its name and size members are read as
    [name] and [file_size]. *)
Definition header_ok (buffer : list Z) (name : list Z) (file_size : Z)
    : Prop :=
  length buffer = 512%nat /\
  accepted_tag buffer /\
  strcmp_eq (Header.at_field buffer Header.typeflag) REG_FILE = Some true /\
  cstr (Header.at_field buffer Header.name) = Some name /\
  oct2dec (Header.at_field buffer Header.size) = Some file_size.

(** An entry as it lies in the stream: its header block and its data
    blocks, with the name and the size the header carries. *)
Record entry := mkEntry {
  e_header : list Z;
  e_name : list Z;
  e_size : Z;
  e_data : list Z
}.

(** The header is one block with the accepted tag, passes the type
    check, and yields the name and the size; the data is the whole
    blocks the size calls for. *)
Definition entry_ok (e : entry) : Prop :=
  header_ok (e_header e) (e_name e) (e_size e) /\
  0 <= e_size e <= 512 * INT_MAX /\
  Z.of_nat (length (e_data e)) = 512 * blocks_count (e_size e).

Definition entry_bytes (e : entry) : list Z := e_header e ++ e_data e.

Definition archive_bytes (es : list entry) : list Z :=
  concat (map entry_bytes es).

(** The file an entry stands for: the first [e_size] bytes of its data. *)
Definition payload (e : entry) : list Z :=
  take (Z.to_nat (e_size e)) (e_data e).

(** The state after the round that handled entry [e]: the stream is
    behind the data blocks, the name was printed if [printed], and the
    file was written if [extracted]. *)
Definition after_entry (e : entry) (printed extracted : bool) (w : world)
    : world :=
  mkWorld
    (mkFILE (contents (fin w))
       (position (fin w) + 512 + length (e_data e)))
    (console w ++ if printed then [Stdout (e_name e)] else [])
    (if extracted then <[e_name e := payload e]> (disk w) else disk w)
    (can_create w).

Section walk_of_entries.

Variables (files_args : list (list Z)) (action : mode) (verbose : bool).

(** [blocks_read] after a round that handled an entry of [file_size]
    bytes. *)
Definition blocks_read_after (blocks_read file_size : Z) : Z :=
  wrap32 (wrap64 (wrap32 (blocks_read + 1) + blocks_count file_size)).

Definition locals_after (e : entry) (l : locals) : locals :=
  mkLocals (snd (mark_file (e_name e) files_args (files_found l)))
    (first_empty l) (second_empty l)
    (blocks_read_after (blocks_read l) (e_size e)).

Definition world_after (e : entry) (l : locals) (w : world) : world :=
  let chosen :=
    selected files_args (fst (mark_file (e_name e) files_args (files_found l)))
  in
  after_entry e
    (chosen && (is_list action || (is_extract action && verbose)))
    (is_extract action && chosen) w.

(** The rounds for a run of entries, one after the other. *)
Fixpoint walk_entries (es : list entry) (l : locals) (w : world)
    : locals * world :=
  match es with
  | [] => (l, w)
  | e :: es' => walk_entries es' (locals_after e l) (world_after e l w)
  end.

End walk_of_entries.

(** The files on disk after the entries [es] have been extracted in
    turn. *)
Definition extracted (es : list entry) (d : gmap (list Z) (list Z))
    : gmap (list Z) (list Z) :=
  fold_left (fun d e => <[e_name e := payload e]> d) es d.

(** The lines the walk prints for the entries [es] when no name was
    requested: none under [-x] without [-v]. *)
Definition printed_names (action : mode) (verbose : bool) (es : list entry)
    : list event :=
  if is_list action || (is_extract action && verbose)
  then map (fun e => Stdout (e_name e)) es else [].

Definition written (action : mode) (es : list entry)
    (d : gmap (list Z) (list Z)) : gmap (list Z) (list Z) :=
  if is_extract action then extracted es d else d.

(** Two entries for the examples: "a" with the three bytes 1, 2, 3 and
    "b" with 513 bytes, all 7. *)
Definition entry_a : entry :=
  mkEntry (file_header [97] [48;48;48;48;48;48;48;48;48;48;51;0]) [97] 3
    (data_block [1; 2; 3]).

Definition entry_b : entry :=
  mkEntry (file_header [98] [48;48;48;48;48;48;48;49;48;48;49;0]) [98] 513
    (replicate 513 7 ++ replicate 511 0).

(** The flags when exactly the requested names in [seen] have been
    found. *)
Definition flags_for (files_args seen : list (list Z)) : list bool :=
  map (fun a => bool_decide (a ∈ seen)) files_args.

(** The requested names that are not among [names], in request order. *)
Definition absent (files_args names : list (list Z)) : list (list Z) :=
  List.filter (fun a => negb (bool_decide (a ∈ names))) files_args.

(** The names among [names] that are requested, in archive order. *)
Definition wanted (files_args names : list (list Z)) : list (list Z) :=
  List.filter (fun n => bool_decide (n ∈ files_args)) names.

(** A header whose size member holds twelve '1' and no NUL, followed by
    a modification time that reads "2". *)
Definition full_size_header : list Z :=
  replicate 124 0 ++ replicate 12 49 ++ [50; 0] ++ replicate 374 0.

(** An argument that does not start with '-': a file name for the
    argument loop of [main]. *)
Definition is_operand (arg : list Z) : Prop := char_at arg 0 <> 45.

(** The option [-ch] as it appears in [argv]. *)
Definition opt (ch : Z) : list Z := [45; ch].

(** The exit status of a run is 2 whenever the process exits. *)
Definition exits_with_2 {A} (r : res A) : Prop :=
  match r with
  | Exit status _ => status = 2
  | _ => True
  end.

(** The run, if it ends, leaves the extracted files as they were. *)
Definition disk_untouched {A} (w : world) (r : res A) : Prop :=
  match r with
  | Ret _ w' | Exit _ w' => disk w' = disk w
  | _ => True
  end.

(** The entries whose name is requested, in archive order. *)
Definition requested_entries (files_args : list (list Z)) (es : list entry)
    : list entry :=
  List.filter (fun e => bool_decide (e_name e ∈ files_args)) es.

(** The stream stands on a block boundary. *)
Definition block_aligned (w : world) : Prop :=
  exists k : nat, position (fin w) = (512 * k)%nat.

(** The locals after the round for the one entry of [stranded_archive]. *)
Definition blocks_entry_locals : locals := mkLocals [] false false 1.

(** An entry of three bytes whose data is not padded to a whole block:
    the stream ends right behind the third byte. *)
Definition unpadded_archive : list Z :=
  file_header [97] [48;48;48;48;48;48;48;48;48;48;51;0] ++ [1; 2; 3].



(** ** What the model leaves to the file system *)

(** A name of one path component that can name a file: it holds no
    '/' and is not the empty name, "." or "..".  [fopen_w] keys the
    disk by the name as the program passes it, so the disk of the model
    is the working directory, entry by entry.  That is the file system's
    own view as long as the names written to are of this kind and the
    directory is empty at the start (it then holds no link either, and
    not the archive): two such names denote one file only if they are
    equal.  A name with a directory part may denote a file that has
    another name as well, as "./a" and "a" do, and the statements about
    several output files leave such names out. *)
Definition plain_name (name : cstring) : bool :=
  forallb (fun c => negb (c =? 47)) name
  && negb (bool_decide (name ∈ [[]; [46]; [46; 46]])).

(** The offsets every file system lets a seek reach.  [fseek_cur] lets
    a seek succeed whenever the target fits a [long]; a file system
    refuses a target beyond its largest file offset, and POSIX only
    promises that this offset is at least [2^31 - 1] ([FILESIZEBITS] is
    at least 32).  A statement that relies on a seek past the end of
    the archive to succeed keeps the target within this reach. *)
Definition seek_reach : Z := INT_MAX.

(** * Properties *)

(** ** Machine arithmetic *)

Lemma wrap64_spec x : exists k, wrap64 x = x + k * 2 ^ 64.
Proof.
  unfold wrap64, wrap. change (64 - 1) with 63.
  exists (- ((x + 2 ^ 63) / 2 ^ 64)).
  pose proof (Z.div_mod (x + 2 ^ 63) (2 ^ 64) ltac:(lia)). lia.
Qed.

Lemma wrap64_range x : - 2 ^ 63 <= wrap64 x <= LONG_MAX.
Proof.
  unfold wrap64, wrap, LONG_MAX. change (64 - 1) with 63.
  pose proof (Z.mod_pos_bound (x + 2 ^ 63) (2 ^ 64) ltac:(lia)). lia.
Qed.

Lemma wrap64_small x : - 2 ^ 63 <= x <= LONG_MAX -> wrap64 x = x.
Proof.
  unfold wrap64, wrap, LONG_MAX. change (64 - 1) with 63. intros H.
  rewrite Z.mod_small by lia. lia.
Qed.

Lemma wrap64_unique x y k :
  - 2 ^ 63 <= y <= LONG_MAX -> x = y + k * 2 ^ 64 -> wrap64 x = y.
Proof.
  intros Hy ->. unfold wrap64, wrap. change (64 - 1) with 63.
  replace (y + k * 2 ^ 64 + 2 ^ 63) with (y + 2 ^ 63 + k * 2 ^ 64) by lia.
  rewrite Z.mod_add by lia. unfold LONG_MAX in Hy.
  rewrite Z.mod_small by lia. lia.
Qed.

Lemma wrap32_small x : - 2 ^ 31 <= x <= INT_MAX -> wrap32 x = x.
Proof.
  unfold wrap32, wrap, INT_MAX. change (32 - 1) with 31. intros H.
  rewrite Z.mod_small by lia. lia.
Qed.

(** ** The octal decoder *)

Lemma oct2dec_loop_spec rest : forall decimal radix,
  exists k, oct2dec_loop rest decimal radix
            = decimal + radix * backward_value rest + k * 2 ^ 64.
Proof.
  induction rest as [|c rest IH]; intros decimal radix; simpl.
  - exists 0. lia.
  - destruct (wrap64_spec ((c - 48) * radix)) as [k1 E1].
    destruct (wrap64_spec (decimal + wrap64 ((c - 48) * radix))) as [k2 E2].
    destruct (wrap64_spec (radix * 8)) as [k3 E3].
    destruct (IH (wrap64 (decimal + wrap64 ((c - 48) * radix)))
                 (wrap64 (radix * 8))) as [k4 E4].
    exists (k1 + k2 + k3 * backward_value rest + k4).
    rewrite E4, E2, E1, E3. ring.
Qed.

Lemma oct2dec_loop_range rest : forall decimal radix,
  - 2 ^ 63 <= decimal <= LONG_MAX ->
  - 2 ^ 63 <= oct2dec_loop rest decimal radix <= LONG_MAX.
Proof.
  induction rest as [|c rest IH]; intros decimal radix H; simpl.
  - exact H.
  - apply IH, wrap64_range.
Qed.

Lemma backward_value_app l1 l2 :
  backward_value (l1 ++ l2)
  = backward_value l1 + 8 ^ Z.of_nat (length l1) * backward_value l2.
Proof.
  induction l1 as [|c l1 IH].
  - simpl. lia.
  - cbn [app backward_value length]. rewrite IH.
    rewrite Nat2Z.inj_succ, Z.pow_succ_r by lia. ring.
Qed.

Lemma backward_value_rev s : backward_value (rev s) = octal_value s.
Proof.
  induction s as [|c s IH]; [reflexivity|].
  cbn [rev octal_value]. rewrite backward_value_app, length_rev, IH.
  simpl. lia.
Qed.

Lemma oct2dec_str_wrap s : oct2dec_str s = wrap64 (octal_value s).
Proof.
  unfold oct2dec_str.
  destruct (oct2dec_loop_spec (rev s) 0 1) as [k E].
  rewrite backward_value_rev in E. symmetry.
  apply (wrap64_unique _ _ (- k)).
  - apply oct2dec_loop_range. unfold LONG_MAX. lia.
  - lia.
Qed.

Lemma octal_value_digits s :
  Forall (fun c => is_octal_digit c = true) s ->
  0 <= octal_value s < 8 ^ Z.of_nat (length s).
Proof.
  induction 1 as [|c s Hc _ IH]; [simpl; lia|].
  cbn [octal_value length]. rewrite Nat2Z.inj_succ, Z.pow_succ_r by lia.
  unfold is_octal_digit in Hc. apply andb_true_iff in Hc as [H1 H2].
  apply Z.leb_le in H1, H2.
  assert (0 < 8 ^ Z.of_nat (length s)) by (apply Z.pow_pos_nonneg; lia).
  nia.
Qed.

Lemma cstr_app s rest :
  Forall (fun c => c <> 0) s -> cstr (s ++ 0 :: rest) = Some s.
Proof.
  induction 1 as [|c s Hc _ IH]; [reflexivity|].
  cbn [app cstr]. destruct (Z.eqb_spec c 0); [contradiction|].
  now rewrite IH.
Qed.

Lemma cstr_Some mem s :
  cstr mem = Some s ->
  Forall (fun c => c <> 0) s /\ exists rest, mem = s ++ 0 :: rest.
Proof.
  revert s. induction mem as [|c mem IH]; intros s; [discriminate|].
  cbn [cstr]. destruct (Z.eqb_spec c 0) as [->|Hc].
  - intros [= <-]. split; [constructor|]. now exists mem.
  - destruct (cstr mem) as [s'|]; [|discriminate]. intros [= <-].
    destruct (IH s' eq_refl) as [Hs [rest ->]].
    split; [now constructor|]. now exists rest.
Qed.

Lemma cstr_None mem : Forall (fun c => c <> 0) mem -> cstr mem = None.
Proof.
  induction 1 as [|c mem Hc _ IH]; [reflexivity|].
  cbn [cstr]. destruct (Z.eqb_spec c 0); [contradiction|]. now rewrite IH.
Qed.

(** C2 (as found in the code).  The decoder reads from the start of the
    field up to the first NUL byte, wherever that byte lies, and not up
    to the declared length of the field: for memory holding the non-NUL
    characters [s] followed by a NUL it returns the value of the sum of
    [(s_i - '0') * 8^(n-1-i)] reduced to a 64-bit [long]; when the [n]
    characters are octal digits and [n <= 21] the result is exactly that
    sum and it is non-negative. *)
Theorem oct2dec_reads_up_to_nul (s rest : list Z) :
  Forall (fun c => c <> 0) s ->
  oct2dec (s ++ 0 :: rest) = Some (wrap64 (octal_value s)) /\
  (Forall (fun c => is_octal_digit c = true) s -> (length s <= 21)%nat ->
   oct2dec (s ++ 0 :: rest) = Some (octal_value s) /\ 0 <= octal_value s).
Proof.
  intros Hs. unfold oct2dec. rewrite (cstr_app s rest Hs).
  rewrite oct2dec_str_wrap. split; [reflexivity|].
  intros Hd Hn. pose proof (octal_value_digits s Hd) as Hv.
  assert (8 ^ Z.of_nat (length s) <= 8 ^ 21)
    by (apply Z.pow_le_mono_r; lia).
  rewrite wrap64_small; [split; [reflexivity | lia]|].
  unfold LONG_MAX. change (8 ^ 21) with (2 ^ 63) in *. lia.
Qed.

Lemma oct2dec_reads_up_to_nul_witness :
  Forall (fun c => c <> 0) [49; 50] /\
  oct2dec ([49; 50] ++ 0 :: [55; 55]) = Some 10.
Proof.
  split.
  - repeat constructor; lia.
  - apply (oct2dec_reads_up_to_nul [49; 50] [55; 55]);
      repeat constructor; try lia.
Defined.

(** C2 (as stated) fails.  On a header whose 12-byte size field is
    "00000000003" followed by its NUL, decoding every byte of the field
    as a digit gives [3 * 8 + (0 - '0') = -24], while the program,
    which stops at the NUL, returns 3; and a field padded with a space
    before the NUL decodes to a negative number. *)
Lemma oct2dec_declared_length_counterexample :
  let buffer := file_header [97] [48;48;48;48;48;48;48;48;48;48;51;0] in
  oct2dec (Header.at_field buffer Header.size) = Some 3 /\
  octal_value (Header.bytes buffer Header.size) = -24 /\
  oct2dec (Header.at_field buffer Header.size)
    <> Some (octal_value (Header.bytes buffer Header.size)) /\
  oct2dec (Header.at_field (file_header [97] [32; 0]) Header.size)
    = Some (-16).
Proof. vm_compute. repeat split; congruence. Qed.

(** The decoder on memory without a NUL: [strlen] leaves the object. *)
Lemma oct2dec_unterminated mem :
  Forall (fun c => c <> 0) mem -> oct2dec mem = None.
Proof. intros H. unfold oct2dec. now rewrite cstr_None. Qed.

(** ** The entry extent *)

Lemma blocks_count_no_overflow file_size :
  0 <= file_size <= LONG_MAX - 511 ->
  blocks_count file_size = (file_size + 511) / 512.
Proof.
  unfold blocks_count, BLOCK_SIZE, LONG_MAX. intros H.
  destruct (wrap64_spec (file_size + 512)) as [k Hk].
  rewrite (wrap64_unique (wrap64 (file_size + 512) - 1) (file_size + 511) k)
    by (unfold LONG_MAX; lia).
  rewrite Z.quot_div_nonneg by lia.
  pose proof (Z.div_mod (file_size + 511) 512 ltac:(lia)).
  pose proof (Z.mod_pos_bound (file_size + 511) 512 ltac:(lia)).
  apply wrap64_small. unfold LONG_MAX. lia.
Qed.

Lemma bytes_left_no_overflow file_size :
  0 <= file_size <= LONG_MAX - 511 ->
  bytes_left file_size = file_size - (blocks_count file_size - 1) * 512.
Proof.
  intros H. unfold bytes_left, BLOCK_SIZE.
  pose proof (blocks_count_no_overflow file_size H) as Hb.
  pose proof (Z.div_mod (file_size + 511) 512 ltac:(lia)).
  pose proof (Z.mod_pos_bound (file_size + 511) 512 ltac:(lia)).
  unfold LONG_MAX in H.
  rewrite (wrap64_small (blocks_count file_size - 1))
    by (unfold LONG_MAX; lia).
  rewrite (wrap64_small ((blocks_count file_size - 1) * 512))
    by (unfold LONG_MAX; lia).
  apply wrap64_small. unfold LONG_MAX. lia.
Qed.

(** C3 (as found in the code).  For every size from 0 up to
    [LONG_MAX - 511] the block count is the ceiling of [size / 512] (the
    least [n] with [size <= 512 * n]); the tail lies between 0 and 512
    and is 512 exactly when the size is a multiple of 512, zero included;
    a size of 0 gives 0 blocks; and for a positive size the whole blocks
    before the last one plus the tail make up the size. *)
Theorem entry_extent (file_size : Z) :
  0 <= file_size <= LONG_MAX - 511 ->
  (file_size <= 512 * blocks_count file_size /\
   forall n, file_size <= 512 * n -> blocks_count file_size <= n) /\
  0 <= bytes_left file_size <= 512 /\
  (bytes_left file_size = 512 <-> file_size mod 512 = 0) /\
  (file_size = 0 -> blocks_count file_size = 0) /\
  (0 < file_size ->
   file_size = 512 * (blocks_count file_size - 1) + bytes_left file_size).
Proof.
  intros H.
  rewrite (bytes_left_no_overflow _ H), (blocks_count_no_overflow _ H).
  pose proof (Z.div_mod (file_size + 511) 512 ltac:(lia)).
  pose proof (Z.mod_pos_bound (file_size + 511) 512 ltac:(lia)).
  pose proof (Z.div_mod file_size 512 ltac:(lia)).
  pose proof (Z.mod_pos_bound file_size 512 ltac:(lia)).
  repeat split; try lia.
Qed.

Lemma entry_extent_witness :
  0 <= 1025 <= LONG_MAX - 511 /\
  0 <= bytes_left 1025 <= 512.
Proof.
  split.
  - unfold LONG_MAX. lia.
  - apply (entry_extent 1025). unfold LONG_MAX. lia.
Defined.

(** C3 (as stated) fails at size 0: the tail computed there is 512,
    although 0 is not a positive multiple of 512. *)
Lemma tail_bytes_counterexample :
  blocks_count 0 = 0 /\ bytes_left 0 = 512 /\
  ~ (bytes_left 0 = 512 <-> 0 < 0 /\ 0 mod 512 = 0).
Proof.
  split; [reflexivity|]. split; [reflexivity|].
  intros [H _]. specialize (H eq_refl). lia.
Qed.

(** Past [LONG_MAX - 511] the addition in the block count wraps. *)
Lemma blocks_count_wraps : blocks_count LONG_MAX = - (2 ^ 54 - 1).
Proof. reflexivity. Qed.

(** ** Reading a block *)

Lemma fread_block_Some w buffer w1 :
  fread_block w = Ret (Some buffer) w1 ->
  length buffer = 512%nat /\
  (position (fin w) + 512 <= length (contents (fin w)))%nat /\
  buffer = take 512 (drop (position (fin w)) (contents (fin w))) /\
  w1 = set_fin (mkFILE (contents (fin w)) (position (fin w) + 512)) w.
Proof.
  unfold fread_block.
  destruct (Nat.leb_spec (position (fin w) + 512) (length (contents (fin w))))
    as [Hle|Hlt]; [|discriminate].
  intros [= <- <-]. repeat split; try assumption.
  rewrite length_take, length_drop. lia.
Qed.

Lemma fread_block_None w w1 :
  fread_block w = Ret None w1 ->
  (length (contents (fin w)) < position (fin w) + 512)%nat /\
  w1 = set_fin (mkFILE (contents (fin w))
                  (Nat.max (position (fin w)) (length (contents (fin w))))) w.
Proof.
  unfold fread_block.
  destruct (Nat.leb_spec (position (fin w) + 512) (length (contents (fin w))))
    as [Hle|Hlt]; [discriminate|].
  intros [= <-]. split; [assumption | reflexivity].
Qed.

(** ** The checks on a header *)

Lemma at_field_version buffer :
  Header.at_field buffer Header.version
  = drop 6 (Header.at_field buffer Header.magic).
Proof.
  unfold Header.at_field.
  change (Header.offset Header.version) with (257 + 6)%nat.
  change (Header.offset Header.magic) with 257%nat.
  now rewrite drop_drop.
Qed.

Ltac case_eqb :=
  repeat match goal with
         | |- context [?a =? ?b] => destruct (Z.eqb_spec a b); try subst a
         end.

Lemma strcmp_magic buffer :
  (265 <= length buffer)%nat ->
  (accepted_tag buffer ->
   strcmp_eq (Header.at_field buffer Header.magic) MAGIC = Some true) /\
  (~ accepted_tag buffer ->
   strcmp_eq (Header.at_field buffer Header.magic) MAGIC = Some false).
Proof.
  intros Hlen. unfold accepted_tag, Header.bytes.
  rewrite at_field_version.
  assert (8 <= length (Header.at_field buffer Header.magic))%nat as Hm.
  { unfold Header.at_field. rewrite length_drop.
    change (Header.offset Header.magic) with 257%nat. lia. }
  destruct (Header.at_field buffer Header.magic)
    as [|c0 [|c1 [|c2 [|c3 [|c4 [|c5 [|c6 [|c7 m]]]]]]]];
    simpl in Hm; try lia.
  unfold gnu_magic, gnu_version, MAGIC. cbn [Header.width take drop strcmp_eq].
  split.
  - intros [[= -> -> -> -> -> ->] [= -> ->]]. reflexivity.
  - intros Hn. case_eqb; try reflexivity. exfalso. apply Hn. now split.
Qed.

Lemma is_tar_archive_spec buffer w :
  (265 <= length buffer)%nat ->
  (accepted_tag buffer -> is_tar_archive buffer w = Ret tt w) /\
  (~ accepted_tag buffer ->
   is_tar_archive buffer w = Exit 2 (not_a_tar_archive w)).
Proof.
  intros Hlen. destruct (strcmp_magic buffer Hlen) as [Hy Hn].
  unfold is_tar_archive. split; intros H.
  - now rewrite (Hy H).
  - now rewrite (Hn H).
Qed.

(** C10.  [strcmp] starts at the 6-byte [magic] member and runs on into
    the 2-byte [version] member: a 512-byte header passes
    [is_tar_archive] exactly when its magic bytes are "ustar " and its
    version bytes are a space and a NUL (otherwise the program warns and
    exits with status 2); in particular the POSIX tag, magic "ustar\0"
    with version "00", is rejected that way. *)
Theorem magic_check_inspects_version (buffer : list Z) (w : world) :
  length buffer = 512%nat ->
  (is_tar_archive buffer w = Ret tt w <->
   Header.bytes buffer Header.magic = [117; 115; 116; 97; 114; 32] /\
   Header.bytes buffer Header.version = [32; 0]) /\
  (is_tar_archive buffer w <> Ret tt w ->
   is_tar_archive buffer w = Exit 2 (not_a_tar_archive w)) /\
  (Header.bytes buffer Header.magic = [117; 115; 116; 97; 114; 0] ->
   Header.bytes buffer Header.version = [48; 48] ->
   is_tar_archive buffer w = Exit 2 (not_a_tar_archive w)).
Proof.
  intros Hlen.
  destruct (is_tar_archive_spec buffer w ltac:(lia)) as [Hy Hn].
  fold gnu_magic gnu_version. fold (accepted_tag buffer).
  split; [split|split].
  - intros Hr. destruct (strcmp_magic buffer ltac:(lia)) as [_ Hs].
    unfold is_tar_archive in Hr.
    destruct (strcmp_eq (Header.at_field buffer Header.magic) MAGIC)
      as [[|]|] eqn:E; try discriminate.
    apply dec_stable. intros Hna. specialize (Hs Hna). congruence.
  - exact Hy.
  - intros Hr. apply Hn. intros Ha. apply Hr, Hy, Ha.
  - intros Hm Hv. apply Hn. intros [Hm' _]. rewrite Hm in Hm'. discriminate.
Qed.

Lemma magic_check_inspects_version_witness :
  length (header_block [97] [48; 0] 48 [] posix_magic posix_version)
    = 512%nat /\
  is_tar_archive
    (header_block [97] [48; 0] 48 [] posix_magic posix_version)
    (start [] (fun _ => true))
  = Exit 2 (not_a_tar_archive (start [] (fun _ => true))).
Proof.
  split; [reflexivity|].
  apply (magic_check_inspects_version
           (header_block [97] [48; 0] 48 [] posix_magic posix_version));
    reflexivity.
Defined.

(** ** One round of the walk *)

Section walk_facts.

Variables (archive_size : Z) (files_args : list (list Z))
          (action : mode) (verbose : bool).

Local Abbreviation handle := (handle_entry files_args action verbose).
Local Abbreviation process :=
  (process_entry archive_size files_args action verbose).
Local Abbreviation body := (loop_body archive_size files_args action verbose).
Local Abbreviation loop := (while_loop archive_size files_args action verbose).

Lemma loop_body_nonzero l w buffer w1 :
  fread_block w = Ret (Some buffer) w1 ->
  is_empty_block buffer = false ->
  body l w = process buffer (counted l) w1.
Proof.
  intros Hr He. unfold loop_body, bind.
  rewrite Hr, He. reflexivity.
Qed.

Lemma loop_body_zero l w buffer w1 :
  fread_block w = Ret (Some buffer) w1 ->
  is_empty_block buffer = true ->
  body l w =
    if first_empty l
    then Ret (Break (mkLocals (files_found l) (first_empty l) true
                       (wrap32 (blocks_read l + 1)))) w1
    else Ret (Continue (mkLocals (files_found l) true (second_empty l)
                          (wrap32 (blocks_read l + 1)))) w1.
Proof.
  intros Hr He. unfold loop_body, bind.
  rewrite Hr, He. simpl. now destruct (first_empty l).
Qed.

Lemma while_loop_S fuel l w :
  loop (S fuel) l w =
    match body l w with
    | Ret (EndOfInput l') w' => Ret l' w'
    | Ret (Break l') w' => Ret l' w'
    | Ret (Continue l') w' => loop fuel l' w'
    | Exit status w' => Exit status w'
    | Undef => Undef
    | OutOfFuel => OutOfFuel
    end.
Proof.
  cbn [while_loop]. unfold bind.
  destruct (body l w) as [[l'|l'|l'] w'|status w'| |]; reflexivity.
Qed.

Lemma process_entry_eq buffer l w :
  process buffer l w =
    match handle buffer l w with
    | Ret e w' =>
        if Z.of_nat (position (fin w')) >? archive_size
        then Exit 2 (emit (Stderr msg_not_recoverable)
                       (emit (Stderr msg_unexpected_eof) w'))
        else Ret (Continue
                    (mkLocals (fst e) (first_empty l) (second_empty l)
                       (wrap32 (wrap64 (blocks_read l + snd e))))) w'
    | Exit status w' => Exit status w'
    | Undef => Undef
    | OutOfFuel => OutOfFuel
    end.
Proof.
  unfold process_entry, bind.
  destruct (handle buffer l w) as [e w'|status w'| |]; try reflexivity.
  unfold check_position, bind, ftell.
  now destruct (Z.of_nat (position (fin w')) >? archive_size).
Qed.

Lemma handle_entry_bad_magic buffer l w :
  length buffer = 512%nat ->
  ~ accepted_tag buffer ->
  handle buffer l w =
    match oct2dec (Header.at_field buffer Header.size) with
    | Some _ => Exit 2 (not_a_tar_archive w)
    | None => Undef
    end.
Proof.
  intros Hlen Hbad. unfold handle_entry.
  destruct (oct2dec (Header.at_field buffer Header.size)); [|reflexivity].
  unfold bind.
  destruct (is_tar_archive_spec buffer w ltac:(lia)) as [_ Hn].
  now rewrite (Hn Hbad).
Qed.

(** X22.  When the walk reads a non-zero block whose magic/version tag
    is not the accepted one and whose size member is terminated inside the
    block (a NUL lies between the start of that member and the end of
    the block, so that decoding the size stays inside the buffer), it
    warns "This does not look like a tar archive" and exits with status
    2 right there: the final state is the one just after the header was
    read plus the two diagnostics, so nothing further is read, printed
    or extracted. *)
Theorem bad_magic_is_fatal (fuel : nat) (l : locals) (w w1 : world)
    (buffer : list Z) (file_size : Z) :
  fread_block w = Ret (Some buffer) w1 ->
  is_empty_block buffer = false ->
  ~ accepted_tag buffer ->
  oct2dec (Header.at_field buffer Header.size) = Some file_size ->
  loop (S fuel) l w = Exit 2 (not_a_tar_archive w1).
Proof.
  intros Hr He Hbad Hsize.
  destruct (fread_block_Some _ _ _ Hr) as [Hlen _].
  rewrite while_loop_S, (loop_body_nonzero l w buffer w1 Hr He).
  rewrite process_entry_eq.
  rewrite (handle_entry_bad_magic buffer (counted l) w1 Hlen Hbad).
  now rewrite Hsize.
Qed.

End walk_facts.

Lemma bad_magic_is_fatal_witness :
  let w := start posix_archive (fun _ => true) in
  let w1 := set_fin (mkFILE posix_archive 512) w in
  let buffer := take 512 posix_archive in
  fread_block w = Ret (Some buffer) w1 /\
  is_empty_block buffer = false /\
  oct2dec (Header.at_field buffer Header.size) = Some 0 /\
  while_loop 0 [] LIST false 1 (initial_locals []) w
    = Exit 2 (not_a_tar_archive w1).
Proof.
  intros w w1 buffer. split; [reflexivity|]. split; [reflexivity|].
  split; [reflexivity|].
  apply (bad_magic_is_fatal 0 [] LIST false 0 (initial_locals []) w w1 buffer 0).
  - reflexivity.
  - reflexivity.
  - intros [Hm _]. vm_compute in Hm. discriminate.
  - reflexivity.
Defined.


(** ** The type check *)

(** [strcmp] against "0" reads the type flag and the byte after it, which
    is the first byte of [linkname]. *)
Lemma is_regular_file_spec buffer w :
  (158 <= length buffer)%nat ->
  exists code next rest,
    Header.at_field buffer Header.typeflag = code :: next :: rest /\
    is_regular_file buffer w =
      if (code =? 48) && (next =? 0) then Ret tt w
      else Exit 2 (unsupported_type code w).
Proof.
  intros Hlen.
  assert (2 <= length (Header.at_field buffer Header.typeflag))%nat as Hm.
  { unfold Header.at_field. rewrite length_drop.
    change (Header.offset Header.typeflag) with 156%nat. lia. }
  unfold is_regular_file.
  destruct (Header.at_field buffer Header.typeflag) as [|code [|next rest]];
    simpl in Hm; try lia.
  exists code, next, rest. split; [reflexivity|].
  unfold REG_FILE. cbn [strcmp_eq]. now case_eqb.
Qed.

(** A type flag other than '0' is always fatal, and the message carries
    its code. *)
Lemma other_type_is_fatal buffer w code :
  length buffer = 512%nat ->
  Header.bytes buffer Header.typeflag = [code] ->
  code <> 48 ->
  is_regular_file buffer w = Exit 2 (unsupported_type code w).
Proof.
  intros Hlen Hc Hne.
  destruct (is_regular_file_spec buffer w ltac:(lia))
    as (code' & next & rest & Ht & ->).
  unfold Header.bytes in Hc. rewrite Ht in Hc. cbn in Hc.
  injection Hc as ->. now destruct (Z.eqb_spec code 48).
Qed.

(** C6 (the code at the failing input).  The header has the regular-file
    type flag '0' and passes the magic check, yet the walk exits with
    status 2 and "Unsupported header type: 48": the comparison with "0"
    runs on into the first byte of the link name. *)
Theorem regular_file_with_link_name_rejected :
  Header.bytes linked_regular_header Header.typeflag = REG_FILE /\
  is_tar_archive linked_regular_header (start [] (fun _ => true))
    = Ret tt (start [] (fun _ => true)) /\
  main_walk 10 [] LIST false (start linked_regular_archive (fun _ => true))
    = Exit 2 (mkWorld (mkFILE linked_regular_archive 512)
                [Stderr (msg_unsupported_type 48)] ∅ (fun _ => true)).
Proof. repeat split; vm_compute; reflexivity. Qed.

(** ** The end-of-archive marker *)

(** C1 (the code at the failing input).  The two zero blocks are
    separated by the header of entry "a", so they are not consecutive;
    all the same the walk stops at the second of them with exit status 0
    and without the lone-zero-block warning, and entry "b" behind it is
    never listed: [first_empty] is not cleared when a header follows. *)
Theorem zero_blocks_need_not_be_consecutive :
  main_walk 10 [] LIST false (start interrupted_archive (fun _ => true))
  = Ret 0 (mkWorld (mkFILE interrupted_archive 1536) [Stdout [97]] ∅
             (fun _ => true)).
Proof. vm_compute. reflexivity. Qed.

(** ** The name filter *)

Lemma flag_true files_found i :
  flag files_found i = true <-> files_found !! i = Some true.
Proof.
  unfold flag. destruct (files_found !! i) as [[|]|]; split; congruence.
Qed.

Lemma flag_false files_found i :
  (i < length files_found)%nat ->
  flag files_found i = false <-> files_found !! i = Some false.
Proof.
  intros Hi. unfold flag.
  destruct (lookup_lt_is_Some_2 files_found i Hi) as [b Hb].
  rewrite Hb. destruct b; split; congruence.
Qed.

(** What the loop of [mark_file] does from index [i] on. *)
Lemma mark_file_loop_spec filename rest : forall i files_found,
  match mark_file_loop i filename rest files_found with
  | (true, found') =>
      exists j,
        rest !! j = Some filename /\
        flag files_found (i + j) = false /\
        (forall k, (k < j)%nat ->
           ~ (rest !! k = Some filename /\ flag files_found (i + k) = false)) /\
        found' = <[(i + j)%nat := true]> files_found
  | (false, found') =>
      found' = files_found /\
      forall j, rest !! j = Some filename -> flag files_found (i + j) = true
  end.
Proof.
  induction rest as [|arg rest IH]; intros i files_found.
  - simpl. split; [reflexivity|]. intros j Hj. discriminate.
  - cbn [mark_file_loop].
    destruct (bool_decide (filename = arg) && negb (flag files_found i))
      eqn:Hhit.
    + apply andb_true_iff in Hhit as [Heq Hfl].
      apply bool_decide_eq_true in Heq as <-.
      apply negb_true_iff in Hfl.
      exists 0%nat. rewrite Nat.add_0_r. repeat split; try assumption.
      intros k Hk. lia.
    + specialize (IH (S i) files_found).
      destruct (mark_file_loop (S i) filename rest files_found)
        as [[|] found'].
      * destruct IH as (j & Hj & Hfl & Hmin & ->).
        exists (S j). replace (i + S j)%nat with (S i + j)%nat by lia.
        repeat split; try assumption.
        intros [|k] Hk [Hk1 Hk2].
        -- cbn in Hk1. injection Hk1 as <-. rewrite Nat.add_0_r in Hk2.
           rewrite bool_decide_eq_true_2, Hk2 in Hhit by reflexivity.
           discriminate.
        -- apply (Hmin k ltac:(lia)). split; [exact Hk1|].
           now replace (S i + k)%nat with (i + S k)%nat by lia.
      * destruct IH as [-> Hall]. split; [reflexivity|].
        intros [|j] Hj.
        -- cbn in Hj. injection Hj as <-. rewrite Nat.add_0_r.
           rewrite bool_decide_eq_true_2 in Hhit by reflexivity.
           now destruct (flag files_found i).
        -- replace (i + S j)%nat with (S i + j)%nat by lia. now apply Hall.
Qed.

(** C7.  With an empty list of requested names the entry is selected.
    Otherwise [mark_file] returns true exactly when some requested name
    that is still unflagged equals the entry's name, and then flags the
    first such name and nothing else; when there is none it returns
    false and changes no flag.  A flag that is set stays set, the name
    that gets flagged was unflagged before, and an entry whose name has
    no unflagged occurrence left among the requested names is not
    selected: in particular, once a name that was requested once has
    been found, a later entry with that name is not selected. *)
Theorem mark_file_first_unflagged (filename : list Z)
    (files_args : list (list Z)) (files_found : list bool) :
  length files_found = length files_args ->
  let r := fst (mark_file filename files_args files_found) in
  let found' := snd (mark_file filename files_args files_found) in
  (files_args = [] -> selected files_args r = true) /\
  length found' = length files_found /\
  (forall i, files_found !! i = Some true -> found' !! i = Some true) /\
  (r = true ->
   exists i,
     files_args !! i = Some filename /\
     files_found !! i = Some false /\
     (forall k, (k < i)%nat ->
        ~ (files_args !! k = Some filename /\ files_found !! k = Some false)) /\
     found' = <[i := true]> files_found) /\
  (r = false ->
   found' = files_found /\
   forall i, files_args !! i = Some filename -> files_found !! i = Some true) /\
  ((forall i, files_args !! i = Some filename -> files_found !! i = Some true) ->
   files_args <> [] -> selected files_args r = false) /\
  (r = true -> NoDup files_args ->
   forall later,
     length later = length files_args ->
     (forall i, found' !! i = Some true -> later !! i = Some true) ->
     selected files_args (fst (mark_file filename files_args later)) = false).
Proof.
  intros Hlen r found'.
  assert (Hflag : forall i, files_args !! i = Some filename ->
            (flag files_found i = false <-> files_found !! i = Some false)).
  { intros i Hi. apply flag_false. rewrite Hlen.
    now apply lookup_lt_Some with filename. }
  pose proof (mark_file_loop_spec filename files_args 0 files_found) as Hspec.
  subst r found'. unfold mark_file.
  destruct (mark_file_loop 0 filename files_args files_found) as [r found']
    eqn:Hrun.
  cbn [fst snd].
  assert (Hnonempty : files_args <> [] -> (files_count files_args =? 0) = false).
  { intros Hne. unfold files_count. apply Z.eqb_neq.
    destruct files_args; [congruence | simpl; lia]. }
  destruct r.
  - destruct Hspec as (j & Hj & Hfl & Hmin & ->). cbn [Nat.add] in *.
    split; [intros ->; discriminate|].
    split; [apply length_insert|].
    split.
    { intros i Hi. destruct (decide (i = j)) as [->|Hne].
      - apply list_lookup_insert_eq. now apply lookup_lt_Some with true.
      - now rewrite list_lookup_insert_ne. }
    split.
    { intros _. exists j. repeat split; try assumption.
      - now apply Hflag.
      - intros k Hk [Hk1 Hk2]. apply (Hmin k Hk). split; [exact Hk1|].
        now apply Hflag. }
    split; [discriminate|].
    split.
    { intros Hall _. apply Hall in Hj as Hj'. apply flag_true in Hj'.
      congruence. }
    intros _ Hnd later Hlater Hmono.
    pose proof (mark_file_loop_spec filename files_args 0 later) as Hspec2.
    unfold selected. rewrite Hnonempty by (intros ->; discriminate).
    destruct (mark_file_loop 0 filename files_args later) as [[|] found2];
      [|reflexivity].
    destruct Hspec2 as (j2 & Hj2 & Hfl2 & _). cbn [Nat.add] in *.
    assert (j2 = j) as -> by (eapply NoDup_lookup; eassumption).
    assert (later !! j = Some true) as Hset.
    { apply Hmono, list_lookup_insert_eq. rewrite Hlen.
      now apply lookup_lt_Some with filename. }
    apply flag_true in Hset. congruence.
  - destruct Hspec as [-> Hall]. cbn [Nat.add] in *.
    split.
    { intros ->. reflexivity. }
    split; [reflexivity|].
    split; [tauto|].
    split; [discriminate|].
    split.
    { intros _. split; [reflexivity|]. intros i Hi.
      now apply flag_true, Hall. }
    split; [|discriminate].
    intros _ Hne. unfold selected. now rewrite Hnonempty.
Qed.

Lemma mark_file_first_unflagged_witness :
  length [true; false; false] = length [[97]; [98]; [98]] /\
  length (snd (mark_file [98] [[97]; [98]; [98]] [true; false; false]))
    = length [true; false; false].
Proof.
  split; [reflexivity|].
  exact (proj1 (proj2 (mark_file_first_unflagged [98] [[97]; [98]; [98]]
                         [true; false; false] eq_refl))).
Defined.

Example mark_file_duplicate_request :
  mark_file [98] [[97]; [98]; [98]] [true; false; false]
    = (true, [true; true; false]) /\
  mark_file [98] [[97]; [98]; [98]] [true; true; false]
    = (true, [true; true; true]) /\
  mark_file [98] [[97]; [98]; [98]] [true; true; true]
    = (false, [true; true; true]).
Proof. repeat split. Qed.

(** ** The names that were not found *)

Lemma emit_all_nil w : emit_all [] w = w.
Proof. destruct w. unfold emit_all. cbn. now rewrite app_nil_r. Qed.

Lemma emit_all_app es1 es2 w :
  emit_all es2 (emit_all es1 w) = emit_all (es1 ++ es2) w.
Proof. unfold emit_all. cbn. now rewrite app_assoc. Qed.

Lemma emit_emit_all e w : emit e w = emit_all [e] w.
Proof. reflexivity. Qed.

Lemma flag_middle (pre suf : list bool) b :
  flag (pre ++ b :: suf) (length pre) = b.
Proof. unfold flag. now rewrite list_lookup_middle. Qed.

Lemma report_missing_loop_spec rest : forall pre suf was_found w,
  length suf = length rest ->
  report_missing_loop (length pre) rest (pre ++ suf) was_found w
  = Ret (was_found || negb (forallb id suf))
        (emit_all (not_found_lines (missing rest suf)) w).
Proof.
  induction rest as [|arg rest IH]; intros pre suf was_found w Hlen.
  - destruct suf; [|discriminate]. cbn.
    now rewrite emit_all_nil, orb_false_r.
  - destruct suf as [|b suf]; [discriminate|]. injection Hlen as Hlen.
    cbn [report_missing_loop]. rewrite flag_middle.
    specialize (IH (pre ++ [b]) suf).
    rewrite length_app, Nat.add_1_r, <- app_assoc in IH. cbn [app] in IH.
    destruct b; cbn [negb].
    + rewrite IH by assumption. reflexivity.
    + unfold bind, warnx. rewrite IH by assumption.
      rewrite emit_emit_all, emit_all_app. cbn.
      now rewrite orb_true_r.
Qed.

Lemma missing_nil_iff files_args files_found :
  length files_found = length files_args ->
  missing files_args files_found = [] <-> forallb id files_found = true.
Proof.
  revert files_found.
  induction files_args as [|arg rest IH]; intros [|b suf] Hlen;
    try discriminate; [easy|].
  injection Hlen as Hlen. specialize (IH suf Hlen).
  unfold missing in *. destruct b; cbn; [exact IH | easy].
Qed.

Lemma elem_of_missing files_args files_found name :
  name ∈ missing files_args files_found <->
  exists i, files_args !! i = Some name /\ files_found !! i = Some false.
Proof.
  revert files_found.
  induction files_args as [|arg rest IH]; intros files_found.
  - unfold missing. cbn. split.
    + intros H. inversion H.
    + intros (i & Hi & _). discriminate.
  - destruct files_found as [|b suf].
    + unfold missing. cbn. split.
      * intros H. inversion H.
      * intros (i & _ & Hi). discriminate.
    + specialize (IH suf). unfold missing in *. destruct b; cbn.
      * rewrite IH. split.
        -- intros (i & H1 & H2). now exists (S i).
        -- intros ([|i] & H1 & H2); [discriminate|]. now exists i.
      * rewrite elem_of_cons, IH. split.
        -- intros [->|(i & H1 & H2)]; [now exists 0%nat | now exists (S i)].
        -- intros ([|i] & H1 & H2).
           ++ left. cbn in H1. congruence.
           ++ right. now exists i.
Qed.

(** [after_loop], spelled out. *)
Lemma after_loop_spec files_args l w :
  length (files_found l) = length files_args ->
  let lone := if first_empty l && negb (second_empty l)
              then [Stderr (msg_lone_zero_block (blocks_read l))] else [] in
  let names := missing files_args (files_found l) in
  after_loop files_args l w =
    match names with
    | [] => Ret tt (emit_all lone w)
    | _ :: _ =>
        Exit 2 (emit_all (lone ++ not_found_lines names
                          ++ [Stderr msg_exiting_failure]) w)
    end.
Proof.
  intros Hlen lone names. unfold after_loop, bind at 1.
  assert ((if first_empty l && negb (second_empty l)
           then warnx (msg_lone_zero_block (blocks_read l)) else ret tt) w
          = Ret tt (emit_all lone w)) as ->.
  { subst lone. destruct (first_empty l && negb (second_empty l)).
    - reflexivity.
    - unfold ret. now rewrite emit_all_nil. }
  unfold bind, report_missing_files.
  pose proof (report_missing_loop_spec files_args [] (files_found l) false
                (emit_all lone w) Hlen) as Hrep.
  cbn [length app] in Hrep. rewrite Hrep. clear Hrep.
  cbn [orb]. pose proof (missing_nil_iff files_args (files_found l) Hlen) as Hnil.
  fold names in Hnil |- *.
  destruct names as [|name names'].
  - rewrite (proj1 Hnil eq_refl). cbn. unfold ret.
    now rewrite emit_all_nil.
  - destruct (forallb id (files_found l)).
    + destruct Hnil as [_ Hnil]. discriminate (Hnil eq_refl).
    + cbn [negb]. unfold errx.
      now rewrite emit_emit_all, !emit_all_app.
Qed.

(** ** Inversion of the monadic steps *)

Lemma bind_Ret {A B} (c : M A) (k : A -> M B) w b w' :
  bind c k w = Ret b w' ->
  exists a w1, c w = Ret a w1 /\ k a w1 = Ret b w'.
Proof.
  unfold bind. destruct (c w) as [a w1| | |]; try discriminate.
  intros H. now exists a, w1.
Qed.

Lemma is_tar_archive_Ret buffer w u w' :
  is_tar_archive buffer w = Ret u w' -> w' = w.
Proof.
  unfold is_tar_archive.
  destruct (strcmp_eq _ MAGIC) as [[|]|]; try discriminate.
  now intros [= _ <-].
Qed.

Lemma is_regular_file_Ret buffer w u w' :
  is_regular_file buffer w = Ret u w' -> w' = w.
Proof.
  unfold is_regular_file.
  destruct (strcmp_eq _ REG_FILE) as [[|]|]; try discriminate.
  - now intros [= _ <-].
  - destruct (Header.at_field buffer Header.typeflag); discriminate.
Qed.

Lemma mark_file_length filename files_args files_found :
  length (snd (mark_file filename files_args files_found))
  = length files_found.
Proof.
  unfold mark_file.
  pose proof (mark_file_loop_spec filename files_args 0 files_found) as H.
  destruct (mark_file_loop 0 filename files_args files_found) as [[|] found'].
  - destruct H as (j & _ & _ & _ & ->). apply length_insert.
  - destruct H as [-> _]. reflexivity.
Qed.

Section walk_inversion.

Variables (archive_size : Z) (files_args : list (list Z))
          (action : mode) (verbose : bool).

Local Abbreviation handle := (handle_entry files_args action verbose).
Local Abbreviation process :=
  (process_entry archive_size files_args action verbose).
Local Abbreviation body := (loop_body archive_size files_args action verbose).
Local Abbreviation loop := (while_loop archive_size files_args action verbose).

Lemma handle_entry_Ret buffer l w e w' :
  handle buffer l w = Ret e w' ->
  exists file_size name,
    oct2dec (Header.at_field buffer Header.size) = Some file_size /\
    cstr (Header.at_field buffer Header.name) = Some name /\
    is_tar_archive buffer w = Ret tt w /\
    is_regular_file buffer w = Ret tt w /\
    e = (snd (mark_file name files_args (files_found l)),
         blocks_count file_size) /\
    (if is_extract action &&
        selected files_args (fst (mark_file name files_args (files_found l)))
     then extract_file buffer
     else fseek_cur (wrap64 (BLOCK_SIZE * blocks_count file_size)))
      (announced files_args action verbose name
         (fst (mark_file name files_args (files_found l))) w)
    = Ret tt w'.
Proof.
  unfold handle_entry, announced, selected.
  destruct (oct2dec (Header.at_field buffer Header.size)) as [file_size|];
    [|discriminate].
  intros H.
  apply bind_Ret in H as ([] & w1 & Ht & H).
  pose proof (is_tar_archive_Ret _ _ _ _ Ht) as ->.
  apply bind_Ret in H as ([] & w1 & Hr & H).
  pose proof (is_regular_file_Ret _ _ _ _ Hr) as ->.
  destruct (cstr (Header.at_field buffer Header.name)) as [name|];
    [|discriminate].
  exists file_size, name.
  destruct (mark_file name files_args (files_found l)) as [found found'].
  cbn [fst snd].
  apply bind_Ret in H as ([] & w1 & Hp & H).
  apply bind_Ret in H as ([] & w2 & Hs & H).
  injection H as <- <-.
  repeat split; try assumption.
  destruct ((files_count files_args =? 0) || found);
    destruct (is_list action || (is_extract action && verbose));
    cbn [andb] in *; injection Hp as <-; exact Hs.
Qed.

Lemma process_entry_Ret buffer l w r w' :
  process buffer l w = Ret r w' ->
  exists e,
    handle buffer l w = Ret e w' /\
    Z.of_nat (position (fin w')) <= archive_size /\
    r = Continue (mkLocals (fst e) (first_empty l) (second_empty l)
                    (wrap32 (wrap64 (blocks_read l + snd e)))).
Proof.
  rewrite process_entry_eq.
  destruct (handle buffer l w) as [e w1| | |]; try discriminate.
  destruct (Z.gtb_spec (Z.of_nat (position (fin w1))) archive_size);
    [discriminate|].
  intros [= <- <-]. exists e. repeat split. lia.
Qed.

(** What a round that returns can have been. *)
Lemma loop_body_Ret l w r w' :
  body l w = Ret r w' ->
  (r = EndOfInput l /\ fread_block w = Ret None w') \/
  (exists buffer,
     fread_block w = Ret (Some buffer) w' /\
     is_empty_block buffer = true /\
     ((first_empty l = false /\
       r = Continue (mkLocals (files_found l) true (second_empty l)
                       (wrap32 (blocks_read l + 1)))) \/
      (first_empty l = true /\
       r = Break (mkLocals (files_found l) true true
                    (wrap32 (blocks_read l + 1)))))) \/
  (exists buffer w1,
     fread_block w = Ret (Some buffer) w1 /\
     is_empty_block buffer = false /\
     process buffer (counted l) w1 = Ret r w').
Proof.
  intros H. unfold loop_body in H.
  apply bind_Ret in H as (rd & w1 & Hrd & H).
  destruct rd as [buffer|].
  - destruct (is_empty_block buffer) eqn:He.
    + right. left. exists buffer. cbn [first_empty negb] in H.
      destruct (first_empty l) eqn:Hf; cbn in H; injection H as <- <-.
      * repeat split; try assumption. right. now split.
      * repeat split; try assumption. left. now split.
    + right. right. now exists buffer, w1.
  - left. injection H as <- <-. now split.
Qed.

Lemma loop_body_flags_length l w r w' :
  body l w = Ret r w' ->
  length (files_found (locals_of r)) = length (files_found l).
Proof.
  intros H. apply loop_body_Ret in H
    as [[-> _]|[(buffer & _ & _ & [[_ ->]|[_ ->]])|(buffer & w1 & _ & _ & H)]];
    try reflexivity.
  apply process_entry_Ret in H as (e & He & _ & ->).
  apply handle_entry_Ret in He as (fs & name & _ & _ & _ & _ & -> & _).
  cbn. apply mark_file_length.
Qed.

Lemma while_loop_flags_length fuel : forall l w l' w',
  loop fuel l w = Ret l' w' ->
  length (files_found l') = length (files_found l).
Proof.
  induction fuel as [|fuel IH]; intros l w l' w' H; [discriminate|].
  rewrite while_loop_S in H.
  destruct (body l w) as [r w1| | |] eqn:Hb; try discriminate.
  apply loop_body_flags_length in Hb.
  destruct r as [l1|l1|l1]; cbn in Hb.
  - injection H as <- <-. exact Hb.
  - injection H as <- <-. exact Hb.
  - apply IH in H. congruence.
Qed.

(** C9.  When the loop of the walk is left without a fatal error, the
    program prints the lone-zero-block warning if it is due and then
    checks the flags.  The names reported are exactly the requested
    names whose flag is still unset; if there is any, each gets its own
    "Not found in archive" line, in the order requested, and the
    program exits with status 2; if there is none (all were matched,
    or none was requested) [read_archive] returns normally. *)
Theorem missing_names_fail (fuel : nat) (w w' : world) (l : locals) :
  loop fuel (initial_locals files_args) w = Ret l w' ->
  let lone := if first_empty l && negb (second_empty l)
              then [Stderr (msg_lone_zero_block (blocks_read l))] else [] in
  let names := missing files_args (files_found l) in
  (forall name,
     name ∈ names <->
     exists i, files_args !! i = Some name /\
               files_found l !! i = Some false) /\
  (names <> [] ->
   read_archive archive_size files_args action verbose fuel w
   = Exit 2 (emit_all (lone ++ not_found_lines names
                       ++ [Stderr msg_exiting_failure]) w')) /\
  (names = [] ->
   read_archive archive_size files_args action verbose fuel w
   = Ret tt (emit_all lone w')) /\
  (files_args = [] -> names = []).
Proof.
  intros Hloop lone names.
  assert (length (files_found l) = length files_args) as Hlen.
  { rewrite (while_loop_flags_length _ _ _ _ _ Hloop). cbn.
    apply length_replicate. }
  pose proof (after_loop_spec files_args l w' Hlen) as Hafter.
  cbv zeta in Hafter. fold lone names in Hafter.
  split; [intros name; apply elem_of_missing|].
  unfold read_archive, bind. rewrite Hloop, Hafter.
  repeat split.
  - intros Hne. destruct names; [contradiction | reflexivity].
  - now intros ->.
  - intros ->. reflexivity.
Qed.

End walk_inversion.

Lemma missing_names_fail_witness :
  let w := start stranded_archive (fun _ => true) in
  let l := mkLocals [false; true] true true 3 in
  let w' := mkWorld (mkFILE stranded_archive 1536) [Stdout [97]] ∅
              (fun _ => true) in
  while_loop 1536 [[98]; [97]] LIST false 10 (initial_locals [[98]; [97]]) w
    = Ret l w' /\
  read_archive 1536 [[98]; [97]] LIST false 10 w
    = Exit 2 (emit_all [Stderr (msg_not_found [98]);
                        Stderr msg_exiting_failure] w').
Proof.
  intros w l w'. split.
  - vm_compute. reflexivity.
  - apply (missing_names_fail 1536 [[98]; [97]] LIST false 10 w w' l).
    + vm_compute. reflexivity.
    + vm_compute. discriminate.
Defined.

(** ** Extraction *)

Lemma extract_loop_done fuel fout i blocks bytes w :
  blocks <= i -> extract_loop (S fuel) fout i blocks bytes w = Ret tt w.
Proof.
  intros H. cbn [extract_loop].
  destruct (Z.ltb_spec i blocks); [lia | reflexivity].
Qed.

Lemma extract_loop_step fuel fout i blocks bytes w buffer w1 :
  i < blocks ->
  fread_block w = Ret (Some buffer) w1 ->
  extract_loop (S fuel) fout i blocks bytes w =
    match fwrite fout buffer
            (if wrap32 (i + 1) =? blocks then bytes else BLOCK_SIZE) w1 with
    | Ret _ w2 => extract_loop fuel fout (wrap32 (i + 1)) blocks bytes w2
    | Exit status w2 => Exit status w2
    | Undef => Undef
    | OutOfFuel => OutOfFuel
    end.
Proof.
  intros Hi Hr. cbn [extract_loop].
  destruct (Z.ltb_spec i blocks); [|lia].
  unfold bind at 1. rewrite Hr. unfold bind.
  now destruct (wrap32 (i + 1) =? blocks).
Qed.

Lemma extract_loop_eof fuel fout i blocks bytes w w1 :
  i < blocks ->
  fread_block w = Ret None w1 ->
  extract_loop (S fuel) fout i blocks bytes w =
    Exit 2 (emit (Stderr msg_not_recoverable)
              (emit (Stderr msg_unexpected_eof) w1)).
Proof.
  intros Hi Hr. cbn [extract_loop].
  destruct (Z.ltb_spec i blocks); [|lia].
  unfold bind at 1. now rewrite Hr.
Qed.

Lemma fread_block_ok w :
  (position (fin w) + 512 <= length (contents (fin w)))%nat ->
  fread_block w =
    Ret (Some (take 512 (drop (position (fin w)) (contents (fin w)))))
        (set_fin (mkFILE (contents (fin w)) (position (fin w) + 512)) w).
Proof.
  intros H. unfold fread_block.
  now destruct (Nat.leb_spec (position (fin w) + 512)
                  (length (contents (fin w)))); [|lia].
Qed.

Lemma fwrite_ok fout buffer n w :
  0 <= n <= Z.of_nat (length buffer) ->
  fwrite fout buffer n w =
    Ret tt (set_disk
              (alter (fun c => c ++ take (Z.to_nat n) buffer) fout (disk w)) w).
Proof.
  intros H. unfold fwrite.
  destruct (Z.leb_spec 0 n); [|lia].
  now destruct (Z.leb_spec n (Z.of_nat (length buffer))); [|lia].
Qed.

(** The loop with [S m] blocks still to copy, all of them present in the
    stream: it returns, having moved the position past them and having
    appended to the output all of the first [m] blocks and the first
    [bytes] bytes of the last. *)
Lemma extract_loop_blocks m : forall fuel fout i blocks bytes w acc,
  blocks - i = Z.of_nat (S m) ->
  0 <= i -> blocks <= INT_MAX ->
  (S m < fuel)%nat ->
  (position (fin w) + 512 * S m <= length (contents (fin w)))%nat ->
  disk w !! fout = Some acc ->
  0 <= bytes <= 512 ->
  exists w',
    extract_loop fuel fout i blocks bytes w = Ret tt w' /\
    fin w' = mkFILE (contents (fin w)) (position (fin w) + 512 * S m) /\
    console w' = console w /\
    can_create w' = can_create w /\
    disk w' !! fout
      = Some (acc ++ take (512 * m + Z.to_nat bytes)
                       (drop (position (fin w)) (contents (fin w)))) /\
    forall other, other <> fout -> disk w' !! other = disk w !! other.
Proof.
  induction m as [|m IH];
    intros fuel fout i blocks bytes w acc Hn Hi Hmax Hfuel Hpresent Hacc Hb.
  - destruct fuel as [|[|fuel]]; try lia.
    assert (i < blocks) as Hlt by lia.
    assert (position (fin w) + 512 <= length (contents (fin w)))%nat
      as Hread by lia.
    rewrite (extract_loop_step _ _ _ _ _ _ _ _ Hlt (fread_block_ok w Hread)).
    set (buffer := take 512 (drop (position (fin w)) (contents (fin w)))).
    assert (length buffer = 512%nat) as Hlen.
    { subst buffer. rewrite length_take, length_drop. lia. }
    unfold INT_MAX in Hmax.
    rewrite wrap32_small by (unfold INT_MAX; lia).
    destruct (Z.eqb_spec (i + 1) blocks); [|lia].
    rewrite fwrite_ok by lia.
    rewrite extract_loop_done by lia.
    eexists. split; [reflexivity|].
    cbn [fin console disk can_create set_disk set_fin contents position].
    split; [f_equal; lia|]. split; [reflexivity|]. split; [reflexivity|].
    split.
    + rewrite lookup_alter_eq, Hacc. cbn [fmap option_fmap option_map].
      subst buffer. rewrite take_take. do 3 f_equal. lia.
    + intros other Hne. now rewrite lookup_alter_ne.
  - destruct fuel as [|fuel]; try lia.
    assert (i < blocks) as Hlt by lia.
    assert (position (fin w) + 512 <= length (contents (fin w)))%nat
      as Hread by lia.
    rewrite (extract_loop_step _ _ _ _ _ _ _ _ Hlt (fread_block_ok w Hread)).
    set (buffer := take 512 (drop (position (fin w)) (contents (fin w)))).
    assert (length buffer = 512%nat) as Hlen.
    { subst buffer. rewrite length_take, length_drop. lia. }
    unfold INT_MAX in Hmax.
    rewrite wrap32_small by (unfold INT_MAX; lia).
    destruct (Z.eqb_spec (i + 1) blocks); [lia|].
    rewrite fwrite_ok by (unfold BLOCK_SIZE; lia).
    set (w1 := set_disk _ _).
    destruct (IH fuel fout (i + 1) blocks bytes w1 (acc ++ buffer))
      as (w' & Hrun & Hfin & Hcon & Hcan & Hout & Hother);
      try (unfold INT_MAX; lia).
    + subst w1.
      cbn [fin console disk can_create set_disk set_fin contents position].
      lia.
    + subst w1.
      cbn [fin console disk can_create set_disk set_fin contents position].
      rewrite lookup_alter_eq, Hacc. cbn [fmap option_fmap option_map].
      now rewrite (take_ge buffer) by (unfold BLOCK_SIZE; lia).
    + exists w'. split; [exact Hrun|]. subst w1.
      cbn [fin console disk can_create set_disk set_fin contents position]
        in *.
      split; [rewrite Hfin; f_equal; lia|].
      split; [assumption|]. split; [assumption|]. split.
      * rewrite Hout, <- app_assoc. do 2 f_equal. subst buffer.
        rewrite <- (drop_drop (contents (fin w)) 512 (position (fin w))).
        rewrite take_take_drop. f_equal. lia.
      * intros other Hne. rewrite (Hother other Hne).
        now rewrite lookup_alter_ne.
Qed.

Lemma extent_positive file_size :
  0 < file_size <= LONG_MAX - 511 ->
  1 <= blocks_count file_size /\
  1 <= bytes_left file_size <= 512 /\
  file_size = 512 * (blocks_count file_size - 1) + bytes_left file_size.
Proof.
  intros H.
  rewrite (bytes_left_no_overflow file_size) by lia.
  rewrite (blocks_count_no_overflow file_size) by lia.
  pose proof (Z.div_mod (file_size + 511) 512 ltac:(lia)).
  pose proof (Z.mod_pos_bound (file_size + 511) 512 ltac:(lia)).
  lia.
Qed.

(** [extract_file] once the name and the size are known and the output
    file can be created. *)
Lemma extract_file_eq buffer w name file_size :
  cstr (Header.at_field buffer Header.name) = Some name ->
  can_create w name = true ->
  oct2dec (Header.at_field buffer Header.size) = Some file_size ->
  extract_file buffer w =
    extract_loop (S (bytes_ahead w)) name 0
      (blocks_count file_size) (bytes_left file_size)
      (set_disk (<[name := []]> (disk w)) w).
Proof.
  intros Hname Hcan Hsize. unfold extract_file.
  rewrite Hname. unfold bind at 1, fopen_w. rewrite Hcan, Hsize.
  unfold bind, fclose, ret.
  change (bytes_ahead (set_disk (<[name:=[]]> (disk w)) w))
    with (bytes_ahead w).
  now destruct (extract_loop _ _ _ _ _ _) as [[] ?| | |].
Qed.

(** C4 (as found in the code).  Extraction reads the data block by
    block, so what has to be in the stream is the whole blocks of the
    entry, padding included, and not only its payload bytes.  Take a
    header whose name can be created as an output file and whose size
    field decodes to [s], with [0 <= s] (and [s] small enough for the
    [int] block counter of the loop), and let the [ceil(s / 512)] data
    blocks of the entry be present in full in the stream at the current
    position.  Then [extract_file] returns, the output
    file holds exactly the first [s] bytes of those blocks and nothing
    else, so none of the padding of the last block, its length is [s],
    the stream is left just behind the payload blocks, and no other file
    and no console line is touched. *)
Theorem extraction_round_trip (buffer : list Z) (w : world) (name : list Z)
    (s : Z) :
  cstr (Header.at_field buffer Header.name) = Some name ->
  can_create w name = true ->
  oct2dec (Header.at_field buffer Header.size) = Some s ->
  0 <= s <= 512 * INT_MAX ->
  Z.of_nat (position (fin w)) + 512 * blocks_count s
    <= Z.of_nat (length (contents (fin w))) ->
  let payload :=
    take (Z.to_nat s) (drop (position (fin w)) (contents (fin w))) in
  exists w',
    extract_file buffer w = Ret tt w' /\
    disk w' !! name = Some payload /\
    Z.of_nat (length payload) = s /\
    contents (fin w') = contents (fin w) /\
    Z.of_nat (position (fin w'))
      = Z.of_nat (position (fin w)) + 512 * blocks_count s /\
    console w' = console w /\
    forall other, other <> name -> disk w' !! other = disk w !! other.
Proof.
  intros Hname Hcan Hsize Hs Hpresent payload.
  rewrite (extract_file_eq buffer w name s Hname Hcan Hsize).
  set (w1 := set_disk (<[name := []]> (disk w)) w).
  assert (s <= LONG_MAX - 511) as Hsmall by (unfold LONG_MAX, INT_MAX in *; lia).
  destruct (Z.eq_dec s 0) as [->|Hpos].
  - change (blocks_count 0) with 0 in *.
    rewrite extract_loop_done by lia.
    exists w1. subst w1 payload.
    cbn [fin console disk can_create set_disk set_fin contents position].
    split; [reflexivity|]. split; [now rewrite lookup_insert_eq|].
    split; [reflexivity|]. split; [reflexivity|]. split; [lia|].
    split; [reflexivity|].
    intros other Hne. now rewrite lookup_insert_ne.
  - destruct (extent_positive s ltac:(lia)) as (Hb1 & Hb2 & Hb3).
    pose proof (blocks_count_no_overflow s ltac:(lia)) as Hbc.
    assert (blocks_count s <= INT_MAX) as Hmax.
    { rewrite Hbc. unfold INT_MAX in *.
      assert ((s + 511) / 512 < 2 ^ 31)
        by (apply Z.div_lt_upper_bound; lia).
      lia. }
    destruct (extract_loop_blocks (Z.to_nat (blocks_count s - 1))
                (S (bytes_ahead w)) name 0 (blocks_count s) (bytes_left s)
                w1 [])
      as (w' & Hrun & Hfin & Hcon & Hcan' & Hout & Hother);
      subst w1;
      cbn [fin console disk can_create set_disk set_fin contents position]
        in *; try lia.
    + unfold bytes_ahead. lia.
    + now rewrite lookup_insert_eq.
    + exists w'. split; [exact Hrun|].
      assert ((512 * Z.to_nat (blocks_count s - 1) + Z.to_nat (bytes_left s))%nat
              = Z.to_nat s) as Hlen by lia.
      rewrite Hlen in Hout. cbn [app] in Hout.
      split; [exact Hout|].
      split.
      { subst payload. rewrite length_take, length_drop. lia. }
      rewrite Hfin. cbn [contents position].
      split; [reflexivity|]. split; [lia|]. split; [assumption|].
      intros other Hne. rewrite (Hother other Hne).
      now rewrite lookup_insert_ne.
Qed.

Lemma extraction_round_trip_witness :
  let buffer := file_header [97] [48;48;48;48;48;48;48;48;48;48;51;0] in
  let w := mkWorld (mkFILE three_byte_archive 512) [] ∅ (fun _ => true) in
  cstr (Header.at_field buffer Header.name) = Some [97] /\
  oct2dec (Header.at_field buffer Header.size) = Some 3 /\
  exists w',
    extract_file buffer w = Ret tt w' /\
    disk w' !! [97] = Some [1; 2; 3] /\
    Z.of_nat (length [1; 2; 3]) = 3 /\
    contents (fin w') = contents (fin w) /\
    Z.of_nat (position (fin w'))
      = Z.of_nat (position (fin w)) + 512 * blocks_count 3 /\
    console w' = console w /\
    forall other, other <> [97] -> disk w' !! other = disk w !! other.
Proof.
  intros buffer w.
  split; [reflexivity|]. split; [reflexivity|].
  apply (extraction_round_trip buffer w [97] 3).
  - reflexivity.
  - reflexivity.
  - reflexivity.
  - unfold INT_MAX. lia.
  - vm_compute. discriminate.
Defined.

(** C4 (as stated) fails.  The entry has size 3 and its three payload
    bytes are in the stream, but the stream ends behind them, without
    the padding that fills the block: [extract_file] creates the output
    file, cannot read a whole block, and exits with status 2 after
    "Unexpected EOF in archive"; the output file is left empty.  And
    with the whole block in the stream but an output file that cannot
    be created, it exits with status 2 and writes nothing. *)
Lemma payload_without_padding_counterexample :
  let buffer := take 512 unpadded_archive in
  let w := mkWorld (mkFILE unpadded_archive 512) [] ∅ (fun _ => true) in
  let locked :=
    mkWorld (mkFILE three_byte_archive 512) [] ∅ (fun _ => false) in
  (oct2dec (Header.at_field buffer Header.size) = Some 3 /\
   drop (position (fin w)) (contents (fin w)) = [1; 2; 3] /\
   extract_file buffer w
   = Exit 2 (mkWorld (mkFILE unpadded_archive 515)
               [Stderr msg_unexpected_eof; Stderr msg_not_recoverable]
               (<[ [97] := [] ]> ∅) (fun _ => true)) /\
   ~ (exists w', extract_file buffer w = Ret tt w' /\
                 disk w' !! [97] = Some [1; 2; 3])) /\
  (take 3 (drop (position (fin locked)) (contents (fin locked))) = [1; 2; 3] /\
   extract_file (take 512 three_byte_archive) locked
   = Exit 2 (emit (Stderr msg_error_creating_file) locked)).
Proof.
  intros buffer w locked.
  assert (extract_file buffer w
          = Exit 2 (mkWorld (mkFILE unpadded_archive 515)
                      [Stderr msg_unexpected_eof; Stderr msg_not_recoverable]
                      (<[ [97] := [] ]> ∅) (fun _ => true))) as Hrun
    by (vm_compute; reflexivity).
  split; [split; [reflexivity|]; split; [reflexivity|]; split; [exact Hrun|]|].
  - intros (w' & Hret & _). rewrite Hrun in Hret. discriminate.
  - split; vm_compute; reflexivity.
Qed.

(** ** The stream position *)

Lemma fread_block_contents w r w' :
  fread_block w = Ret r w' -> contents (fin w') = contents (fin w).
Proof.
  unfold fread_block.
  destruct (_ <=? _)%nat; intros [= <- <-]; reflexivity.
Qed.

Lemma fseek_cur_contents offset w u w' :
  fseek_cur offset w = Ret u w' -> contents (fin w') = contents (fin w).
Proof.
  unfold fseek_cur.
  destruct (_ && _); intros [= <- <-]; reflexivity.
Qed.

Lemma fwrite_contents fout buffer n w u w' :
  fwrite fout buffer n w = Ret u w' -> contents (fin w') = contents (fin w).
Proof.
  unfold fwrite.
  destruct (_ && _); [|discriminate]. intros [= <- <-]. reflexivity.
Qed.

Lemma extract_loop_contents fuel : forall fout i blocks bytes w u w',
  extract_loop fuel fout i blocks bytes w = Ret u w' ->
  contents (fin w') = contents (fin w).
Proof.
  induction fuel as [|fuel IH]; intros fout i blocks bytes w u w' H;
    [discriminate|].
  cbn [extract_loop] in H.
  destruct (i <? blocks); [|injection H as <- <-; reflexivity].
  apply bind_Ret in H as (r & w1 & Hr & H).
  apply fread_block_contents in Hr.
  destruct r as [buffer|]; [|discriminate].
  apply bind_Ret in H as ([] & w2 & Hw & H).
  apply IH in H. rewrite H, <- Hr.
  destruct (wrap32 (i + 1) =? blocks); now apply fwrite_contents in Hw.
Qed.

Lemma extract_file_contents buffer w u w' :
  extract_file buffer w = Ret u w' -> contents (fin w') = contents (fin w).
Proof.
  unfold extract_file.
  destruct (cstr (Header.at_field buffer Header.name)) as [name|];
    [|discriminate].
  intros H. apply bind_Ret in H as (fout & w1 & Ho & H).
  assert (contents (fin w1) = contents (fin w)) as <-.
  { unfold fopen_w in Ho.
    destruct (can_create w name); injection Ho as <- <-; reflexivity. }
  destruct fout as [fout|]; [|discriminate].
  destruct (oct2dec (Header.at_field buffer Header.size)) as [file_size|];
    [|discriminate].
  apply bind_Ret in H as ([] & w2 & Hl & H).
  injection H as <- <-. now apply extract_loop_contents in Hl.
Qed.

Section walk_position.

Variables (archive_size : Z) (files_args : list (list Z))
          (action : mode) (verbose : bool).

Local Abbreviation handle := (handle_entry files_args action verbose).
Local Abbreviation process :=
  (process_entry archive_size files_args action verbose).
Local Abbreviation body := (loop_body archive_size files_args action verbose).

Lemma handle_entry_contents buffer l w e w' :
  handle buffer l w = Ret e w' -> contents (fin w') = contents (fin w).
Proof.
  intros H.
  apply handle_entry_Ret in H as (fs & name & _ & _ & _ & _ & _ & H).
  assert (forall found,
            contents (fin (announced files_args action verbose name found w))
            = contents (fin w)) as Hann.
  { intros found. unfold announced.
    now destruct (selected files_args found && _). }
  rewrite <- (Hann (fst (mark_file name files_args (files_found l)))).
  destruct (is_extract action && selected _ _).
  - now apply extract_file_contents in H.
  - now apply fseek_cur_contents in H.
Qed.

Lemma loop_body_contents l w r w' :
  body l w = Ret r w' -> contents (fin w') = contents (fin w).
Proof.
  intros H. apply loop_body_Ret in H
    as [[_ H]|[(buffer & H & _)|(buffer & w1 & H1 & _ & H)]].
  - now apply fread_block_contents in H.
  - now apply fread_block_contents in H.
  - apply fread_block_contents in H1. rewrite <- H1.
    apply process_entry_Ret in H as (e & H & _).
    now apply handle_entry_contents in H.
Qed.

(** C8.  If the position reached by the skip or the extraction of an
    entry is greater than [archive_size], the round ends with the
    warning "Unexpected EOF in archive" and exit status 2, in the very
    state the skip or extraction left, so no further block is read.
    Consequently, in a walk that is started at a position inside the
    archive and is given the length of the archive as [archive_size],
    every state in which the next header is expected has its position
    at most the length of the stream. *)
Theorem position_never_exceeds_archive :
  (forall buffer l w e w',
     handle buffer l w = Ret e w' ->
     Z.of_nat (position (fin w')) > archive_size ->
     process buffer l w =
       Exit 2 (emit (Stderr msg_not_recoverable)
                 (emit (Stderr msg_unexpected_eof) w'))) /\
  (forall w0 l w,
     archive_size = Z.of_nat (length (contents (fin w0))) ->
     (position (fin w0) <= length (contents (fin w0)))%nat ->
     expects_header archive_size files_args action verbose w0 l w ->
     contents (fin w) = contents (fin w0) /\
     (position (fin w) <= length (contents (fin w)))%nat).
Proof.
  split.
  - intros buffer l w e w' Hh Hpos. rewrite process_entry_eq, Hh.
    destruct (Z.gtb_spec (Z.of_nat (position (fin w'))) archive_size);
      [reflexivity | lia].
  - intros w0 l w Hsize Hstart Hreach.
    induction Hreach as [|l w l' w' _ [IHc IHp] Hstep];
      [split; [reflexivity | assumption]|].
    pose proof (loop_body_contents _ _ _ _ Hstep) as Hc.
    split; [congruence|]. rewrite Hc.
    apply loop_body_Ret in Hstep
      as [[? _]|[(buffer & Hr & _)|(buffer & w1 & _ & _ & H)]];
      [discriminate| |].
    + apply fread_block_Some in Hr as (_ & Hle & _ & ->). cbn. lia.
    + apply process_entry_Ret in H as (e & _ & Hle & _).
      rewrite IHc. lia.
Qed.

End walk_position.

Lemma position_never_exceeds_archive_witness :
  let buffer := file_header [97] [50; 48; 48; 48; 0] in
  let w0 := start buffer (fun _ => true) in
  let w := mkWorld (mkFILE buffer 512) [] ∅ (fun _ => true) in
  let l := counted (initial_locals []) in
  let w' := mkWorld (mkFILE buffer 1536) [Stdout [97]] ∅ (fun _ => true) in
  handle_entry [] LIST false buffer l w = Ret ([], 2) w' /\
  Z.of_nat (position (fin w')) > 512 /\
  process_entry 512 [] LIST false buffer l w
    = Exit 2 (emit (Stderr msg_not_recoverable)
                (emit (Stderr msg_unexpected_eof) w')) /\
  (position (fin w0) <= length (contents (fin w0)))%nat.
Proof.
  intros buffer w0 w l w'.
  split; [vm_compute; reflexivity|]. split; [vm_compute; reflexivity|].
  split.
  - apply (proj1 (position_never_exceeds_archive 512 [] LIST false)
             buffer l w ([], 2) w');
      vm_compute; reflexivity.
  - apply (proj2 (position_never_exceeds_archive 512 [] LIST false)
             w0 (initial_locals []) w0).
    + vm_compute; reflexivity.
    + vm_compute. lia.
    + apply expects_first.
Defined.

(** A header that announces 1024 bytes of data at the very end of the
    stream: the skip goes past the end and the walk fails. *)
Example truncated_archive_is_fatal :
  let archive := file_header [97] [50; 48; 48; 48; 0] in
  main_walk 10 [] LIST false (start archive (fun _ => true))
  = Exit 2 (mkWorld (mkFILE archive 1536)
              [Stdout [97]; Stderr msg_unexpected_eof;
               Stderr msg_not_recoverable] ∅ (fun _ => true)).
Proof. vm_compute. reflexivity. Qed.

(** ** How the zero-block flags evolve *)

Section zero_blocks.

Variables (archive_size : Z) (files_args : list (list Z))
          (action : mode) (verbose : bool).

Local Abbreviation body := (loop_body archive_size files_args action verbose).

(** A zero block read while [first_empty] is unset sets it and the walk
    goes on; one read while it is set ends the walk. *)
Lemma zero_block_round l w w1 :
  fread_block w = Ret (Some zero_block) w1 ->
  (first_empty l = false ->
   exists l', body l w = Ret (Continue l') w1 /\ first_empty l' = true) /\
  (first_empty l = true ->
   exists l', body l w = Ret (Break l') w1 /\ second_empty l' = true).
Proof.
  intros Hr.
  rewrite (loop_body_zero _ _ _ _ l w zero_block w1 Hr eq_refl).
  split; intros ->; eexists; split; reflexivity.
Qed.

(** Nothing in a round clears [first_empty]: once a zero block has been
    seen, the flag stays set across the entries that follow. *)
Lemma first_empty_is_never_cleared l w r w' :
  body l w = Ret r w' ->
  first_empty l = true -> first_empty (locals_of r) = true.
Proof.
  intros H Hf. apply (loop_body_Ret archive_size) in H
    as [[-> _]|[(buffer & _ & _ & [[_ ->]|[_ ->]])|(buffer & w1 & _ & _ & H)]];
    try assumption; try reflexivity.
  apply process_entry_Ret in H as (e & _ & _ & ->). exact Hf.
Qed.

End zero_blocks.

(** ** Two facts about the model itself *)

(** The loop of [extract_file] always ends: its budget, the bytes ahead
    in the stream, is never used up. *)
Lemma extract_loop_terminates fuel : forall fout i blocks bytes w,
  (bytes_ahead w < fuel)%nat ->
  extract_loop fuel fout i blocks bytes w <> OutOfFuel.
Proof.
  induction fuel as [|fuel IH]; intros fout i blocks bytes w Hfuel; [lia|].
  cbn [extract_loop]. destruct (i <? blocks); [|discriminate].
  unfold bind at 1.
  destruct (fread_block w) as [r w1| | |] eqn:Hr;
    try (unfold fread_block in Hr; destruct (_ <=? _)%nat; discriminate).
  destruct r as [buffer|]; [|discriminate].
  apply fread_block_Some in Hr as (_ & Hle & _ & ->).
  unfold bind.
  set (n := if wrap32 (i + 1) =? blocks then bytes else BLOCK_SIZE).
  replace (if wrap32 (i + 1) =? blocks
           then fwrite fout buffer bytes
           else fwrite fout buffer BLOCK_SIZE)
    with (fwrite fout buffer n)
    by (subst n; now destruct (wrap32 (i + 1) =? blocks)).
  unfold fwrite. destruct (_ && _); [|discriminate].
  apply IH. unfold bytes_ahead in *. cbn. lia.
Qed.

Lemma extract_file_terminates buffer w : extract_file buffer w <> OutOfFuel.
Proof.
  unfold extract_file.
  destruct (cstr (Header.at_field buffer Header.name)) as [name|];
    [|discriminate].
  unfold bind at 1, fopen_w.
  destruct (can_create w name); [|discriminate].
  destruct (oct2dec (Header.at_field buffer Header.size)) as [file_size|];
    [|discriminate].
  unfold bind.
  set (w1 := set_disk _ w).
  pose proof (extract_loop_terminates (S (bytes_ahead w1)) name 0
                (blocks_count file_size) (bytes_left file_size) w1
                ltac:(lia)) as Hloop.
  destruct (extract_loop _ _ _ _ _ w1); try discriminate. contradiction.
Qed.

Lemma cstr_None_inv mem : cstr mem = None -> Forall (fun c => c <> 0) mem.
Proof.
  induction mem as [|c mem IH]; [constructor|].
  cbn [cstr]. destruct (Z.eqb_spec c 0); [discriminate|].
  destruct (cstr mem); [discriminate|]. intros _. constructor; auto.
Qed.

(** A header that passed the magic check has a NUL in its version member,
    so the name read from the start of the block is terminated: the
    [undef] branch for the name in [handle_entry] is never taken. *)
Lemma name_is_terminated buffer :
  length buffer = 512%nat ->
  accepted_tag buffer ->
  cstr (Header.at_field buffer Header.name) <> None.
Proof.
  intros Hlen [_ Hv] Hnone. apply cstr_None_inv in Hnone.
  change (Header.at_field buffer Header.name) with buffer in Hnone.
  unfold Header.bytes, Header.at_field in Hv.
  change (Header.offset Header.version) with 263%nat in Hv.
  change (Header.width Header.version) with 2%nat in Hv.
  assert (drop 263 buffer !! 1%nat = Some 0) as Hz.
  { rewrite <- (lookup_take_lt _ 2) by lia. now rewrite Hv. }
  rewrite lookup_drop in Hz.
  rewrite Forall_lookup in Hnone. now apply Hnone in Hz.
Qed.

(** A size field of three spaces decodes to -1168, the block count is -1,
    and the skip moves the stream back onto the header just read: the
    walk reads the same header in every round and never leaves the
    loop, whatever the budget. *)
Lemma backward_skip_loops_forever fuel : forall lines,
  while_loop 512 [] LIST false fuel (initial_locals [])
    (mkWorld (mkFILE (file_header [97] [32; 32; 32; 0]) 0) lines ∅
       (fun _ => true))
  = OutOfFuel.
Proof.
  induction fuel as [|fuel IH]; intros lines; [reflexivity|].
  rewrite while_loop_S.
  assert (loop_body 512 [] LIST false (initial_locals [])
            (mkWorld (mkFILE (file_header [97] [32; 32; 32; 0]) 0) lines ∅
               (fun _ => true))
          = Ret (Continue (initial_locals []))
              (mkWorld (mkFILE (file_header [97] [32; 32; 32; 0]) 0)
                 (lines ++ [Stdout [97]]) ∅ (fun _ => true))) as ->
    by (vm_compute; reflexivity).
  apply IH.
Qed.


(** * Further properties of the program *)

(** ** A round on an accepted header *)

Lemma empty_block_lookup buffer i c :
  is_empty_block buffer = true -> buffer !! i = Some c -> c = 0.
Proof.
  unfold is_empty_block. revert i.
  induction buffer as [|b buffer IH]; intros i H Hi; [discriminate|].
  cbn in H. apply andb_true_iff in H as [Hb H].
  destruct i as [|i]; cbn in Hi.
  - injection Hi as <-. now apply Z.eqb_eq.
  - eauto.
Qed.

Lemma accepted_tag_not_empty buffer :
  accepted_tag buffer -> is_empty_block buffer = false.
Proof.
  intros [Hm _]. destruct (is_empty_block buffer) eqn:He; [|reflexivity].
  unfold Header.bytes, Header.at_field in Hm.
  change (Header.offset Header.magic) with 257%nat in Hm.
  change (Header.width Header.magic) with 6%nat in Hm.
  assert (take 6 (drop 257 buffer) !! 0%nat = Some 117) as Hz
    by now rewrite Hm.
  rewrite lookup_take_lt, lookup_drop in Hz by lia.
  apply (empty_block_lookup _ _ _ He) in Hz. discriminate.
Qed.

Section accepted_header.

Variables (archive_size : Z) (files_args : list (list Z))
          (action : mode) (verbose : bool).

Local Abbreviation handle := (handle_entry files_args action verbose).
Local Abbreviation process :=
  (process_entry archive_size files_args action verbose).
Local Abbreviation body := (loop_body archive_size files_args action verbose).
Local Abbreviation loop := (while_loop archive_size files_args action verbose).

(** [handle_entry] on an accepted header: the checks pass, the name is
    looked up and printed if due, and what is left is the skip or the
    extraction. *)
Lemma handle_entry_accepted buffer name file_size l w :
  header_ok buffer name file_size ->
  handle buffer l w =
    match (if is_extract action &&
              selected files_args
                (fst (mark_file name files_args (files_found l)))
           then extract_file buffer
           else fseek_cur (wrap64 (BLOCK_SIZE * blocks_count file_size)))
            (announced files_args action verbose name
               (fst (mark_file name files_args (files_found l))) w) with
    | Ret _ w' =>
        Ret (snd (mark_file name files_args (files_found l)),
             blocks_count file_size) w'
    | Exit status w' => Exit status w'
    | Undef => Undef
    | OutOfFuel => OutOfFuel
    end.
Proof.
  intros (Hlen & Htag & Htype & Hname & Hsize).
  unfold handle_entry, announced, selected. rewrite Hsize.
  unfold bind at 1.
  rewrite (proj1 (is_tar_archive_spec buffer w ltac:(lia)) Htag).
  unfold bind at 1, is_regular_file. rewrite Htype. unfold ret at 1.
  rewrite Hname.
  destruct (mark_file name files_args (files_found l)) as [found found'].
  cbn [fst snd]. unfold bind at 1.
  destruct (((files_count files_args =? 0) || found) &&
            (is_list action || is_extract action && verbose));
    unfold printf_line, ret, bind;
    now destruct ((if is_extract action &&
                      ((files_count files_args =? 0) || found)
                   then extract_file buffer
                   else fseek_cur
                          (wrap64 (BLOCK_SIZE * blocks_count file_size))) _)
      as [[] ?| | |].
Qed.

End accepted_header.

(** ** Skipping and extracting the data of an entry *)

Lemma world_eq w f c d k :
  fin w = f -> console w = c -> disk w = d -> can_create w = k ->
  w = mkWorld f c d k.
Proof. destruct w. cbn. now intros -> -> -> ->. Qed.

Lemma blocks_count_range file_size :
  0 <= file_size <= LONG_MAX - 511 ->
  0 <= blocks_count file_size /\ 512 * blocks_count file_size <= LONG_MAX.
Proof.
  intros H. rewrite (blocks_count_no_overflow file_size H).
  pose proof (Z.div_mod (file_size + 511) 512 ltac:(lia)).
  pose proof (Z.mod_pos_bound (file_size + 511) 512 ltac:(lia)).
  unfold LONG_MAX in *. lia.
Qed.

(** The skip over data that is present moves the stream just behind it. *)
Lemma fseek_cur_data file_size (data : list Z) w :
  0 <= file_size <= LONG_MAX - 511 ->
  Z.of_nat (length data) = 512 * blocks_count file_size ->
  Z.of_nat (position (fin w) + length data) <= LONG_MAX ->
  fseek_cur (wrap64 (BLOCK_SIZE * blocks_count file_size)) w
  = Ret tt (set_fin (mkFILE (contents (fin w))
                       (position (fin w) + length data)) w).
Proof.
  intros Hs Hdata Hfit. destruct (blocks_count_range file_size Hs) as [H0 H1].
  unfold fseek_cur, BLOCK_SIZE.
  rewrite wrap64_small by (unfold LONG_MAX in *; lia).
  destruct (Z.leb_spec 0
              (Z.of_nat (position (fin w)) + 512 * blocks_count file_size));
    [|lia].
  destruct (Z.leb_spec
              (Z.of_nat (position (fin w)) + 512 * blocks_count file_size)
              LONG_MAX); [|lia].
  cbn [andb]. do 3 f_equal. lia.
Qed.

(** The extraction of data that is present, with the state it leaves. *)
Lemma extract_file_present buffer name file_size (pre data post : list Z) w :
  cstr (Header.at_field buffer Header.name) = Some name ->
  oct2dec (Header.at_field buffer Header.size) = Some file_size ->
  can_create w name = true ->
  0 <= file_size <= 512 * INT_MAX ->
  Z.of_nat (length data) = 512 * blocks_count file_size ->
  contents (fin w) = pre ++ data ++ post ->
  position (fin w) = length pre ->
  extract_file buffer w
  = Ret tt (mkWorld (mkFILE (contents (fin w))
                       (position (fin w) + length data))
              (console w)
              (<[name := take (Z.to_nat file_size) data]> (disk w))
              (can_create w)).
Proof.
  intros Hname Hsize Hcan Hs Hdata Hcont Hpos.
  rewrite (extract_file_eq buffer w name file_size Hname Hcan Hsize).
  assert (file_size <= LONG_MAX - 511) as Hsmall
    by (unfold LONG_MAX, INT_MAX in *; lia).
  assert (drop (position (fin w)) (contents (fin w)) = data ++ post) as Hdrop.
  { rewrite Hcont, Hpos. apply drop_app_length. }
  destruct (Z.eq_dec file_size 0) as [->|Hne].
  - change (blocks_count 0) with 0 in *.
    rewrite extract_loop_done by lia. f_equal.
    assert (length data = 0%nat) as Hd by lia.
    apply world_eq; cbn [fin console disk can_create set_disk];
      try reflexivity.
    rewrite Hd, Nat.add_0_r. now destruct (fin w).
  - destruct (extent_positive file_size ltac:(lia)) as (Hb1 & Hb2 & Hb3).
    pose proof (blocks_count_no_overflow file_size ltac:(lia)) as Hbc.
    assert (blocks_count file_size <= INT_MAX) as Hmax.
    { rewrite Hbc. unfold INT_MAX in *.
      assert ((file_size + 511) / 512 < 2 ^ 31)
        by (apply Z.div_lt_upper_bound; lia).
      lia. }
    assert (length (contents (fin w)) = length pre + length data + length post)%nat
      as Hlen by (rewrite Hcont, !length_app; lia).
    destruct (extract_loop_blocks (Z.to_nat (blocks_count file_size - 1))
                (S (bytes_ahead w)) name 0 (blocks_count file_size)
                (bytes_left file_size)
                (set_disk (<[name := []]> (disk w)) w) [])
      as (w' & Hrun & Hfin & Hcon & Hcan' & Hout & Hother);
      cbn [fin console disk can_create set_disk set_fin contents position]
        in *; try lia.
    + unfold bytes_ahead. lia.
    + now rewrite lookup_insert_eq.
    + rewrite Hrun. f_equal.
      apply world_eq; try assumption.
      * rewrite Hfin. f_equal. lia.
      * apply map_eq. intros other.
        destruct (decide (other = name)) as [->|Hother'].
        -- rewrite Hout, lookup_insert_eq, Hdrop. cbn [app]. f_equal.
           replace (512 * Z.to_nat (blocks_count file_size - 1)
                    + Z.to_nat (bytes_left file_size))%nat
             with (Z.to_nat file_size) by lia.
           apply take_app_le. lia.
        -- rewrite (Hother other Hother').
           now rewrite !lookup_insert_ne by congruence.
Qed.

(** ** The walk over a run of entries *)

(** An entry is only selected when no name is requested or its own name
    is. *)
Lemma selected_may_select files_args name files_found :
  selected files_args (fst (mark_file name files_args files_found)) = true ->
  files_args = [] \/ name ∈ files_args.
Proof.
  unfold selected, files_count. intros H.
  apply orb_true_iff in H as [H|H].
  - left. apply Z.eqb_eq in H. destruct files_args; [reflexivity|].
    cbn [length] in H. lia.
  - right. unfold mark_file in H.
    pose proof (mark_file_loop_spec name files_args 0 files_found) as Hspec.
    destruct (mark_file_loop 0 name files_args files_found) as [[|] found'];
      [|discriminate].
    destruct Hspec as (j & Hj & _). now apply list_elem_of_lookup_2 with j.
Qed.

Section entries.

Variables (archive_size : Z) (files_args : list (list Z))
          (action : mode) (verbose : bool).

Local Abbreviation body := (loop_body archive_size files_args action verbose).
Local Abbreviation loop := (while_loop archive_size files_args action verbose).
Local Abbreviation walk := (walk_entries files_args action verbose).

(** The round that meets entry [e] at the current position. *)
Lemma loop_body_entry e (pre post : list Z) l w :
  entry_ok e ->
  contents (fin w) = pre ++ entry_bytes e ++ post ->
  position (fin w) = length pre ->
  Z.of_nat (length pre + length (entry_bytes e)) <= archive_size ->
  Z.of_nat (length (contents (fin w))) <= LONG_MAX ->
  (is_extract action = true ->
   files_args = [] \/ e_name e ∈ files_args ->
   can_create w (e_name e) = true) ->
  body l w = Ret (Continue (locals_after files_args e l))
               (world_after files_args action verbose e l w).
Proof.
  intros (Hhdr & Hs & Hdata) Hcont Hpos Hsize Hfit Hcan.
  pose proof Hhdr as (Hlen & Htag & _ & Hname & Hdec).
  unfold entry_bytes in *.
  assert (length (contents (fin w))
          = length pre + 512 + length (e_data e) + length post)%nat as Hl
    by (rewrite Hcont, !length_app; lia).
  assert (fread_block w
          = Ret (Some (e_header e))
              (set_fin (mkFILE (contents (fin w)) (position (fin w) + 512)) w))
    as Hread.
  { rewrite fread_block_ok by lia. do 2 f_equal.
    rewrite Hcont, Hpos, drop_app_length, <- app_assoc.
    now apply take_app_length'. }
  rewrite (loop_body_nonzero _ _ _ _ l w _ _ Hread
             (accepted_tag_not_empty _ Htag)).
  rewrite process_entry_eq.
  rewrite (handle_entry_accepted files_args action verbose _ _ _ _ _ Hhdr).
  unfold world_after, locals_after, announced, after_entry.
  cbn [files_found counted first_empty second_empty blocks_read].
  set (found := mark_file (e_name e) files_args (files_found l)).
  set (chosen := selected files_args (fst found)).
  set (w1 := set_fin _ w).
  assert (forall w2 : world,
            fin w2 = fin w1 -> can_create w2 = can_create w ->
            (if is_extract action && chosen
             then extract_file (e_header e)
             else fseek_cur (wrap64 (BLOCK_SIZE * blocks_count (e_size e)))) w2
            = Ret tt (mkWorld
                        (mkFILE (contents (fin w))
                           (position (fin w) + 512 + length (e_data e)))
                        (console w2)
                        (if is_extract action && chosen
                         then <[e_name e := payload e]> (disk w2)
                         else disk w2)
                        (can_create w))) as Hstep.
  { intros w2 Hfin Hcc. subst w1. cbn [fin set_fin] in Hfin.
    destruct (is_extract action && chosen) eqn:Hx.
    - apply andb_true_iff in Hx as [Hx Hchosen].
      rewrite (extract_file_present (e_header e) (e_name e) (e_size e)
                 (pre ++ e_header e) (e_data e) post w2); try assumption.
      + rewrite Hfin, Hcc. reflexivity.
      + rewrite Hcc. apply Hcan; [exact Hx|].
        subst chosen found.
        now apply selected_may_select with (files_found l).
      + rewrite Hfin. cbn [contents]. now rewrite Hcont, <- !app_assoc.
      + rewrite Hfin, length_app. cbn [position]. lia.
    - rewrite (fseek_cur_data (e_size e) (e_data e) w2);
        rewrite ?Hfin; cbn [contents position];
        try (unfold LONG_MAX, INT_MAX in *; lia).
      f_equal. apply world_eq; cbn [fin console disk can_create set_fin];
        try reflexivity; assumption. }
  destruct (chosen && (is_list action || is_extract action && verbose)).
  - rewrite Hstep by reflexivity.
    cbn [fin contents position console disk emit fst snd].
    destruct (Z.gtb_spec
                (Z.of_nat (position (fin w) + 512 + length (e_data e)))
                archive_size) as [Hgt|_];
      [rewrite length_app in Hsize; lia|].
    reflexivity.
  - rewrite Hstep by reflexivity.
    cbn [fin contents position console disk set_fin fst snd].
    destruct (Z.gtb_spec
                (Z.of_nat (position (fin w) + 512 + length (e_data e)))
                archive_size) as [Hgt|_];
      [rewrite length_app in Hsize; lia|].
    subst w1. cbn [console set_fin disk]. now rewrite app_nil_r.
Qed.

End entries.

Section walk_engine.

Variables (archive_size : Z) (files_args : list (list Z))
          (action : mode) (verbose : bool).

Local Abbreviation loop := (while_loop archive_size files_args action verbose).
Local Abbreviation walk := (walk_entries files_args action verbose).

Lemma archive_bytes_cons e es :
  archive_bytes (e :: es) = entry_bytes e ++ archive_bytes es.
Proof. reflexivity. Qed.

Lemma length_entry_bytes e :
  entry_ok e -> length (entry_bytes e) = (512 + length (e_data e))%nat.
Proof.
  intros ((Hlen & _) & _). unfold entry_bytes. rewrite length_app. lia.
Qed.

(** What the rounds for a run of entries leave of the stream and of the
    zero-block flags. *)
Lemma walk_entries_stream es : forall l w,
  Forall entry_ok es ->
  fin (snd (walk es l w))
    = mkFILE (contents (fin w))
        (position (fin w) + length (archive_bytes es)) /\
  can_create (snd (walk es l w)) = can_create w /\
  first_empty (fst (walk es l w)) = first_empty l /\
  second_empty (fst (walk es l w)) = second_empty l.
Proof.
  induction es as [|e es IH]; intros l w Hok.
  - cbn. rewrite Nat.add_0_r. now destruct (fin w).
  - inversion Hok as [|? ? He Hes]; subst.
    cbn [walk_entries].
    destruct (IH (locals_after files_args e l)
                (world_after files_args action verbose e l w) Hes)
      as (Hf & Hc & H1 & H2).
    rewrite Hf, Hc, H1, H2, archive_bytes_cons, length_app,
      (length_entry_bytes e He).
    unfold world_after, after_entry, locals_after.
    cbn [fin contents position can_create first_empty second_empty].
    repeat split. f_equal. lia.
Qed.

(** The loop over a run of entries that lie at the current position:
    one round each, as [walk_entries] describes them. *)
Lemma while_loop_entries_selected es : forall (pre post : list Z) l w fuel,
  Forall entry_ok es ->
  contents (fin w) = pre ++ archive_bytes es ++ post ->
  position (fin w) = length pre ->
  Z.of_nat (length pre + length (archive_bytes es)) <= archive_size ->
  Z.of_nat (length (contents (fin w))) <= LONG_MAX ->
  (is_extract action = true ->
   Forall (fun e => files_args = [] \/ e_name e ∈ files_args ->
                    can_create w (e_name e) = true) es) ->
  loop (length es + fuel) l w
  = loop fuel (fst (walk es l w)) (snd (walk es l w)).
Proof.
  induction es as [|e es IH]; intros pre post l w fuel Hok Hcont Hpos Hsize
    Hfit Hcan; [reflexivity|].
  inversion Hok as [|? ? He Hes]; subst.
  rewrite archive_bytes_cons in *. rewrite length_app in Hsize.
  cbn [length Nat.add walk_entries]. rewrite while_loop_S.
  rewrite (loop_body_entry archive_size files_args action verbose e pre
             (archive_bytes es ++ post) l w He);
    try assumption; try lia.
  - apply (IH (pre ++ entry_bytes e) post); try assumption.
    + unfold world_after, after_entry. cbn [fin contents].
      now rewrite Hcont, <- !app_assoc.
    + unfold world_after, after_entry. cbn [fin position].
      rewrite Hpos, length_app, (length_entry_bytes e He). lia.
    + rewrite length_app. lia.
    + intros Hx. specialize (Hcan Hx). now inversion Hcan.
  - now rewrite Hcont, <- app_assoc.
  - intros Hx. specialize (Hcan Hx). now inversion Hcan.
Qed.

Lemma while_loop_entries es (pre post : list Z) l w fuel :
  Forall entry_ok es ->
  contents (fin w) = pre ++ archive_bytes es ++ post ->
  position (fin w) = length pre ->
  Z.of_nat (length pre + length (archive_bytes es)) <= archive_size ->
  Z.of_nat (length (contents (fin w))) <= LONG_MAX ->
  (is_extract action = true ->
   Forall (fun e => can_create w (e_name e) = true) es) ->
  loop (length es + fuel) l w
  = loop fuel (fst (walk es l w)) (snd (walk es l w)).
Proof.
  intros Hok Hcont Hpos Hsize Hfit Hcan.
  apply (while_loop_entries_selected es pre post); try assumption.
  intros Hx. eapply Forall_impl; [exact (Hcan Hx)|]. auto.
Qed.

(** *** The ends of the walk *)

(** Fewer than 512 bytes are left: the loop condition fails and the
    loop is left as it stands. *)
Lemma while_loop_end_of_input fuel l w :
  (length (contents (fin w)) < position (fin w) + 512)%nat ->
  (position (fin w) <= length (contents (fin w)))%nat ->
  loop (S fuel) l w
  = Ret l (set_fin (mkFILE (contents (fin w))
                      (length (contents (fin w)))) w).
Proof.
  intros Hshort Hin. rewrite while_loop_S. unfold loop_body, bind, fread_block.
  destruct (Nat.leb_spec (position (fin w) + 512)
              (length (contents (fin w)))); [lia|].
  cbn. do 3 f_equal. lia.
Qed.

Lemma fread_zero_block (pre post : list Z) w :
  contents (fin w) = pre ++ zero_block ++ post ->
  position (fin w) = length pre ->
  fread_block w
  = Ret (Some zero_block)
      (set_fin (mkFILE (contents (fin w)) (position (fin w) + 512)) w).
Proof.
  intros Hcont Hpos.
  assert (length zero_block = 512%nat) as Hz by apply length_replicate.
  rewrite fread_block_ok by (rewrite Hcont, Hpos, !length_app; lia).
  do 2 f_equal. rewrite Hcont, Hpos, drop_app_length.
  now apply take_app_length'.
Qed.

(** Two zero blocks in a row while no zero block has been seen. *)
Lemma while_loop_end_marker fuel (pre rest : list Z) l w :
  contents (fin w) = pre ++ zero_block ++ zero_block ++ rest ->
  position (fin w) = length pre ->
  first_empty l = false ->
  loop (S (S fuel)) l w
  = Ret (mkLocals (files_found l) true true
           (wrap32 (wrap32 (blocks_read l + 1) + 1)))
      (set_fin (mkFILE (contents (fin w)) (position (fin w) + 1024)) w).
Proof.
  intros Hcont Hpos Hfirst.
  assert (length zero_block = 512%nat) as Hz by apply length_replicate.
  rewrite while_loop_S.
  rewrite (loop_body_zero _ _ _ _ l w zero_block _
             (fread_zero_block pre _ w Hcont Hpos) eq_refl), Hfirst.
  set (w1 := set_fin _ w).
  assert (contents (fin w1) = (pre ++ zero_block) ++ zero_block ++ rest)
    as Hcont1 by (subst w1; cbn [fin set_fin contents];
                  now rewrite Hcont, <- app_assoc).
  assert (position (fin w1) = length (pre ++ zero_block)) as Hpos1
    by (subst w1; cbn [fin set_fin position]; rewrite Hpos, length_app; lia).
  rewrite while_loop_S.
  rewrite (loop_body_zero _ _ _ _ _ w1 zero_block _
             (fread_zero_block (pre ++ zero_block) rest w1 Hcont1 Hpos1)
             eq_refl).
  subst w1.
  cbn [first_empty files_found blocks_read second_empty fin set_fin contents
       position console disk can_create].
  f_equal. unfold set_fin. cbn [console disk can_create]. do 2 f_equal. lia.
Qed.

(** One zero block and then fewer than 512 bytes. *)
Lemma while_loop_lone_zero fuel (pre rest : list Z) l w :
  contents (fin w) = pre ++ zero_block ++ rest ->
  position (fin w) = length pre ->
  (length rest < 512)%nat ->
  first_empty l = false ->
  loop (S (S fuel)) l w
  = Ret (mkLocals (files_found l) true (second_empty l)
           (wrap32 (blocks_read l + 1)))
      (set_fin (mkFILE (contents (fin w)) (length (contents (fin w)))) w).
Proof.
  intros Hcont Hpos Hrest Hfirst.
  assert (length zero_block = 512%nat) as Hz by apply length_replicate.
  rewrite while_loop_S.
  rewrite (loop_body_zero _ _ _ _ l w zero_block _
             (fread_zero_block pre _ w Hcont Hpos) eq_refl), Hfirst.
  rewrite while_loop_end_of_input;
    cbn [fin set_fin contents position];
    try (rewrite Hcont, Hpos, !length_app; lia).
  reflexivity.
Qed.

End walk_engine.


(** ** The walk when no name is requested *)

Section unfiltered.

Variables (action : mode) (verbose : bool).

Lemma walk_entries_unfiltered es : forall l w,
  Forall entry_ok es ->
  files_found (fst (walk_entries [] action verbose es l w)) = files_found l /\
  snd (walk_entries [] action verbose es l w)
  = mkWorld
      (mkFILE (contents (fin w))
         (position (fin w) + length (archive_bytes es)))
      (console w ++ printed_names action verbose es)
      (written action es (disk w))
      (can_create w).
Proof.
  induction es as [|e es IH]; intros l w Hok.
  - cbn [walk_entries fst snd archive_bytes map concat length].
    split; [reflexivity|]. apply world_eq; try reflexivity.
    + rewrite Nat.add_0_r. now destruct (fin w).
    + unfold printed_names.
      destruct (is_list action || is_extract action && verbose);
        now rewrite app_nil_r.
    + unfold written, extracted. now destruct (is_extract action).
  - inversion Hok as [|? ? He Hes]; subst. cbn [walk_entries].
    destruct (IH (locals_after [] e l) (world_after [] action verbose e l w)
                Hes) as [Hf ->].
    split; [exact Hf|].
    unfold world_after, after_entry, selected, mark_file.
    cbn [mark_file_loop fst snd files_count length Z.of_nat Z.eqb orb andb
         fin contents position console disk can_create].
    rewrite archive_bytes_cons, length_app, (length_entry_bytes e He).
    f_equal.
    + f_equal. lia.
    + unfold printed_names.
      destruct (is_list action || is_extract action && verbose);
        cbn [map]; now rewrite <- app_assoc.
    + unfold written, extracted.
      destruct (is_extract action); cbn [andb fold_left]; reflexivity.
Qed.

End unfiltered.

(** [blocks_read] counts the blocks of the entries as long as the count
    fits an [int]. *)
Lemma walk_entries_blocks_read files_args action verbose es : forall l w,
  Forall entry_ok es ->
  0 <= blocks_read l ->
  512 * blocks_read l + Z.of_nat (length (archive_bytes es))
    <= 512 * INT_MAX ->
  512 * blocks_read (fst (walk_entries files_args action verbose es l w))
  = 512 * blocks_read l + Z.of_nat (length (archive_bytes es)).
Proof.
  induction es as [|e es IH]; intros l w Hok H0 Hfit.
  - cbn. lia.
  - inversion Hok as [|? ? He Hes]; subst. cbn [walk_entries].
    rewrite archive_bytes_cons, length_app, (length_entry_bytes e He) in *.
    destruct He as (_ & Hs & Hdata).
    destruct (blocks_count_range (e_size e)
                ltac:(unfold LONG_MAX, INT_MAX in *; lia)) as [Hb _].
    assert (blocks_read (locals_after files_args e l)
            = blocks_read l + 1 + blocks_count (e_size e)) as Hnew.
    { unfold locals_after, blocks_read_after. cbn [blocks_read].
      unfold INT_MAX in *.
      rewrite (wrap32_small (blocks_read l + 1)) by (unfold INT_MAX; lia).
      rewrite wrap64_small by (unfold LONG_MAX; lia).
      apply wrap32_small. unfold INT_MAX. lia. }
    rewrite IH; try assumption; rewrite Hnew; lia.
Qed.


Lemma main_walk_start fuel files_args action verbose archive creatable :
  main_walk fuel files_args action verbose (start archive creatable)
  = match while_loop (Z.of_nat (length archive)) files_args action verbose
            fuel (initial_locals files_args) (start archive creatable) with
    | Ret l w =>
        match after_loop files_args l w with
        | Ret _ w' => Ret 0 w'
        | Exit status w' => Exit status w'
        | Undef => Undef
        | OutOfFuel => OutOfFuel
        end
    | Exit status w => Exit status w
    | Undef => Undef
    | OutOfFuel => OutOfFuel
    end.
Proof.
  unfold main_walk, read_archive, bind, get_archive_size, start, set_fin, ret.
  cbn [fin contents console disk can_create].
  destruct (while_loop _ _ _ _ _ _ _) as [l w| | |]; reflexivity.
Qed.

Lemma entry_a_ok : entry_ok entry_a.
Proof.
  repeat split; try (vm_compute; congruence).
Qed.

Lemma entry_b_ok : entry_ok entry_b.
Proof.
  repeat split; try (vm_compute; congruence).
Qed.

Lemma extracted_other es : forall d name,
  name ∉ map e_name es -> extracted es d !! name = d !! name.
Proof.
  induction es as [|e es IH]; intros d name Hn; [reflexivity|].
  cbn [map] in Hn. apply not_elem_of_cons in Hn as [Hne Hn].
  unfold extracted in *. cbn [fold_left]. rewrite IH by assumption.
  now rewrite lookup_insert_ne.
Qed.

Lemma extracted_lookup es : forall d e,
  NoDup (map e_name es) -> e ∈ es ->
  extracted es d !! e_name e = Some (payload e).
Proof.
  induction es as [|e0 es IH]; intros d e Hnd He; [inversion He|].
  cbn [map] in Hnd. apply NoDup_cons in Hnd as [Hn0 Hnd].
  unfold extracted in *. cbn [fold_left].
  apply elem_of_cons in He as [->|He].
  - fold (extracted es (<[e_name e0 := payload e0]> d)).
    rewrite extracted_other by assumption. apply lookup_insert_eq.
  - now apply IH.
Qed.

Lemma after_loop_unfiltered l w :
  after_loop [] l w
  = Ret tt (if first_empty l && negb (second_empty l)
            then emit (Stderr (msg_lone_zero_block (blocks_read l))) w
            else w).
Proof.
  unfold after_loop, report_missing_files, bind.
  now destruct (first_empty l && negb (second_empty l)).
Qed.

(** X1.  Listing without requested names, on an archive made of
    well-formed entries followed by two zero blocks and anything
    whatsoever: every entry's name is printed once, in archive order,
    nothing else is printed, the exit status is 0, and the stream is left
    right behind the second zero block, so what follows the marker is
    never read. *)
Theorem listing_prints_every_name (es : list entry) (rest : list Z)
    (creatable : list Z -> bool) (verbose : bool) (fuel : nat) :
  Forall entry_ok es ->
  Z.of_nat (length (archive_bytes es ++ zero_block ++ zero_block ++ rest))
    <= LONG_MAX ->
  (length es + 2 <= fuel)%nat ->
  main_walk fuel [] LIST verbose
    (start (archive_bytes es ++ zero_block ++ zero_block ++ rest) creatable)
  = Ret 0
      (mkWorld
         (mkFILE (archive_bytes es ++ zero_block ++ zero_block ++ rest)
            (length (archive_bytes es) + 1024))
         (map (fun e => Stdout (e_name e)) es) ∅ creatable).
Proof.
  intros Hok Hfit Hfuel.
  set (archive := archive_bytes es ++ zero_block ++ zero_block ++ rest) in *.
  rewrite main_walk_start.
  replace fuel with (length es + S (S (fuel - length es - 2)))%nat by lia.
  rewrite (while_loop_entries _ [] LIST verbose es [] 
             (zero_block ++ zero_block ++ rest) _ _ _ Hok);
    try reflexivity; try assumption; try discriminate;
    [|subst archive; rewrite !length_app; cbn [length]; lia].
  destruct (walk_entries_unfiltered LIST verbose es (initial_locals [])
              (start archive creatable) Hok) as [Hf Hw].
  destruct (walk_entries_stream [] LIST verbose es (initial_locals [])
              (start archive creatable) Hok) as (_ & _ & H1 & H2).
  rewrite Hw.
  rewrite (while_loop_end_marker _ [] LIST verbose _ (archive_bytes es) rest)
    by (reflexivity || assumption).
  rewrite after_loop_unfiltered. reflexivity.
Qed.

Lemma listing_prints_every_name_witness :
  Forall entry_ok [entry_a; entry_b] /\
  main_walk 4 [] LIST false
    (start (archive_bytes [entry_a; entry_b] ++ zero_block ++ zero_block
            ++ [1; 2; 3]) (fun _ => true))
  = Ret 0
      (mkWorld
         (mkFILE (archive_bytes [entry_a; entry_b] ++ zero_block
                  ++ zero_block ++ [1; 2; 3])
            (length (archive_bytes [entry_a; entry_b]) + 1024))
         [Stdout [97]; Stdout [98]] ∅ (fun _ => true)).
Proof.
  assert (Forall entry_ok [entry_a; entry_b]) as Hok
    by (constructor; [apply entry_a_ok|];
        constructor; [apply entry_b_ok | constructor]).
  split; [exact Hok|].
  apply (listing_prints_every_name [entry_a; entry_b] [1; 2; 3]
           (fun _ => true) false 4 Hok).
  - vm_compute. discriminate.
  - cbn [length]. lia.
Defined.

Lemma sample_entries_ok : Forall entry_ok [entry_a; entry_b].
Proof.
  constructor; [apply entry_a_ok|].
  constructor; [apply entry_b_ok | constructor].
Qed.

(** X2.  An archive of well-formed entries that simply ends, with no
    zero block and with fewer than 512 stray bytes behind the last
    entry, is walked to the end like a complete one: all names are
    handled, no warning is printed, the exit status is 0.  The missing
    end-of-archive marker and the stray bytes go unnoticed. *)
Theorem missing_end_marker_is_accepted (action : mode) (verbose : bool)
    (es : list entry) (tail : list Z) (creatable : list Z -> bool)
    (fuel : nat) :
  Forall entry_ok es ->
  (length tail < 512)%nat ->
  Z.of_nat (length (archive_bytes es ++ tail)) <= LONG_MAX ->
  (is_extract action = true ->
   Forall (fun e => creatable (e_name e) = true) es) ->
  (length es + 1 <= fuel)%nat ->
  main_walk fuel [] action verbose (start (archive_bytes es ++ tail) creatable)
  = Ret 0
      (mkWorld
         (mkFILE (archive_bytes es ++ tail)
            (length (archive_bytes es ++ tail)))
         (printed_names action verbose es) (written action es ∅) creatable).
Proof.
  intros Hok Htail Hfit Hcan Hfuel.
  set (archive := archive_bytes es ++ tail) in *.
  rewrite main_walk_start.
  replace fuel with (length es + S (fuel - length es - 1))%nat by lia.
  rewrite (while_loop_entries _ [] action verbose es [] tail _ _ _ Hok);
    try reflexivity; try assumption;
    [|subst archive; rewrite !length_app; cbn [length]; lia].
  destruct (walk_entries_unfiltered action verbose es (initial_locals [])
              (start archive creatable) Hok) as [Hf Hw].
  destruct (walk_entries_stream [] action verbose es (initial_locals [])
              (start archive creatable) Hok) as (_ & _ & H1 & H2).
  rewrite Hw.
  rewrite while_loop_end_of_input
    by (cbn [fin contents position start]; subst archive;
        rewrite !length_app; lia).
  rewrite after_loop_unfiltered, H1, H2. reflexivity.
Qed.

Lemma missing_end_marker_is_accepted_witness :
  Forall entry_ok [entry_a; entry_b] /\
  (length [9; 9] < 512)%nat /\
  main_walk 3 [] EXTRACT true
    (start (archive_bytes [entry_a; entry_b] ++ [9; 9]) (fun _ => true))
  = Ret 0
      (mkWorld
         (mkFILE (archive_bytes [entry_a; entry_b] ++ [9; 9])
            (length (archive_bytes [entry_a; entry_b] ++ [9; 9])))
         (printed_names EXTRACT true [entry_a; entry_b])
         (written EXTRACT [entry_a; entry_b] ∅) (fun _ => true)).
Proof.
  split; [exact sample_entries_ok|]. split; [cbn [length]; lia|].
  apply (missing_end_marker_is_accepted EXTRACT true [entry_a; entry_b]
           [9; 9] (fun _ => true) 3 sample_entries_ok).
  - cbn [length]. lia.
  - vm_compute. discriminate.
  - intros _. repeat constructor.
  - cbn [length]. lia.
Defined.

(** X3.  When the entries are followed by a single zero block and then
    fewer than 512 bytes, the walk still ends with exit status 0, but
    after the names it prints "A lone zero block at N", where N is the
    number of blocks read so far, the zero block included (for archives
    whose block count fits an [int]). *)
Theorem lone_zero_block_is_reported (action : mode) (verbose : bool)
    (es : list entry) (tail : list Z) (creatable : list Z -> bool)
    (fuel : nat) :
  Forall entry_ok es ->
  (length tail < 512)%nat ->
  Z.of_nat (length (archive_bytes es ++ zero_block ++ tail))
    <= 512 * INT_MAX ->
  (is_extract action = true ->
   Forall (fun e => creatable (e_name e) = true) es) ->
  (length es + 2 <= fuel)%nat ->
  main_walk fuel [] action verbose
    (start (archive_bytes es ++ zero_block ++ tail) creatable)
  = Ret 0
      (mkWorld
         (mkFILE (archive_bytes es ++ zero_block ++ tail)
            (length (archive_bytes es ++ zero_block ++ tail)))
         (printed_names action verbose es
          ++ [Stderr (msg_lone_zero_block
                        (Z.of_nat (length (archive_bytes es)) / 512 + 1))])
         (written action es ∅) creatable).
Proof.
  intros Hok Htail Hfit Hcan Hfuel.
  set (archive := archive_bytes es ++ zero_block ++ tail) in *.
  assert (length zero_block = 512%nat) as Hz by apply length_replicate.
  assert (Z.of_nat (length archive)
          = Z.of_nat (length (archive_bytes es)) + 512
            + Z.of_nat (length tail)) as Hlen
    by (subst archive; rewrite !length_app; lia).
  rewrite main_walk_start.
  replace fuel with (length es + S (S (fuel - length es - 2)))%nat by lia.
  rewrite (while_loop_entries _ [] action verbose es [] (zero_block ++ tail)
             _ _ _ Hok);
    try reflexivity; try assumption;
    [| cbn [length]; lia
     | cbn [start fin contents]; unfold LONG_MAX, INT_MAX in *; lia].
  destruct (walk_entries_unfiltered action verbose es (initial_locals [])
              (start archive creatable) Hok) as [Hf Hw].
  destruct (walk_entries_stream [] action verbose es (initial_locals [])
              (start archive creatable) Hok) as (_ & _ & H1 & H2).
  pose proof (walk_entries_blocks_read [] action verbose es
                (initial_locals []) (start archive creatable) Hok
                ltac:(cbn; lia) ltac:(cbn [initial_locals blocks_read]; lia))
    as Hcount.
  cbn [initial_locals blocks_read] in Hcount.
  rewrite Hw.
  rewrite (while_loop_lone_zero _ [] action verbose _ (archive_bytes es) tail)
    by (reflexivity || assumption).
  rewrite after_loop_unfiltered.
  cbn [first_empty second_empty blocks_read andb negb].
  rewrite H2. cbn [initial_locals second_empty negb].
  set (n := blocks_read _) in *.
  assert (n = Z.of_nat (length (archive_bytes es)) / 512) as ->.
  { apply Z.div_unique_exact; lia. }
  rewrite wrap32_small.
  - reflexivity.
  - assert (0 <= Z.of_nat (length (archive_bytes es)) / 512)
      by (apply Z.div_pos; lia).
    assert (Z.of_nat (length (archive_bytes es)) / 512 < INT_MAX).
    { apply Z.div_lt_upper_bound; lia. }
    unfold INT_MAX in *. lia.
Qed.

Lemma lone_zero_block_is_reported_witness :
  Forall entry_ok [entry_a; entry_b] /\
  (length [9; 9] < 512)%nat /\
  main_walk 4 [] LIST false
    (start (archive_bytes [entry_a; entry_b] ++ zero_block ++ [9; 9])
       (fun _ => true))
  = Ret 0
      (mkWorld
         (mkFILE (archive_bytes [entry_a; entry_b] ++ zero_block ++ [9; 9])
            (length (archive_bytes [entry_a; entry_b] ++ zero_block
                     ++ [9; 9])))
         (printed_names LIST false [entry_a; entry_b]
          ++ [Stderr (msg_lone_zero_block
                (Z.of_nat (length (archive_bytes [entry_a; entry_b])) / 512
                 + 1))])
         (written LIST [entry_a; entry_b] ∅) (fun _ => true)).
Proof.
  split; [exact sample_entries_ok|]. split; [cbn [length]; lia|].
  apply (lone_zero_block_is_reported LIST false [entry_a; entry_b]
           [9; 9] (fun _ => true) 4 sample_entries_ok).
  - cbn [length]. lia.
  - vm_compute. discriminate.
  - discriminate.
  - cbn [length]. lia.
Defined.

(** X4.  Extraction without requested names into an empty working
    directory, on an archive of well-formed entries closed by two zero
    blocks, when the entry names are plain names (no '/', so that two
    names denote one file only if they are equal) and every output file
    can be created: the walk ends with exit status 0, prints the names
    only under [-v], and leaves in the directory the files of the
    entries written in archive order.  A name that occurs once holds
    exactly the payload of its entry (the first [size] bytes of its
    data blocks), a name that occurs several times holds the payload of
    its last entry, and no file is created under another plain name. *)
Theorem extraction_writes_every_file (es : list entry) (rest : list Z)
    (creatable : list Z -> bool) (verbose : bool) (fuel : nat) :
  Forall entry_ok es ->
  Z.of_nat (length (archive_bytes es ++ zero_block ++ zero_block ++ rest))
    <= LONG_MAX ->
  Forall (fun e => plain_name (e_name e) = true) es ->
  Forall (fun e => creatable (e_name e) = true) es ->
  (length es + 2 <= fuel)%nat ->
  exists w',
    main_walk fuel [] EXTRACT verbose
      (start (archive_bytes es ++ zero_block ++ zero_block ++ rest) creatable)
    = Ret 0 w' /\
    console w' = (if verbose then map (fun e => Stdout (e_name e)) es else []) /\
    disk w' = extracted es ∅ /\
    (NoDup (map e_name es) ->
     forall e, e ∈ es -> disk w' !! e_name e = Some (payload e)) /\
    (forall e later,
       es = later ++ [e] ->
       disk w' !! e_name e = Some (payload e)) /\
    (forall name,
       plain_name name = true ->
       name ∉ map e_name es -> disk w' !! name = None).
Proof.
  intros Hok Hfit _ Hcan Hfuel.
  set (archive := archive_bytes es ++ zero_block ++ zero_block ++ rest) in *.
  rewrite main_walk_start.
  replace fuel with (length es + S (S (fuel - length es - 2)))%nat by lia.
  rewrite (while_loop_entries _ [] EXTRACT verbose es []
             (zero_block ++ zero_block ++ rest) _ _ _ Hok);
    try reflexivity; try assumption;
    [| subst archive; rewrite !length_app; cbn [length]; lia
     | intros _; exact Hcan].
  destruct (walk_entries_unfiltered EXTRACT verbose es (initial_locals [])
              (start archive creatable) Hok) as [Hf Hw].
  destruct (walk_entries_stream [] EXTRACT verbose es (initial_locals [])
              (start archive creatable) Hok) as (_ & _ & H1 & H2).
  rewrite Hw.
  rewrite (while_loop_end_marker _ [] EXTRACT verbose _ (archive_bytes es)
             rest) by (reflexivity || assumption).
  rewrite after_loop_unfiltered.
  eexists. split; [reflexivity|].
  cbn [first_empty second_empty andb negb console disk set_fin start written
       is_extract].
  split; [unfold printed_names; now destruct verbose|].
  split; [reflexivity|].
  split; [intros Hnd e He; now apply extracted_lookup|].
  split.
  - intros e later ->. unfold extracted. rewrite fold_left_app.
    cbn [fold_left]. apply lookup_insert_eq.
  - intros name _ Hname. now rewrite extracted_other.
Qed.

Lemma extraction_writes_every_file_witness :
  Forall entry_ok [entry_a; entry_b] /\
  exists w',
    main_walk 4 [] EXTRACT false
      (start (archive_bytes [entry_a; entry_b] ++ zero_block ++ zero_block
              ++ []) (fun _ => true))
    = Ret 0 w' /\
    console w' = [] /\
    disk w' !! [97] = Some [1; 2; 3] /\
    disk w' !! [98] = Some (replicate 513 7).
Proof.
  split; [exact sample_entries_ok|].
  destruct (extraction_writes_every_file [entry_a; entry_b] []
              (fun _ => true) false 4 sample_entries_ok)
    as (w' & Hrun & Hcon & _ & Hfiles & _).
  - vm_compute. discriminate.
  - repeat constructor.
  - repeat constructor.
  - cbn [length]. lia.
  - exists w'. split; [exact Hrun|]. split; [exact Hcon|].
    assert (NoDup (map e_name [entry_a; entry_b])) as Hnd.
    { apply NoDup_cons. split; [|apply NoDup_singleton].
      intros H. apply list_elem_of_singleton in H. discriminate. }
    split.
    + apply (Hfiles Hnd entry_a). apply list_elem_of_here.
    + apply (Hfiles Hnd entry_b). apply list_elem_of_further, list_elem_of_here.
Defined.

(** ** The walk when names are requested *)

Lemma flags_for_lookup files_args seen i :
  flags_for files_args seen !! i
  = (fun a => bool_decide (a ∈ seen)) <$> files_args !! i.
Proof. unfold flags_for. apply (list_lookup_fmap _ files_args i). Qed.

Lemma flags_for_nil files_args :
  flags_for files_args [] = replicate (length files_args) false.
Proof.
  unfold flags_for. induction files_args as [|a rest IH]; [reflexivity|].
  cbn [map length replicate]. now rewrite IH.
Qed.

Lemma flags_for_ext files_args seen1 seen2 :
  (forall a, a ∈ files_args -> (a ∈ seen1 <-> a ∈ seen2)) ->
  flags_for files_args seen1 = flags_for files_args seen2.
Proof.
  intros H. unfold flags_for. apply map_ext_in. intros a Ha.
  apply bool_decide_ext, H, list_elem_of_In, Ha.
Qed.

(** With each name requested once, looking up a name that has not been
    met before succeeds exactly when it is requested, and then marks it. *)
Lemma mark_file_fresh files_args seen name :
  NoDup files_args -> name ∉ seen ->
  mark_file name files_args (flags_for files_args seen)
  = (bool_decide (name ∈ files_args), flags_for files_args (name :: seen)).
Proof.
  intros Hnd Hfresh. unfold mark_file.
  pose proof (mark_file_loop_spec name files_args 0
                (flags_for files_args seen)) as Hspec.
  assert (forall j, files_args !! j = Some name ->
                    flag (flags_for files_args seen) j = false) as Hunset.
  { intros j Hj. unfold flag. rewrite flags_for_lookup, Hj. cbn.
    now rewrite bool_decide_eq_false_2. }
  destruct (mark_file_loop 0 name files_args (flags_for files_args seen))
    as [[|] found'].
  - destruct Hspec as (j & Hj & _ & _ & ->). cbn [Nat.add].
    f_equal.
    + symmetry. apply bool_decide_eq_true_2.
      now apply list_elem_of_lookup_2 with j.
    + apply list_eq. intros i. rewrite flags_for_lookup.
      destruct (decide (i = j)) as [->|Hne].
      * rewrite list_lookup_insert_eq, Hj.
        -- cbn. now rewrite bool_decide_eq_true_2 by apply list_elem_of_here.
        -- unfold flags_for. rewrite length_map.
           now apply lookup_lt_Some with name.
      * rewrite list_lookup_insert_ne, flags_for_lookup by congruence.
        destruct (files_args !! i) as [a|] eqn:Hi; [|reflexivity]. cbn.
        f_equal. apply bool_decide_ext. rewrite elem_of_cons.
        split; [now right|]. intros [->|H]; [|exact H].
        exfalso. apply Hne. eapply NoDup_lookup; eassumption.
  - destruct Hspec as [-> Hall].
    assert (name ∉ files_args) as Hnot.
    { intros Hin. apply list_elem_of_lookup_1 in Hin as [j Hj].
      specialize (Hall j Hj). cbn [Nat.add] in Hall.
      rewrite (Hunset j Hj) in Hall. discriminate. }
    f_equal.
    + symmetry. now apply bool_decide_eq_false_2.
    + apply flags_for_ext. intros a Ha. rewrite elem_of_cons.
      split; [now right|]. intros [->|H]; [contradiction | exact H].
Qed.

Lemma missing_flags_for files_args seen :
  missing files_args (flags_for files_args seen)
  = List.filter (fun a => negb (bool_decide (a ∈ seen))) files_args.
Proof.
  unfold missing, flags_for.
  induction files_args as [|a rest IH]; [reflexivity|].
  cbn. destruct (bool_decide (a ∈ seen)); cbn; now rewrite IH.
Qed.

Section filtered_listing.

Variables (files_args : list (list Z)) (verbose : bool).

Hypothesis requested_once : NoDup files_args.
Hypothesis some_requested : files_args <> [].

Lemma walk_entries_filtered es : forall seen l w,
  Forall entry_ok es ->
  NoDup (map e_name es) ->
  (forall e, e ∈ es -> e_name e ∉ seen) ->
  files_found l = flags_for files_args seen ->
  files_found (fst (walk_entries files_args LIST verbose es l w))
  = flags_for files_args (rev (map e_name es) ++ seen) /\
  snd (walk_entries files_args LIST verbose es l w)
  = mkWorld
      (mkFILE (contents (fin w))
         (position (fin w) + length (archive_bytes es)))
      (console w
       ++ map Stdout (wanted files_args (map e_name es)))
      (disk w) (can_create w).
Proof.
  induction es as [|e es IH]; intros seen l w Hok Hnd Hfresh Hflags.
  - cbn [walk_entries fst snd map rev app archive_bytes concat length wanted
         List.filter].
    split; [exact Hflags|].
    apply world_eq; try reflexivity.
    + rewrite Nat.add_0_r. now destruct (fin w).
    + now rewrite app_nil_r.
  - inversion Hok as [|? ? He Hes]; subst.
    cbn [map] in Hnd. apply NoDup_cons in Hnd as [Hnew Hnd].
    assert (e_name e ∉ seen) as Hfr by (apply Hfresh, list_elem_of_here).
    pose proof (mark_file_fresh files_args seen (e_name e) requested_once Hfr)
      as Hmark.
    cbn [walk_entries].
    destruct (IH (e_name e :: seen) (locals_after files_args e l)
                (world_after files_args LIST verbose e l w) Hes Hnd)
      as [Hf Hw].
    + intros e' He'. rewrite not_elem_of_cons. split.
      * intros Heq. apply Hnew. rewrite <- Heq.
        apply list_elem_of_In, in_map, list_elem_of_In, He'.
      * apply Hfresh. now apply list_elem_of_further.
    + unfold locals_after. cbn [files_found]. now rewrite Hflags, Hmark.
    + split.
      * rewrite Hf. cbn [map rev]. now rewrite <- app_assoc.
      * rewrite Hw. unfold world_after, after_entry, selected.
        rewrite Hflags, Hmark. cbn [fst snd is_list is_extract orb andb
          fin contents position console disk can_create].
        assert ((files_count files_args =? 0) = false) as ->.
        { apply Z.eqb_neq. unfold files_count.
          destruct files_args; [congruence | cbn [length]; lia]. }
        cbn [orb]. rewrite andb_true_r.
        rewrite archive_bytes_cons, length_app, (length_entry_bytes e He).
        cbn [map wanted List.filter].
        f_equal.
        -- f_equal. lia.
        -- destruct (bool_decide (e_name e ∈ files_args));
             cbn [map]; now rewrite <- app_assoc.
Qed.

(** X5.  Listing with requested names, each requested once, on an
    archive of well-formed entries with distinct names closed by two
    zero blocks: the names printed are exactly the entry names that were
    requested, in archive order.  If every requested name is in the
    archive the exit status is 0; otherwise each requested name that is
    not in the archive gets a "Not found in archive" line, in request
    order, after the listing, and the exit status is 2. *)
Theorem listing_with_requested_names (es : list entry) (rest : list Z)
    (creatable : list Z -> bool) (fuel : nat) :
  Forall entry_ok es ->
  NoDup (map e_name es) ->
  Z.of_nat (length (archive_bytes es ++ zero_block ++ zero_block ++ rest))
    <= LONG_MAX ->
  (length es + 2 <= fuel)%nat ->
  let archive := archive_bytes es ++ zero_block ++ zero_block ++ rest in
  let listed :=
    mkWorld (mkFILE archive (length (archive_bytes es) + 1024))
      (map Stdout (wanted files_args (map e_name es))) ∅ creatable in
  main_walk fuel files_args LIST verbose (start archive creatable)
  = match absent files_args (map e_name es) with
    | [] => Ret 0 listed
    | names =>
        Exit 2 (emit_all (not_found_lines names
                          ++ [Stderr msg_exiting_failure]) listed)
    end.
Proof.
  intros Hok Hnd Hfit Hfuel archive listed.
  rewrite main_walk_start.
  replace fuel with (length es + S (S (fuel - length es - 2)))%nat by lia.
  rewrite (while_loop_entries _ files_args LIST verbose es []
             (zero_block ++ zero_block ++ rest) _ _ _ Hok);
    try reflexivity; try assumption; try discriminate;
    [|subst archive; rewrite !length_app; cbn [length]; lia].
  destruct (walk_entries_filtered es [] (initial_locals files_args)
              (start archive creatable) Hok Hnd)
    as [Hf Hw].
  { intros e _ H. inversion H. }
  { symmetry. apply flags_for_nil. }
  destruct (walk_entries_stream files_args LIST verbose es
              (initial_locals files_args) (start archive creatable) Hok)
    as (_ & _ & H1 & H2).
  rewrite Hw.
  rewrite (while_loop_end_marker _ files_args LIST verbose _
             (archive_bytes es) rest) by (reflexivity || assumption).
  rewrite after_loop_spec
    by (cbn [files_found]; rewrite Hf; unfold flags_for; apply length_map).
  cbn [first_empty second_empty andb negb files_found].
  rewrite Hf, missing_flags_for.
  assert (List.filter
            (fun a => negb (bool_decide (a ∈ rev (map e_name es) ++ [])))
            files_args
          = absent files_args (map e_name es)) as ->.
  { unfold absent. apply filter_ext. intros a. do 2 f_equal.
    apply bool_decide_ext.
    rewrite app_nil_r, !list_elem_of_In. symmetry. apply in_rev. }
  destruct (absent files_args (map e_name es)) as [|name names].
  - rewrite emit_all_nil. reflexivity.
  - reflexivity.
Qed.

End filtered_listing.

Lemma listing_with_requested_names_witness :
  NoDup [[98]; [99]] /\
  [[98]; [99]] <> [] /\
  Forall entry_ok [entry_a; entry_b] /\
  NoDup (map e_name [entry_a; entry_b]) /\
  main_walk 4 [[98]; [99]] LIST false
    (start (archive_bytes [entry_a; entry_b] ++ zero_block ++ zero_block
            ++ []) (fun _ => true))
  = Exit 2
      (mkWorld
         (mkFILE (archive_bytes [entry_a; entry_b] ++ zero_block
                  ++ zero_block ++ [])
            (length (archive_bytes [entry_a; entry_b]) + 1024))
         [Stdout [98]; Stderr (msg_not_found [99]);
          Stderr msg_exiting_failure] ∅ (fun _ => true)).
Proof.
  assert (forall x y : list Z, x <> y -> NoDup [x; y]) as Hpair.
  { intros x y Hxy. apply NoDup_cons. split; [|apply NoDup_singleton].
    intros H. apply list_elem_of_singleton in H. contradiction. }
  assert (NoDup [[98]; [99]]) as Hargs by (apply Hpair; discriminate).
  assert (NoDup (map e_name [entry_a; entry_b])) as Hnames
    by (apply Hpair; discriminate).
  split; [exact Hargs|]. split; [discriminate|].
  split; [exact sample_entries_ok|]. split; [exact Hnames|].
  apply (listing_with_requested_names [[98]; [99]] false Hargs
           ltac:(discriminate) [entry_a; entry_b] [] (fun _ => true) 4
           sample_entries_ok Hnames).
  - vm_compute. discriminate.
  - cbn [length]. lia.
Defined.

(** ** A header at the current position *)

Section header_round.

Variables (archive_size : Z) (files_args : list (list Z))
          (action : mode) (verbose : bool).

Local Abbreviation body := (loop_body archive_size files_args action verbose).

(** The round that reads an accepted header: everything up to the skip
    or the extraction succeeds, so the round is that step followed by
    the position check. *)
Lemma loop_body_header buffer name file_size (pre post : list Z) l w :
  header_ok buffer name file_size ->
  contents (fin w) = pre ++ buffer ++ post ->
  position (fin w) = length pre ->
  body l w =
    match (if is_extract action &&
              selected files_args
                (fst (mark_file name files_args (files_found l)))
           then extract_file buffer
           else fseek_cur (wrap64 (BLOCK_SIZE * blocks_count file_size)))
            (announced files_args action verbose name
               (fst (mark_file name files_args (files_found l)))
               (set_fin (mkFILE (contents (fin w)) (position (fin w) + 512))
                  w)) with
    | Ret _ w' =>
        if Z.of_nat (position (fin w')) >? archive_size
        then Exit 2 (emit (Stderr msg_not_recoverable)
                       (emit (Stderr msg_unexpected_eof) w'))
        else Ret (Continue
                    (mkLocals
                       (snd (mark_file name files_args (files_found l)))
                       (first_empty l) (second_empty l)
                       (blocks_read_after (blocks_read l) file_size))) w'
    | Exit status w' => Exit status w'
    | Undef => Undef
    | OutOfFuel => OutOfFuel
    end.
Proof.
  intros Hhdr Hcont Hpos.
  pose proof Hhdr as (Hlen & Htag & _).
  assert (fread_block w
          = Ret (Some buffer)
              (set_fin (mkFILE (contents (fin w)) (position (fin w) + 512)) w))
    as Hread.
  { rewrite fread_block_ok by (rewrite Hcont, Hpos, !length_app; lia).
    do 2 f_equal. rewrite Hcont, Hpos, drop_app_length.
    now apply take_app_length'. }
  rewrite (loop_body_nonzero _ _ _ _ l w _ _ Hread
             (accepted_tag_not_empty _ Htag)).
  rewrite process_entry_eq.
  rewrite (handle_entry_accepted files_args action verbose _ _ _ _ _ Hhdr).
  cbn [files_found counted first_empty second_empty blocks_read].
  unfold blocks_read_after.
  destruct ((if is_extract action &&
                selected files_args
                  (fst (mark_file name files_args (files_found l)))
             then extract_file buffer
             else fseek_cur (wrap64 (BLOCK_SIZE * blocks_count file_size)))
              (announced files_args action verbose name
                 (fst (mark_file name files_args (files_found l)))
                 (set_fin
                    (mkFILE (contents (fin w)) (position (fin w) + 512)) w)))
    as [[] ?| | |]; reflexivity.
Qed.

End header_round.

(** ** Malformed and truncated archives *)

Lemma blocks_count_minus_one file_size :
  -1534 <= file_size <= -1023 -> blocks_count file_size = -1.
Proof.
  intros H. unfold blocks_count, BLOCK_SIZE.
  rewrite (wrap64_small (file_size + 512)) by (unfold LONG_MAX; lia).
  rewrite (wrap64_small (file_size + 512 - 1)) by (unfold LONG_MAX; lia).
  assert (Z.quot (file_size + 512 - 1) 512 = -1) as ->.
  { replace (file_size + 512 - 1) with (- (- file_size - 511)) by lia.
    rewrite Z.quot_opp_l by lia. rewrite Z.quot_div_nonneg by lia.
    assert ((- file_size - 511) / 512 = 1) as ->; [|reflexivity].
    symmetry. apply (Z.div_unique _ _ _ (- file_size - 511 - 512)); lia. }
  reflexivity.
Qed.

(** X6.  A header that is accepted but whose size field decodes to a
    number from -1534 to -1023 (three spaces before the NUL give -1168)
    has block count -1.  When such an entry is skipped in a listing, the
    seek moves the stream back onto the header just read, so the same
    header is read again in every round: the walk never leaves its loop,
    whatever number of rounds it is allowed. *)
Theorem backward_skip_never_ends (archive_size : Z)
    (files_args : list (list Z)) (verbose : bool) (buffer name : list Z)
    (file_size : Z) (pre post : list Z) (fuel : nat) :
  header_ok buffer name file_size ->
  -1534 <= file_size <= -1023 ->
  Z.of_nat (length pre) <= archive_size <= LONG_MAX ->
  forall l w,
    contents (fin w) = pre ++ buffer ++ post ->
    position (fin w) = length pre ->
    while_loop archive_size files_args LIST verbose fuel l w = OutOfFuel.
Proof.
  intros Hhdr Hs Hsize.
  pose proof (blocks_count_minus_one file_size Hs) as Hb.
  assert (forall w2 : world,
            position (fin w2) = (length pre + 512)%nat ->
            fseek_cur (wrap64 (BLOCK_SIZE * blocks_count file_size)) w2
            = Ret tt (set_fin (mkFILE (contents (fin w2)) (length pre)) w2))
    as Hseek.
  { intros w2 Hp. unfold fseek_cur. rewrite Hb, Hp.
    change (wrap64 (BLOCK_SIZE * -1)) with (-512).
    destruct (Z.leb_spec 0 (Z.of_nat (length pre + 512) + -512)); [|lia].
    destruct (Z.leb_spec (Z.of_nat (length pre + 512) + -512) LONG_MAX);
      [|lia].
    cbn [andb]. do 3 f_equal. lia. }
  induction fuel as [|fuel IH]; intros l w Hcont Hpos; [reflexivity|].
  rewrite while_loop_S.
  rewrite (loop_body_header archive_size files_args LIST verbose buffer name
             file_size pre post l w Hhdr Hcont Hpos).
  cbn [is_extract andb]. unfold announced.
  destruct (selected files_args _ && _).
  - rewrite Hseek by (cbn [fin emit set_fin position]; lia).
    cbn [fin set_fin position emit contents].
    destruct (Z.gtb_spec (Z.of_nat (length pre)) archive_size); [lia|].
    apply IH; [exact Hcont | reflexivity].
  - rewrite Hseek by (cbn [fin set_fin position]; lia).
    cbn [fin set_fin position contents].
    destruct (Z.gtb_spec (Z.of_nat (length pre)) archive_size); [lia|].
    apply IH; [exact Hcont | reflexivity].
Qed.

Lemma backward_skip_never_ends_witness :
  header_ok (file_header [97] [32; 32; 32; 0]) [97] (-1168) /\
  while_loop 1024 [] LIST false 1000 (initial_locals [])
    (start (file_header [97] [32; 32; 32; 0] ++ zero_block) (fun _ => true))
  = OutOfFuel.
Proof.
  assert (header_ok (file_header [97] [32; 32; 32; 0]) [97] (-1168)) as Hhdr
    by (repeat split; vm_compute; congruence).
  split; [exact Hhdr|].
  apply (backward_skip_never_ends 1024 [] false
           (file_header [97] [32; 32; 32; 0]) [97] (-1168) [] zero_block
           1000 Hhdr).
  - lia.
  - unfold LONG_MAX. cbn [length]. lia.
  - reflexivity.
  - reflexivity.
Defined.

(** X7.  Listing without requested names, on an archive whose leading
    entries are well formed and whose next header is accepted but
    announces more data blocks than the stream still holds, the end of
    the announced data lying within the reach of a seek on every file
    system ([seek_reach]), so that the skip past the end of the archive
    succeeds: the names of the leading entries and the name of the
    truncated entry are printed, then "Unexpected EOF in archive" and
    "Error is not recoverable: exiting now", and the exit status is 2.
    The data is not read: the error comes from the position after the
    skip.  (Where the file system refuses the seek, the program does
    not notice and goes on reading at the data; that case is not
    covered here.) *)
Theorem listing_detects_truncation (es : list entry)
    (buffer name : list Z) (file_size : Z) (post : list Z)
    (creatable : list Z -> bool) (verbose : bool) (fuel : nat) :
  Forall entry_ok es ->
  header_ok buffer name file_size ->
  0 <= file_size <= LONG_MAX - 511 ->
  Z.of_nat (length post) < 512 * blocks_count file_size ->
  Z.of_nat (length (archive_bytes es)) + 512 + 512 * blocks_count file_size
    <= seek_reach ->
  (length es + 1 <= fuel)%nat ->
  main_walk fuel [] LIST verbose
    (start (archive_bytes es ++ buffer ++ post) creatable)
  = Exit 2
      (mkWorld
         (mkFILE (archive_bytes es ++ buffer ++ post)
            (length (archive_bytes es) + 512
             + Z.to_nat (512 * blocks_count file_size)))
         (map (fun e => Stdout (e_name e)) es
          ++ [Stdout name; Stderr msg_unexpected_eof;
              Stderr msg_not_recoverable])
         ∅ creatable).
Proof.
  intros Hok Hhdr Hs Hshort Hreach Hfuel.
  assert (Z.of_nat (length (archive_bytes es)) + 512
          + 512 * blocks_count file_size <= LONG_MAX) as Hseek
    by (unfold seek_reach, INT_MAX, LONG_MAX in *; lia).
  pose proof Hhdr as (Hlen & _).
  destruct (blocks_count_range file_size Hs) as [Hb0 Hb1].
  set (archive := archive_bytes es ++ buffer ++ post) in *.
  assert (Z.of_nat (length archive)
          = Z.of_nat (length (archive_bytes es)) + 512
            + Z.of_nat (length post)) as Harch
    by (subst archive; rewrite !length_app; lia).
  rewrite main_walk_start.
  replace fuel with (length es + S (fuel - length es - 1))%nat by lia.
  rewrite (while_loop_entries _ [] LIST verbose es [] (buffer ++ post)
             _ _ _ Hok);
    try reflexivity; try discriminate;
    [| cbn [length]; lia | cbn [start fin contents]; lia].
  destruct (walk_entries_unfiltered LIST verbose es (initial_locals [])
              (start archive creatable) Hok) as [Hf Hw].
  rewrite Hw. rewrite while_loop_S.
  rewrite (loop_body_header _ [] LIST verbose buffer name file_size
             (archive_bytes es) post _ _ Hhdr)
    by reflexivity.
  cbn [is_extract andb]. unfold announced, selected.
  change (files_count [] =? 0) with true.
  cbn [orb is_list is_extract andb].
  unfold fseek_cur, BLOCK_SIZE.
  rewrite wrap64_small by (unfold LONG_MAX in *; lia).
  cbn [fin position contents emit set_fin start console disk can_create
       Nat.add].
  destruct (Z.leb_spec 0
              (Z.of_nat (length (archive_bytes es) + 512)
               + 512 * blocks_count file_size)); [|lia].
  destruct (Z.leb_spec
              (Z.of_nat (length (archive_bytes es) + 512)
               + 512 * blocks_count file_size) LONG_MAX); [|lia].
  cbn [andb]. unfold emit, set_fin, printed_names.
  cbn [is_list orb fin position contents console disk can_create].
  destruct (Z.gtb_spec
              (Z.of_nat
                 (Z.to_nat
                    (Z.of_nat (length (archive_bytes es) + 512)
                     + 512 * blocks_count file_size)))
              (Z.of_nat (length archive))); [|lia].
  f_equal. f_equal.
  - f_equal. lia.
  - now rewrite <- !app_assoc.
Qed.

Lemma listing_detects_truncation_witness :
  Forall entry_ok [entry_a] /\
  header_ok (e_header entry_b) [98] 513 /\
  main_walk 2 [] LIST false
    (start (archive_bytes [entry_a] ++ e_header entry_b ++ replicate 600 7)
       (fun _ => true))
  = Exit 2
      (mkWorld
         (mkFILE (archive_bytes [entry_a] ++ e_header entry_b
                  ++ replicate 600 7)
            (length (archive_bytes [entry_a]) + 512
             + Z.to_nat (512 * blocks_count 513)))
         (map (fun e => Stdout (e_name e)) [entry_a]
          ++ [Stdout [98]; Stderr msg_unexpected_eof;
              Stderr msg_not_recoverable])
         ∅ (fun _ => true)).
Proof.
  assert (Forall entry_ok [entry_a]) as Hok
    by (constructor; [apply entry_a_ok | constructor]).
  pose proof entry_b_ok as [Hhdr _].
  split; [exact Hok|]. split; [exact Hhdr|].
  apply (listing_detects_truncation [entry_a] (e_header entry_b) [98] 513
           (replicate 600 7) (fun _ => true) false 2 Hok Hhdr).
  - unfold LONG_MAX. lia.
  - vm_compute. reflexivity.
  - vm_compute. discriminate.
  - cbn [length]. lia.
Defined.

(** X8.  Extraction without requested names, when the leading entries
    are well formed and can be created but the output file of the next
    entry cannot be created: the leading entries are extracted, the name
    of the failing entry is still printed under [-v], then the program
    prints "Error creating file" and exits with status 2 without reading
    any of that entry's data. *)
Theorem uncreatable_file_is_fatal (es : list entry)
    (buffer name : list Z) (file_size : Z) (post : list Z)
    (creatable : list Z -> bool) (verbose : bool) (fuel : nat) :
  Forall entry_ok es ->
  header_ok buffer name file_size ->
  Forall (fun e => creatable (e_name e) = true) es ->
  creatable name = false ->
  Z.of_nat (length (archive_bytes es ++ buffer ++ post)) <= LONG_MAX ->
  (length es + 1 <= fuel)%nat ->
  main_walk fuel [] EXTRACT verbose
    (start (archive_bytes es ++ buffer ++ post) creatable)
  = Exit 2
      (mkWorld
         (mkFILE (archive_bytes es ++ buffer ++ post)
            (length (archive_bytes es) + 512))
         ((if verbose
           then map (fun e => Stdout (e_name e)) es ++ [Stdout name]
           else [])
          ++ [Stderr msg_error_creating_file])
         (extracted es ∅) creatable).
Proof.
  intros Hok Hhdr Hcan Hno Hfit Hfuel.
  pose proof Hhdr as (Hlen & _ & _ & Hname & _).
  set (archive := archive_bytes es ++ buffer ++ post) in *.
  rewrite main_walk_start.
  replace fuel with (length es + S (fuel - length es - 1))%nat by lia.
  rewrite (while_loop_entries _ [] EXTRACT verbose es [] (buffer ++ post)
             _ _ _ Hok);
    try reflexivity; try assumption;
    [| subst archive; rewrite !length_app; cbn [length]; lia
     | intros _; exact Hcan].
  destruct (walk_entries_unfiltered EXTRACT verbose es (initial_locals [])
              (start archive creatable) Hok) as [Hf Hw].
  rewrite Hw. rewrite while_loop_S.
  rewrite (loop_body_header _ [] EXTRACT verbose buffer name file_size
             (archive_bytes es) post _ _ Hhdr)
    by reflexivity.
  unfold announced, selected.
  change (files_count [] =? 0) with true.
  cbn [orb is_list is_extract andb].
  unfold extract_file. rewrite Hname. unfold bind, fopen_w.
  unfold printed_names, written.
  cbn [is_list is_extract orb andb].
  destruct verbose;
    cbn [fin position contents emit set_fin start console disk can_create
         Nat.add];
    rewrite Hno; unfold errx, emit;
    cbn [fin console disk can_create]; f_equal; f_equal;
    now rewrite <- ?app_assoc.
Qed.

Lemma uncreatable_file_is_fatal_witness :
  Forall entry_ok [entry_a] /\
  header_ok (e_header entry_b) [98] 513 /\
  main_walk 2 [] EXTRACT true
    (start (archive_bytes [entry_a] ++ e_header entry_b ++ e_data entry_b)
       (fun name => bool_decide (name = [97])))
  = Exit 2
      (mkWorld
         (mkFILE (archive_bytes [entry_a] ++ e_header entry_b
                  ++ e_data entry_b)
            (length (archive_bytes [entry_a]) + 512))
         ((if true
           then map (fun e => Stdout (e_name e)) [entry_a] ++ [Stdout [98]]
           else [])
          ++ [Stderr msg_error_creating_file])
         (extracted [entry_a] ∅) (fun name => bool_decide (name = [97]))).
Proof.
  assert (Forall entry_ok [entry_a]) as Hok
    by (constructor; [apply entry_a_ok | constructor]).
  pose proof entry_b_ok as [Hhdr _].
  split; [exact Hok|]. split; [exact Hhdr|].
  apply (uncreatable_file_is_fatal [entry_a] (e_header entry_b) [98] 513
           (e_data entry_b) (fun name => bool_decide (name = [97])) true 2
           Hok Hhdr).
  - repeat constructor.
  - reflexivity.
  - vm_compute. discriminate.
  - cbn [length]. lia.
Defined.

(** The loop of [extract_file] when only [m] whole blocks are left in
    the stream and more than [m] are still to be copied: the [m] blocks
    are written in full, then the read fails. *)
Lemma extract_loop_short m : forall fuel fout i blocks bytes w acc,
  i + Z.of_nat m < blocks ->
  0 <= i -> i + Z.of_nat m < INT_MAX ->
  (m < fuel)%nat ->
  (position (fin w) + 512 * m <= length (contents (fin w)))%nat ->
  (length (contents (fin w)) < position (fin w) + 512 * S m)%nat ->
  disk w !! fout = Some acc ->
  exists w',
    extract_loop fuel fout i blocks bytes w = Exit 2 w' /\
    fin w' = mkFILE (contents (fin w)) (length (contents (fin w))) /\
    console w'
      = console w ++ [Stderr msg_unexpected_eof; Stderr msg_not_recoverable] /\
    can_create w' = can_create w /\
    disk w' !! fout
      = Some (acc ++ take (512 * m)
                       (drop (position (fin w)) (contents (fin w)))) /\
    forall other, other <> fout -> disk w' !! other = disk w !! other.
Proof.
  induction m as [|m IH];
    intros fuel fout i blocks bytes w acc Hmore Hi Hmax Hfuel Hhave Hshort
      Hacc.
  - destruct fuel as [|fuel]; [lia|].
    assert (fread_block w
            = Ret None
                (set_fin (mkFILE (contents (fin w))
                            (Nat.max (position (fin w))
                               (length (contents (fin w))))) w)) as Hread.
    { unfold fread_block.
      destruct (Nat.leb_spec (position (fin w) + 512)
                  (length (contents (fin w)))); [lia | reflexivity]. }
    assert (i < blocks) as Hlt by lia.
    rewrite (extract_loop_eof _ _ _ _ _ _ _ Hlt Hread).
    eexists. split; [reflexivity|].
    cbn [fin console disk can_create set_fin emit contents position].
    split; [f_equal; lia|].
    split; [now rewrite <- app_assoc|].
    split; [reflexivity|].
    split; [|reflexivity].
    rewrite Hacc. cbn [take Nat.mul]. now rewrite app_nil_r.
  - destruct fuel as [|fuel]; [lia|].
    assert (i < blocks) as Hlt by lia.
    assert (position (fin w) + 512 <= length (contents (fin w)))%nat
      as Hread by lia.
    rewrite (extract_loop_step _ _ _ _ _ _ _ _ Hlt (fread_block_ok w Hread)).
    set (buffer := take 512 (drop (position (fin w)) (contents (fin w)))).
    assert (length buffer = 512%nat) as Hlen.
    { subst buffer. rewrite length_take, length_drop. lia. }
    rewrite wrap32_small by (unfold INT_MAX in *; lia).
    destruct (Z.eqb_spec (i + 1) blocks); [lia|].
    rewrite fwrite_ok by (unfold BLOCK_SIZE; lia).
    set (w1 := set_disk _ _).
    destruct (IH fuel fout (i + 1) blocks bytes w1 (acc ++ buffer))
      as (w' & Hrun & Hfin & Hcon & Hcan & Hout & Hother);
      try lia;
      try (subst w1;
           cbn [fin console disk can_create set_disk set_fin contents
                position]; lia).
    + subst w1.
      cbn [fin console disk can_create set_disk set_fin contents position].
      rewrite lookup_alter_eq, Hacc. cbn [fmap option_fmap option_map].
      now rewrite (take_ge buffer) by (unfold BLOCK_SIZE; lia).
    + exists w'. split; [exact Hrun|]. subst w1.
      cbn [fin console disk can_create set_disk set_fin contents position]
        in *.
      split; [assumption|]. split; [assumption|]. split; [assumption|].
      split.
      * rewrite Hout, <- app_assoc. do 2 f_equal. subst buffer.
        rewrite <- (drop_drop (contents (fin w)) 512 (position (fin w))).
        rewrite take_take_drop. f_equal. lia.
      * intros other Hne. rewrite (Hother other Hne).
        now rewrite lookup_alter_ne.
Qed.

(** X9.  Extraction of an entry whose data is cut short: when the
    stream holds only [k] whole blocks behind the header and the size
    calls for more than [k], [extract_file] creates the output file,
    copies those [k] blocks in full, then prints "Unexpected EOF in
    archive" and "Error is not recoverable: exiting now" and exits with
    status 2.  The partial output file stays on disk, holding exactly
    those [512 * k] bytes; a last incomplete block is not copied. *)
Theorem truncated_data_stops_extraction (buffer name : list Z)
    (file_size : Z) (k : nat) (w : world) :
  cstr (Header.at_field buffer Header.name) = Some name ->
  oct2dec (Header.at_field buffer Header.size) = Some file_size ->
  can_create w name = true ->
  0 <= file_size <= 512 * INT_MAX ->
  Z.of_nat k < blocks_count file_size ->
  (position (fin w) + 512 * k <= length (contents (fin w)))%nat ->
  (length (contents (fin w)) < position (fin w) + 512 * S k)%nat ->
  exists w',
    extract_file buffer w = Exit 2 w' /\
    console w'
      = console w ++ [Stderr msg_unexpected_eof; Stderr msg_not_recoverable] /\
    disk w' !! name
      = Some (take (512 * k) (drop (position (fin w)) (contents (fin w)))) /\
    (forall other, other <> name -> disk w' !! other = disk w !! other).
Proof.
  intros Hname Hsize Hcan Hs Hk Hhave Hshort.
  rewrite (extract_file_eq buffer w name file_size Hname Hcan Hsize).
  assert (file_size <= LONG_MAX - 511) as Hsmall
    by (unfold LONG_MAX, INT_MAX in *; lia).
  pose proof (blocks_count_no_overflow file_size ltac:(lia)) as Hbc.
  assert (blocks_count file_size <= INT_MAX) as Hmax.
  { rewrite Hbc. unfold INT_MAX in *.
    assert ((file_size + 511) / 512 < 2 ^ 31)
      by (apply Z.div_lt_upper_bound; lia).
    lia. }
  destruct (extract_loop_short k (S (bytes_ahead w)) name 0
              (blocks_count file_size) (bytes_left file_size)
              (set_disk (<[name := []]> (disk w)) w) [])
    as (w' & Hrun & _ & Hcon & _ & Hout & Hother);
    cbn [fin console disk can_create set_disk set_fin contents position]
      in *; try lia.
  - unfold bytes_ahead. lia.
  - apply lookup_insert_eq.
  - exists w'. split; [exact Hrun|]. split; [exact Hcon|].
    split; [exact Hout|].
    intros other Hne. rewrite (Hother other Hne).
    now rewrite lookup_insert_ne.
Qed.

Lemma truncated_data_stops_extraction_witness :
  let buffer := e_header entry_b in
  let w := mkWorld (mkFILE (buffer ++ replicate 600 7) 512) [] ∅
             (fun _ => true) in
  cstr (Header.at_field buffer Header.name) = Some [98] /\
  oct2dec (Header.at_field buffer Header.size) = Some 513 /\
  exists w',
    extract_file buffer w = Exit 2 w' /\
    console w' = [Stderr msg_unexpected_eof; Stderr msg_not_recoverable] /\
    disk w' !! [98] = Some (replicate 512 7) /\
    (forall other, other <> [98] -> disk w' !! other = disk w !! other).
Proof.
  intros buffer w.
  split; [reflexivity|]. split; [reflexivity|].
  apply (truncated_data_stops_extraction buffer [98] 513 1 w).
  - reflexivity.
  - reflexivity.
  - reflexivity.
  - unfold INT_MAX. lia.
  - vm_compute. reflexivity.
  - vm_compute. lia.
  - vm_compute. lia.
Defined.

(** A header with the accepted tag has a NUL in its version member, so
    the size read from the size member on is terminated inside the
    block. *)
Lemma size_is_terminated buffer :
  length buffer = 512%nat ->
  accepted_tag buffer ->
  oct2dec (Header.at_field buffer Header.size) <> None.
Proof.
  intros Hlen [_ Hv]. unfold oct2dec.
  destruct (cstr (Header.at_field buffer Header.size)) eqn:Hc; [discriminate|].
  intros _. apply cstr_None_inv in Hc.
  unfold Header.bytes, Header.at_field in *.
  change (Header.offset Header.version) with 263%nat in Hv.
  change (Header.width Header.version) with 2%nat in Hv.
  change (Header.offset Header.size) with 124%nat in Hc.
  assert (drop 263 buffer !! 1%nat = Some 0) as Hz.
  { rewrite <- (lookup_take_lt _ 2) by lia. now rewrite Hv. }
  rewrite lookup_drop in Hz.
  rewrite Forall_lookup in Hc.
  apply (Hc 140%nat 0); [|reflexivity].
  rewrite lookup_drop. exact Hz.
Qed.

(** X10.  The type check compares the string that starts at the
    one-byte type flag with "0", so it looks at the type flag and at the
    first byte of the link name.  For a block with the accepted tag the
    walk goes on only if the flag is '0' and that next byte is NUL; in
    every other case, a flag such as NUL, '1' or '5' or a regular file
    with a link name, it prints "Unsupported header type" with the code
    of the flag and exits with status 2 before anything is printed or
    extracted for the entry. *)
Theorem unsupported_type_is_fatal (archive_size : Z)
    (files_args : list (list Z)) (action : mode) (verbose : bool)
    (fuel : nat) (l : locals) (w w1 : world) (buffer : list Z)
    (code next : Z) :
  fread_block w = Ret (Some buffer) w1 ->
  accepted_tag buffer ->
  Header.bytes buffer Header.typeflag = [code] ->
  Header.bytes buffer Header.linkname !! 0%nat = Some next ->
  (is_regular_file buffer w1 = Ret tt w1 <-> code = 48 /\ next = 0) /\
  (~ (code = 48 /\ next = 0) ->
   while_loop archive_size files_args action verbose (S fuel) l w
   = Exit 2 (unsupported_type code w1)).
Proof.
  intros Hr Htag Hcode Hnext.
  destruct (fread_block_Some _ _ _ Hr) as [Hlen _].
  destruct (is_regular_file_spec buffer w1 ltac:(lia))
    as (code' & next' & rest & Ht & Hcheck).
  assert (code' = code) as ->.
  { unfold Header.bytes in Hcode. rewrite Ht in Hcode. cbn in Hcode.
    congruence. }
  assert (next' = next) as ->.
  { assert (Header.at_field buffer Header.linkname
            = drop 1 (Header.at_field buffer Header.typeflag)) as Hl.
    { unfold Header.at_field.
      change (Header.offset Header.linkname) with (156 + 1)%nat.
      change (Header.offset Header.typeflag) with 156%nat.
      now rewrite drop_drop. }
    unfold Header.bytes in Hnext. rewrite Hl, Ht in Hnext.
    rewrite lookup_take_lt in Hnext
      by (change (Header.width Header.linkname) with 100%nat; lia).
    cbn in Hnext. congruence. }
  split.
  - rewrite Hcheck.
    destruct (Z.eqb_spec code 48), (Z.eqb_spec next 0); cbn [andb];
      split; try discriminate; try tauto; intros [? ?]; contradiction.
  - intros Hbad.
    rewrite while_loop_S.
    rewrite (loop_body_nonzero _ _ _ _ l w buffer w1 Hr
               (accepted_tag_not_empty _ Htag)).
    rewrite process_entry_eq. unfold handle_entry.
    pose proof (size_is_terminated buffer Hlen Htag) as Hsize.
    destruct (oct2dec (Header.at_field buffer Header.size)) as [file_size|];
      [|contradiction].
    unfold bind.
    rewrite (proj1 (is_tar_archive_spec buffer w1 ltac:(lia)) Htag).
    rewrite Hcheck.
    destruct (Z.eqb_spec code 48), (Z.eqb_spec next 0); cbn [andb];
      try reflexivity.
    exfalso. apply Hbad. now split.
Qed.

Lemma unsupported_type_is_fatal_witness :
  let buffer := header_block [100] [48; 0] 53 [] gnu_magic gnu_version in
  let w := start (buffer ++ zero_block ++ zero_block) (fun _ => true) in
  let w1 := set_fin (mkFILE (buffer ++ zero_block ++ zero_block) 512) w in
  fread_block w = Ret (Some buffer) w1 /\
  accepted_tag buffer /\
  while_loop 1536 [] LIST false 1 (initial_locals []) w
  = Exit 2 (unsupported_type 53 w1).
Proof.
  intros buffer w w1.
  assert (accepted_tag buffer) as Htag by (split; reflexivity).
  split; [reflexivity|]. split; [exact Htag|].
  apply (proj2 (unsupported_type_is_fatal 1536 [] LIST false 0
                  (initial_locals []) w w1 buffer 53 0
                  eq_refl Htag eq_refl eq_refl)).
  intros [H _]. discriminate.
Defined.

(** ** More on the octal decoder *)

Lemma octal_value_app a b :
  octal_value (a ++ b)
  = octal_value a * 8 ^ Z.of_nat (length b) + octal_value b.
Proof.
  induction a as [|c a IH]; [cbn; lia|].
  cbn [app octal_value]. rewrite IH, length_app, Nat2Z.inj_add.
  rewrite Z.pow_add_r by lia. ring.
Qed.

Lemma octal_value_zeros n : octal_value (replicate n 48) = 0.
Proof.
  induction n as [|n IH]; [reflexivity|].
  cbn [replicate octal_value]. rewrite IH. lia.
Qed.

Lemma cstr_prefix a mem :
  Forall (fun c => c <> 0) a ->
  cstr (a ++ mem)
  = match cstr mem with Some s => Some (a ++ s) | None => None end.
Proof.
  induction 1 as [|c a Hc _ IH]; [cbn [app]; now destruct (cstr mem)|].
  cbn [app cstr]. destruct (Z.eqb_spec c 0); [contradiction|].
  rewrite IH. now destruct (cstr mem).
Qed.

(** X11.  Leading '0' characters do not change the value the decoder
    returns, however many there are, and a field that starts with a NUL
    decodes to 0. *)
Theorem oct2dec_ignores_leading_zeros (n : nat) (s rest : list Z) :
  Forall (fun c => c <> 0) s ->
  oct2dec (replicate n 48 ++ s ++ 0 :: rest) = oct2dec (s ++ 0 :: rest) /\
  oct2dec (0 :: rest) = Some 0.
Proof.
  intros Hs. split; [|reflexivity].
  assert (Forall (fun c => c <> 0) (replicate n 48 ++ s)) as Hall.
  { apply Forall_app. split; [|exact Hs].
    apply Forall_replicate. discriminate. }
  unfold oct2dec. rewrite app_assoc, (cstr_app _ rest Hall), (cstr_app s rest Hs).
  rewrite !oct2dec_str_wrap, octal_value_app, octal_value_zeros.
  do 2 f_equal; lia.
Qed.

Lemma oct2dec_ignores_leading_zeros_witness :
  Forall (fun c => c <> 0) [49; 50] /\
  oct2dec (replicate 9 48 ++ [49; 50] ++ 0 :: [55])
  = oct2dec ([49; 50] ++ 0 :: [55]).
Proof.
  split.
  - repeat constructor; lia.
  - apply (oct2dec_ignores_leading_zeros 9 [49; 50] [55]).
    repeat constructor; lia.
Defined.

(** X12.  A character that follows the digits before the NUL is taken
    for one more digit: for up to 19 octal digits of value [v] followed
    by a non-NUL character [c], the decoder returns [8 * v + (c - '0')].
    A size field closed by a space and a NUL, as some tar writers
    produce, thus decodes to [8 * v - 16] and not to [v]. *)
Theorem oct2dec_takes_padding_for_a_digit (s rest : list Z) (c : Z) :
  Forall (fun d => is_octal_digit d = true) s ->
  (length s <= 19)%nat ->
  c <> 0 -> -128 <= c <= 255 ->
  oct2dec (s ++ c :: 0 :: rest) = Some (8 * octal_value s + (c - 48)) /\
  (c = 32 -> oct2dec (s ++ c :: 0 :: rest) = Some (8 * octal_value s - 16)).
Proof.
  intros Hd Hn Hc Hchar.
  assert (oct2dec (s ++ c :: 0 :: rest)
          = Some (8 * octal_value s + (c - 48))) as Hval.
  { assert (Forall (fun d => d <> 0) (s ++ [c])) as Hall.
    { apply Forall_app. split; [|now repeat constructor].
      eapply Forall_impl; [exact Hd|]. intros d Hdig ->. discriminate. }
    replace (s ++ c :: 0 :: rest) with ((s ++ [c]) ++ 0 :: rest)
      by now rewrite <- app_assoc.
    unfold oct2dec. rewrite (cstr_app _ rest Hall), oct2dec_str_wrap.
    rewrite octal_value_app. cbn [octal_value length].
    pose proof (octal_value_digits s Hd) as Hv.
    assert (8 ^ Z.of_nat (length s) <= 8 ^ 19)
      by (apply Z.pow_le_mono_r; lia).
    f_equal. rewrite wrap64_small; [cbn; lia|].
    unfold LONG_MAX. change (8 ^ 19) with (2 ^ 57) in *. cbn. lia. }
  split; [exact Hval|]. intros ->. rewrite Hval. f_equal; lia.
Qed.

Lemma oct2dec_takes_padding_for_a_digit_witness :
  Forall (fun d => is_octal_digit d = true) [49; 50] /\
  oct2dec ([49; 50] ++ 32 :: 0 :: [55]) = Some (8 * octal_value [49; 50] - 16).
Proof.
  split.
  - repeat constructor.
  - refine (proj2 (oct2dec_takes_padding_for_a_digit [49; 50] [55] 32
                     _ _ _ _) eq_refl).
    + repeat constructor.
    + cbn [length]. lia.
    + discriminate.
    + lia.
Defined.

(** X13.  When none of the 12 bytes of the size member is NUL, the
    decoder does not stop at the end of the member: it goes on through
    the modification time that follows, up to the first NUL.  The size
    it returns is the value of the 12 bytes together with the characters
    read from the next member on. *)
Theorem oct2dec_runs_past_the_size_member (buffer : list Z) :
  length buffer = 512%nat ->
  Forall (fun c => c <> 0) (Header.bytes buffer Header.size) ->
  oct2dec (Header.at_field buffer Header.size)
  = match cstr (Header.at_field buffer Header.mtime) with
    | Some more =>
        Some (wrap64 (octal_value (Header.bytes buffer Header.size ++ more)))
    | None => None
    end.
Proof.
  intros Hlen Hfull.
  assert (Header.at_field buffer Header.size
          = Header.bytes buffer Header.size
            ++ Header.at_field buffer Header.mtime) as Hsplit.
  { unfold Header.bytes, Header.at_field.
    change (Header.offset Header.mtime) with (124 + 12)%nat.
    change (Header.offset Header.size) with 124%nat.
    change (Header.width Header.size) with 12%nat.
    now rewrite <- drop_drop, take_drop. }
  unfold oct2dec. rewrite Hsplit at 1. rewrite (cstr_prefix _ _ Hfull).
  destruct (cstr (Header.at_field buffer Header.mtime)) as [more|];
    [|reflexivity].
  now rewrite oct2dec_str_wrap.
Qed.

Lemma oct2dec_runs_past_the_size_member_witness :
  length full_size_header = 512%nat /\
  oct2dec (Header.at_field full_size_header Header.size)
  = Some (octal_value (replicate 12 49 ++ [50])).
Proof.
  split; [reflexivity|].
  rewrite (oct2dec_runs_past_the_size_member full_size_header eq_refl).
  - reflexivity.
  - vm_compute. repeat constructor; discriminate.
Defined.


(** ** The command line *)

Lemma parse_args_operand arg rest c :
  is_operand arg ->
  parse_args (arg :: rest) c
  = parse_args rest
      (if tflag c || xflag c
       then mkCmdline (fflag c) (tflag c) (xflag c) (vflag c) (filename c)
              (files c ++ [arg])
       else c).
Proof.
  intros Hop. cbn [parse_args].
  destruct (Z.eqb_spec (char_at arg 0) 45); [contradiction|].
  now destruct (tflag c || xflag c).
Qed.

(** Operands met before a mode option are dropped. *)
Lemma parse_args_operands_dropped ops : forall rest c,
  Forall is_operand ops ->
  tflag c || xflag c = false ->
  parse_args (ops ++ rest) c = parse_args rest c.
Proof.
  induction ops as [|arg ops IH]; intros rest c Hops Hmode; [reflexivity|].
  inversion Hops; subst. cbn [app].
  rewrite parse_args_operand, Hmode by assumption. now apply IH.
Qed.

(** Operands met after a mode option are collected in order. *)
Lemma parse_args_operands_kept ops : forall rest c,
  Forall is_operand ops ->
  tflag c || xflag c = true ->
  parse_args (ops ++ rest) c
  = parse_args rest
      (mkCmdline (fflag c) (tflag c) (xflag c) (vflag c) (filename c)
         (files c ++ ops)).
Proof.
  induction ops as [|arg ops IH]; intros rest c Hops Hmode.
  - cbn [app]. rewrite app_nil_r. now destruct c.
  - inversion Hops; subst. cbn [app].
    rewrite parse_args_operand, Hmode by assumption.
    rewrite IH by assumption.
    cbn [fflag tflag xflag vflag filename files].
    now rewrite <- app_assoc.
Qed.

(** Induction over a run of the argument loop that ends without a usage
    error: one case for the end of the arguments and one for each way
    the loop body can go on. *)
Lemma parse_args_rule (P : list (list Z) -> cmdline -> cmdline -> Prop) :
  (forall c, P [] c c) ->
  (forall arg file rest c c',
     char_at arg 0 = 45 -> char_at arg 1 = 102 ->
     P rest (mkCmdline true (tflag c) (xflag c) (vflag c) (Some file)
               (files c)) c' ->
     P (arg :: file :: rest) c c') ->
  (forall arg rest c c',
     char_at arg 0 = 45 -> char_at arg 1 <> 102 ->
     (exists c1,
        files c1 = files c /\ filename c1 = filename c /\
        fflag c1 = fflag c /\
        (tflag c = true -> tflag c1 = true) /\
        (xflag c = true -> xflag c1 = true) /\
        P rest c1 c') ->
     P (arg :: rest) c c') ->
  (forall arg rest c c',
     is_operand arg -> tflag c || xflag c = true ->
     parse_args rest
       (mkCmdline (fflag c) (tflag c) (xflag c) (vflag c) (filename c)
          (files c ++ [arg])) = inr c' ->
     P rest (mkCmdline (fflag c) (tflag c) (xflag c) (vflag c) (filename c)
               (files c ++ [arg])) c' ->
     P (arg :: rest) c c') ->
  (forall arg rest c c',
     is_operand arg -> tflag c || xflag c = false ->
     P rest c c' -> P (arg :: rest) c c') ->
  forall rest c c', parse_args rest c = inr c' -> P rest c c'.
Proof.
  intros Hnil Hf Hflag Hkept Hdropped rest.
  remember (length rest) as n eqn:Hn.
  assert (length rest <= n)%nat as Hle by lia. clear Hn.
  revert rest Hle.
  induction n as [|n IH]; intros rest Hle c c' Hparse.
  - destruct rest; [|cbn in Hle; lia]. injection Hparse as <-. apply Hnil.
  - destruct rest as [|arg rest]; [injection Hparse as <-; apply Hnil|].
    cbn [length] in Hle. cbn [parse_args] in Hparse.
    destruct (Z.eqb_spec (char_at arg 0) 45) as [Hdash|Hop].
    + destruct (Z.eqb_spec (char_at arg 1) 102) as [Hopt|Hnf].
      { destruct rest as [|file rest]; [discriminate|].
        cbn [length] in Hle.
        apply Hf; try assumption. apply IH; [lia | exact Hparse]. }
      apply Hflag; try assumption.
      destruct (char_at arg 1 =? 116).
      { exists (mkCmdline (fflag c) true (xflag c) (vflag c) (filename c)
                  (files c)).
        do 3 (split; [reflexivity|]). do 2 (split; [auto|]).
        apply IH; [lia | exact Hparse]. }
      destruct (char_at arg 1 =? 120).
      { exists (mkCmdline (fflag c) (tflag c) true (vflag c) (filename c)
                  (files c)).
        do 3 (split; [reflexivity|]). do 2 (split; [auto|]).
        apply IH; [lia | exact Hparse]. }
      destruct (char_at arg 1 =? 118); [|discriminate].
      exists (mkCmdline (fflag c) (tflag c) (xflag c) true (filename c)
                (files c)).
      do 3 (split; [reflexivity|]). do 2 (split; [auto|]).
      apply IH; [lia | exact Hparse].
    + destruct (tflag c || xflag c) eqn:Hmode.
      * apply Hkept; try assumption. apply IH; [lia | exact Hparse].
      * apply Hdropped; try assumption. apply IH; [lia | exact Hparse].
Qed.

Lemma parse_args_mode_kept rest c c' :
  parse_args rest c = inr c' ->
  (tflag c = true -> tflag c' = true) /\
  (xflag c = true -> xflag c' = true).
Proof.
  revert rest c c'. apply parse_args_rule.
  - tauto.
  - intros arg file rest c c' _ _ IH. exact IH.
  - intros arg rest c c' _ _ (c1 & _ & _ & _ & Ht & Hx & IH). tauto.
  - intros arg rest c c' _ _ _ IH. exact IH.
  - intros arg rest c c' _ _ IH. exact IH.
Qed.

Lemma parse_args_added rest c c' :
  parse_args rest c = inr c' ->
  exists added,
    files c' = files c ++ added /\ sublist added rest /\
    Forall is_operand added.
Proof.
  revert rest c c'. apply parse_args_rule.
  - intros c. exists []. rewrite app_nil_r. repeat split; constructor.
  - intros arg file rest c c' _ _ (added & Ha & Hs & Ho).
    exists added. repeat split; try assumption.
    now do 2 apply sublist_cons.
  - intros arg rest c c' _ _
      (c1 & Hfiles & _ & _ & _ & _ & added & Ha & Hs & Ho).
    exists added. rewrite <- Hfiles. repeat split; try assumption.
    now apply sublist_cons.
  - intros arg rest c c' Hop _ _ (added & Ha & Hs & Ho).
    cbn [files] in Ha. exists (arg :: added).
    rewrite Ha, <- app_assoc. repeat split.
    + now apply sublist_skip.
    + now constructor.
  - intros arg rest c c' _ _ (added & Ha & Hs & Ho).
    exists added. repeat split; try assumption. now apply sublist_cons.
Qed.

Lemma parse_args_files_need_mode rest c c' :
  parse_args rest c = inr c' ->
  files c' <> files c -> tflag c' || xflag c' = true.
Proof.
  revert rest c c'.
  apply (parse_args_rule
           (fun _ c c' =>
              files c' <> files c -> tflag c' || xflag c' = true)).
  - congruence.
  - intros arg file rest c c' _ _ IH. exact IH.
  - intros arg rest c c' _ _ (c1 & Hfiles & _ & _ & _ & _ & IH).
    now rewrite <- Hfiles.
  - intros arg rest c c' _ Hmode Hrun _ _.
    destruct (parse_args_mode_kept _ _ _ Hrun) as [Ht Hx].
    cbn [tflag xflag] in Ht, Hx.
    apply orb_true_iff in Hmode as [Hm|Hm];
      [rewrite (Ht Hm) | rewrite (Hx Hm), orb_true_r]; reflexivity.
  - intros arg rest c c' _ _ IH. exact IH.
Qed.

Lemma parse_args_filename_set rest c c' :
  parse_args rest c = inr c' ->
  (fflag c = true -> filename c <> None) ->
  fflag c' = true -> filename c' <> None.
Proof.
  revert rest c c'.
  apply (parse_args_rule
           (fun _ c c' =>
              (fflag c = true -> filename c <> None) ->
              fflag c' = true -> filename c' <> None)).
  - tauto.
  - intros arg file rest c c' _ _ IH _. apply IH. discriminate.
  - intros arg rest c c' _ _ (c1 & _ & Hname & Hflag & _ & _ & IH).
    now rewrite Hname, Hflag in IH.
  - intros arg rest c c' _ _ _ IH. exact IH.
  - intros arg rest c c' _ _ IH. exact IH.
Qed.

Lemma parse_args_filename_from rest c c' :
  parse_args rest c = inr c' ->
  forall name, filename c' = Some name ->
    filename c = Some name \/ name ∈ rest.
Proof.
  revert rest c c'.
  apply (parse_args_rule
           (fun rest c c' =>
              forall name, filename c' = Some name ->
                filename c = Some name \/ name ∈ rest)).
  - intros c name Hn. now left.
  - intros arg file rest c c' _ _ IH name Hn.
    destruct (IH name Hn) as [Hold|Hin].
    + injection Hold as <-. right.
      apply list_elem_of_further, list_elem_of_here.
    + right. now do 2 apply list_elem_of_further.
  - intros arg rest c c' _ _ (c1 & _ & Hname & _ & _ & _ & IH) name Hn.
    destruct (IH name Hn) as [Hold|Hin].
    + left. now rewrite <- Hname.
    + right. now apply list_elem_of_further.
  - intros arg rest c c' _ _ _ IH name Hn.
    destruct (IH name Hn) as [Hold|Hin];
      [now left | right; now apply list_elem_of_further].
  - intros arg rest c c' _ _ IH name Hn.
    destruct (IH name Hn) as [Hold|Hin];
      [now left | right; now apply list_elem_of_further].
Qed.

(** X14.  What the argument loop collects.  When the loop ends without
    a usage error, the names it has added to [files_args] are arguments
    of the command line, in their order, none of them starting with
    '-'; there are at most as many as arguments, so the array of [argc]
    pointers is never overrun; names are only collected once [-t] or
    [-x] has been seen; and when [-f] has been seen the archive name is
    set, to an argument of the command line, so [fopen] is never handed
    the uninitialised pointer. *)
Theorem parse_args_collects_operands (rest : list (list Z)) (c c' : cmdline) :
  parse_args rest c = inr c' ->
  (exists added,
     files c' = files c ++ added /\
     sublist added rest /\
     Forall is_operand added) /\
  (length (files c') <= length (files c) + length rest)%nat /\
  (files c' <> files c -> tflag c' || xflag c' = true) /\
  ((fflag c = true -> filename c <> None) ->
   fflag c' = true -> filename c' <> None) /\
  (forall name, filename c' = Some name ->
     filename c = Some name \/ name ∈ rest).
Proof.
  intros Hparse.
  pose proof (parse_args_added _ _ _ Hparse) as Hadded.
  split; [exact Hadded|].
  split.
  { destruct Hadded as (added & -> & Hs & _).
    apply sublist_length in Hs. rewrite length_app. lia. }
  split; [exact (parse_args_files_need_mode _ _ _ Hparse)|].
  split; [exact (parse_args_filename_set _ _ _ Hparse)|].
  exact (parse_args_filename_from _ _ _ Hparse).
Qed.

Lemma parse_args_collects_operands_witness :
  let args := [[97]; opt 116; [98]; opt 102; [45; 120]; [99]] in
  let c' := mkCmdline true true false false (Some [45; 120]) [[98]; [99]] in
  parse_args args no_flags = inr c' /\
  (length (files c') <= length (files no_flags) + length args)%nat.
Proof.
  intros args c'. split; [reflexivity|].
  apply (parse_args_collects_operands args no_flags c' eq_refl).
Defined.

(** X15.  [main] reaches the archive only in one way: when it does not
    stop with a usage error, it walks an archive that [fopen] opened
    under a name taken from the command line, in listing mode if [-t]
    was given and in extraction mode otherwise, never both, and the
    names it passes on are operands of the command line in their order.
    In particular the branch in which the archive name would be
    uninitialised is never taken. *)
Theorem main_walks_the_named_archive (fuel : nat) (argv : list (list Z))
    (archives : list Z -> option (list Z)) (creatable : list Z -> bool)
    (r : res Z) :
  main fuel argv archives creatable = inr r ->
  exists c name archive,
    parse_args (tail argv) no_flags = inr c /\
    xflag c = negb (tflag c) /\
    name ∈ tail argv /\
    archives name = Some archive /\
    sublist (files c) (tail argv) /\
    Forall is_operand (files c) /\
    r = main_walk fuel (files c) (if tflag c then LIST else EXTRACT)
          (vflag c) (start archive creatable).
Proof.
  unfold main. destruct (length argv <? 2)%nat; [discriminate|].
  destruct (parse_args (tail argv) no_flags) as [e|c] eqn:Hparse;
    [discriminate|].
  destruct (fflag c) eqn:Hf; [|discriminate]. cbn [negb].
  destruct (Nat.eqb_spec (Nat.b2n (tflag c) + Nat.b2n (xflag c)) 1)
    as [Hone|]; [|discriminate]. cbn [negb].
  pose proof (parse_args_filename_set _ _ _ Hparse ltac:(discriminate) Hf)
    as Hset.
  destruct (filename c) as [name|] eqn:Hname; [|contradiction].
  destruct (archives name) as [archive|] eqn:Hopen; [|discriminate].
  intros [= <-]. exists c, name, archive.
  destruct (parse_args_added _ _ _ Hparse) as (added & Hfiles & Hsub & Hops).
  cbn [files no_flags app] in Hfiles. subst added.
  destruct (parse_args_filename_from _ _ _ Hparse name Hname) as [Hno|Hin];
    [discriminate|].
  repeat split; try assumption.
  now destruct (tflag c), (xflag c).
Qed.

Lemma main_walks_the_named_archive_witness :
  let argv := [[109]; opt 116; opt 102; [120]; [97]] in
  let archives := fun name : list Z =>
    if bool_decide (name = [120]) then Some stranded_archive else None in
  main 10 argv archives (fun _ => true)
    = inr (main_walk 10 [[97]] LIST false
             (start stranded_archive (fun _ => true))) /\
  exists c name archive,
    parse_args (tail argv) no_flags = inr c /\
    xflag c = negb (tflag c) /\
    name ∈ tail argv /\
    archives name = Some archive /\
    sublist (files c) (tail argv) /\
    Forall is_operand (files c) /\
    main_walk 10 [[97]] LIST false (start stranded_archive (fun _ => true))
    = main_walk 10 (files c) (if tflag c then LIST else EXTRACT)
        (vflag c) (start archive (fun _ => true)).
Proof.
  intros argv archives. split; [reflexivity|].
  apply (main_walks_the_named_archive 10 argv archives (fun _ => true)).
  reflexivity.
Defined.

(** X16.  The usual command line.  With the operands [names] given
    after the options, [mytar -t|-x [-v] -f path names...] walks the
    archive opened under [path] for exactly these names, listing under
    [-t], extracting under [-x], verbosely under [-v].  Operands given
    before the [-t] or [-x] option are dropped without a message, and
    the argument after [-f] is taken as the archive name whatever it
    looks like. *)
Theorem main_command_line (fuel : nat) (prog : list Z)
    (before names : list (list Z)) (extract verbose : bool)
    (path archive : list Z) (archives : list Z -> option (list Z))
    (creatable : list Z -> bool) :
  Forall is_operand before ->
  Forall is_operand names ->
  archives path = Some archive ->
  main fuel
    (prog :: before ++ [opt (if extract then 120 else 116)]
          ++ (if verbose then [opt 118] else [])
          ++ [opt 102; path] ++ names)
    archives creatable
  = inr (main_walk fuel names (if extract then EXTRACT else LIST) verbose
           (start archive creatable)).
Proof.
  intros Hbefore Hnames Hopen. unfold main.
  assert ((length (prog :: before
                   ++ [opt (if extract then 120 else 116)]
                   ++ (if verbose then [opt 118] else [])
                   ++ [opt 102; path] ++ names) <? 2)%nat = false) as ->.
  { apply Nat.ltb_ge. cbn [length]. rewrite !length_app. cbn [length]. lia. }
  cbn [tail].
  rewrite parse_args_operands_dropped by (assumption || reflexivity).
  assert (parse_args
            ([opt (if extract then 120 else 116)]
             ++ (if verbose then [opt 118] else [])
             ++ [opt 102; path] ++ names) no_flags
          = inr (mkCmdline true (negb extract) extract verbose (Some path)
                   names)) as ->.
  { destruct extract, verbose; cbn [app parse_args opt char_at nth Z.eqb
      Pos.eqb no_flags fflag tflag xflag vflag filename files negb];
      rewrite <- (app_nil_r names) at 1;
      rewrite parse_args_operands_kept by (assumption || reflexivity);
      reflexivity. }
  cbn [fflag tflag xflag vflag filename files negb].
  rewrite Hopen. now destruct extract.
Qed.

Lemma main_command_line_witness :
  Forall is_operand [[122]] /\
  Forall is_operand [[97]; [98]] /\
  main 10
    ([109] :: [[122]] ++ [opt (if true then 120 else 116)]
           ++ (if true then [opt 118] else [])
           ++ [opt 102; [45; 116]] ++ [[97]; [98]])
    (fun name => if bool_decide (name = [45; 116])
                 then Some stranded_archive else None)
    (fun _ => true)
  = inr (main_walk 10 [[97]; [98]] (if true then EXTRACT else LIST) true
           (start stranded_archive (fun _ => true))).
Proof.
  assert (forall ops : list (list Z),
            Forall (fun a => (char_at a 0 =? 45) = false) ops ->
            Forall is_operand ops) as Hops.
  { intros ops H. eapply Forall_impl; [exact H|].
    intros a Ha. unfold is_operand. now apply Z.eqb_neq. }
  assert (Forall is_operand [[122]]) as H1
    by (apply Hops; repeat constructor).
  assert (Forall is_operand [[97]; [98]]) as H2
    by (apply Hops; repeat constructor).
  split; [exact H1|]. split; [exact H2|].
  apply (main_command_line 10 [109] [[122]] [[97]; [98]] true true
           [45; 116] stranded_archive _ (fun _ => true) H1 H2).
  reflexivity.
Defined.


(** ** Exit statuses *)

Lemma exits_with_2_bind {A B} (c : M A) (k : A -> M B) w :
  exits_with_2 (c w) ->
  (forall a w1, exits_with_2 (k a w1)) ->
  exits_with_2 (bind c k w).
Proof.
  intros Hc Hk. unfold bind. destruct (c w); cbn in *; auto.
Qed.

Lemma extract_loop_status fuel : forall fout i blocks bytes w,
  exits_with_2 (extract_loop fuel fout i blocks bytes w).
Proof.
  induction fuel as [|fuel IH]; intros fout i blocks bytes w; [exact I|].
  cbn [extract_loop]. destruct (i <? blocks); [|exact I].
  apply exits_with_2_bind.
  - unfold fread_block. now destruct (_ <=? _)%nat.
  - intros [buffer|] w1; [|reflexivity].
    apply exits_with_2_bind; [|intros; apply IH].
    destruct (wrap32 (i + 1) =? blocks); unfold fwrite;
      now destruct (_ && _).
Qed.

Lemma extract_file_status buffer w : exits_with_2 (extract_file buffer w).
Proof.
  unfold extract_file.
  destruct (cstr (Header.at_field buffer Header.name)); [|exact I].
  apply exits_with_2_bind.
  - unfold fopen_w. now destruct (can_create w _).
  - intros [fout|] w1; [|reflexivity].
    destruct (oct2dec (Header.at_field buffer Header.size)); [|exact I].
    apply exits_with_2_bind; [apply extract_loop_status | intros; exact I].
Qed.

Section statuses.

Variables (archive_size : Z) (files_args : list (list Z))
          (action : mode) (verbose : bool).

Lemma handle_entry_status buffer l w :
  exits_with_2 (handle_entry files_args action verbose buffer l w).
Proof.
  unfold handle_entry.
  destruct (oct2dec (Header.at_field buffer Header.size)); [|exact I].
  apply exits_with_2_bind.
  { unfold is_tar_archive. now destruct (strcmp_eq _ MAGIC) as [[|]|]. }
  intros _ w1. apply exits_with_2_bind.
  { unfold is_regular_file. destruct (strcmp_eq _ REG_FILE) as [[|]|];
      try exact I.
    now destruct (Header.at_field buffer Header.typeflag). }
  intros _ w2.
  destruct (cstr (Header.at_field buffer Header.name)); [|exact I].
  destruct (mark_file _ _ _) as [found found'].
  apply exits_with_2_bind.
  { now destruct (_ && _). }
  intros _ w3. apply exits_with_2_bind; [|intros; exact I].
  destruct (is_extract action && _).
  - apply extract_file_status.
  - unfold fseek_cur. now destruct (_ && _).
Qed.

Lemma loop_body_status l w :
  exits_with_2 (loop_body archive_size files_args action verbose l w).
Proof.
  unfold loop_body. apply exits_with_2_bind.
  - unfold fread_block. now destruct (_ <=? _)%nat.
  - intros [buffer|] w1; [|exact I].
    destruct (is_empty_block buffer).
    + now destruct (negb _).
    + unfold process_entry. apply exits_with_2_bind;
        [apply handle_entry_status|].
      intros e w2. apply exits_with_2_bind; [|intros; exact I].
      unfold check_position, bind, ftell. now destruct (_ >? _).
Qed.

Lemma while_loop_status fuel : forall l w,
  exits_with_2 (while_loop archive_size files_args action verbose fuel l w).
Proof.
  induction fuel as [|fuel IH]; intros l w; [exact I|].
  cbn [while_loop]. apply exits_with_2_bind; [apply loop_body_status|].
  intros [l'|l'|l'] w1; try exact I. apply IH.
Qed.

Lemma report_missing_loop_status rest : forall i files_found was_found w,
  exits_with_2 (report_missing_loop i rest files_found was_found w).
Proof.
  induction rest as [|arg rest IH]; intros i files_found was_found w;
    [exact I|].
  cbn [report_missing_loop]. destruct (negb _); [|apply IH].
  apply exits_with_2_bind; [exact I | intros; apply IH].
Qed.

Lemma read_archive_status fuel w :
  exits_with_2 (read_archive archive_size files_args action verbose fuel w).
Proof.
  unfold read_archive. apply exits_with_2_bind; [apply while_loop_status|].
  intros l w1. unfold after_loop. apply exits_with_2_bind.
  { now destruct (_ && _). }
  intros _ w2. apply exits_with_2_bind.
  { apply report_missing_loop_status. }
  intros [|] w3; reflexivity.
Qed.

End statuses.

(** X17.  Whatever the command line and the archive, a run of [main]
    that gets past the command line and ends has exit status 0 or 2:
    every fatal error of the walk, of the two header checks and of the
    extraction exits with 2, and a run that returns from [main] returns
    0.  (The usage errors, the [inl] results, are each an [errx (2, _)]
    in the source.) *)
Theorem exit_status_is_0_or_2 (fuel : nat) (argv : list (list Z))
    (archives : list Z -> option (list Z)) (creatable : list Z -> bool) :
  match main fuel argv archives creatable with
  | inl _ => True
  | inr (Ret status _) => status = 0
  | inr (Exit status _) => status = 2
  | inr _ => True
  end.
Proof.
  unfold main. destruct (length argv <? 2)%nat; [exact I|].
  destruct (parse_args (tail argv) no_flags) as [e|c]; [exact I|].
  destruct (negb (fflag c)); [exact I|].
  destruct (negb _); [exact I|].
  destruct (filename c) as [name|]; [|exact I].
  destruct (archives name) as [archive|]; [|exact I].
  unfold main_walk, bind, get_archive_size.
  pose proof (read_archive_status (Z.of_nat (length archive)) (files c)
                (if tflag c then LIST else EXTRACT) (vflag c) fuel
                (set_fin (mkFILE (contents (fin (start archive creatable))) 0)
                   (start archive creatable))) as Hst.
  cbn [start fin contents] in *.
  destruct (read_archive _ _ _ _ _ _) as [[] w|status w| |];
    cbn in *; auto.
Qed.

(** ** Listing is read-only *)

Lemma disk_untouched_bind {A B} (c : M A) (k : A -> M B) w :
  disk_untouched w (c w) ->
  (forall a w1, disk w1 = disk w -> disk_untouched w1 (k a w1)) ->
  disk_untouched w (bind c k w).
Proof.
  intros Hc Hk. unfold bind.
  destruct (c w) as [a w1|status w1| |]; cbn in *; auto.
  specialize (Hk a w1 Hc).
  destruct (k a w1); cbn in *; congruence.
Qed.

Section listing.

Variables (archive_size : Z) (files_args : list (list Z)) (verbose : bool).

Lemma handle_entry_listing buffer l w :
  disk_untouched w (handle_entry files_args LIST verbose buffer l w).
Proof.
  unfold handle_entry.
  destruct (oct2dec (Header.at_field buffer Header.size)); [|exact I].
  apply disk_untouched_bind.
  { unfold is_tar_archive. now destruct (strcmp_eq _ MAGIC) as [[|]|]. }
  intros _ w1 _. apply disk_untouched_bind.
  { unfold is_regular_file. destruct (strcmp_eq _ REG_FILE) as [[|]|];
      try reflexivity.
    now destruct (Header.at_field buffer Header.typeflag). }
  intros _ w2 _.
  destruct (cstr (Header.at_field buffer Header.name)); [|exact I].
  destruct (mark_file _ _ _) as [found found'].
  apply disk_untouched_bind.
  { now destruct (_ && _). }
  intros _ w3 _. cbn [is_extract andb].
  apply disk_untouched_bind; [|intros; reflexivity].
  unfold fseek_cur. now destruct (_ && _).
Qed.

Lemma loop_body_listing l w :
  disk_untouched w (loop_body archive_size files_args LIST verbose l w).
Proof.
  unfold loop_body. apply disk_untouched_bind.
  - unfold fread_block. now destruct (_ <=? _)%nat.
  - intros [buffer|] w1 _; [|reflexivity].
    destruct (is_empty_block buffer).
    + now destruct (negb _).
    + unfold process_entry. apply disk_untouched_bind;
        [apply handle_entry_listing|].
      intros e w2 _. apply disk_untouched_bind; [|intros; reflexivity].
      unfold check_position, bind, ftell. now destruct (_ >? _).
Qed.

Lemma while_loop_listing fuel : forall l w,
  disk_untouched w (while_loop archive_size files_args LIST verbose fuel l w).
Proof.
  induction fuel as [|fuel IH]; intros l w; [exact I|].
  cbn [while_loop]. apply disk_untouched_bind; [apply loop_body_listing|].
  intros [l'|l'|l'] w1 _; try reflexivity. apply IH.
Qed.

Lemma report_missing_loop_disk rest : forall i files_found was_found w,
  disk_untouched w (report_missing_loop i rest files_found was_found w).
Proof.
  induction rest as [|arg rest IH]; intros i files_found was_found w;
    [reflexivity|].
  cbn [report_missing_loop]. destruct (negb _); [|apply IH].
  apply disk_untouched_bind; [reflexivity|]. intros _ w1 _. apply IH.
Qed.

End listing.

(** X18.  A listing never creates or changes a file: whatever the
    archive holds, well formed or not, and however the run ends, with
    status 0 or with a fatal error, the files on disk are the same
    after [mytar -t] as before. *)
Theorem listing_writes_no_file (fuel : nat) (files_args : list (list Z))
    (verbose : bool) (w : world) :
  disk_untouched w (main_walk fuel files_args LIST verbose w).
Proof.
  unfold main_walk. apply disk_untouched_bind; [reflexivity|].
  intros archive_size w1 _.
  apply disk_untouched_bind; [|intros; reflexivity].
  unfold read_archive. apply disk_untouched_bind; [apply while_loop_listing|].
  intros l w2 _. unfold after_loop. apply disk_untouched_bind.
  { now destruct (_ && _). }
  intros _ w3 _. apply disk_untouched_bind.
  { apply report_missing_loop_disk. }
  intros [|] w4 _; reflexivity.
Qed.


(** ** Extraction of requested names *)

Lemma wanted_requested_entries files_args es :
  wanted files_args (map e_name es)
  = map e_name (requested_entries files_args es).
Proof.
  unfold wanted, requested_entries.
  induction es as [|e es IH]; [reflexivity|].
  cbn [map List.filter].
  destruct (bool_decide (e_name e ∈ files_args)); cbn [map]; now rewrite IH.
Qed.

Section filtered_extraction.

Variables (files_args : list (list Z)) (verbose : bool).

Hypothesis requested_once : NoDup files_args.
Hypothesis some_requested : files_args <> [].

Lemma walk_entries_filtered_extract es : forall seen l w,
  Forall entry_ok es ->
  NoDup (map e_name es) ->
  (forall e, e ∈ es -> e_name e ∉ seen) ->
  files_found l = flags_for files_args seen ->
  files_found (fst (walk_entries files_args EXTRACT verbose es l w))
  = flags_for files_args (rev (map e_name es) ++ seen) /\
  snd (walk_entries files_args EXTRACT verbose es l w)
  = mkWorld
      (mkFILE (contents (fin w))
         (position (fin w) + length (archive_bytes es)))
      (console w
       ++ if verbose
          then map Stdout (wanted files_args (map e_name es)) else [])
      (extracted (requested_entries files_args es) (disk w))
      (can_create w).
Proof.
  induction es as [|e es IH]; intros seen l w Hok Hnd Hfresh Hflags.
  - cbn [walk_entries fst snd map rev app archive_bytes concat length wanted
         List.filter requested_entries extracted fold_left].
    split; [exact Hflags|].
    apply world_eq; try reflexivity.
    + rewrite Nat.add_0_r. now destruct (fin w).
    + destruct verbose; now rewrite app_nil_r.
  - inversion Hok as [|? ? He Hes]; subst.
    cbn [map] in Hnd. apply NoDup_cons in Hnd as [Hnew Hnd].
    assert (e_name e ∉ seen) as Hfr by (apply Hfresh, list_elem_of_here).
    pose proof (mark_file_fresh files_args seen (e_name e) requested_once Hfr)
      as Hmark.
    cbn [walk_entries].
    destruct (IH (e_name e :: seen) (locals_after files_args e l)
                (world_after files_args EXTRACT verbose e l w) Hes Hnd)
      as [Hf Hw].
    + intros e' He'. rewrite not_elem_of_cons. split.
      * intros Heq. apply Hnew. rewrite <- Heq.
        apply list_elem_of_In, in_map, list_elem_of_In, He'.
      * apply Hfresh. now apply list_elem_of_further.
    + unfold locals_after. cbn [files_found]. now rewrite Hflags, Hmark.
    + split.
      * rewrite Hf. cbn [map rev]. now rewrite <- app_assoc.
      * rewrite Hw. unfold world_after, after_entry, selected.
        rewrite Hflags, Hmark. cbn [fst snd is_list is_extract orb andb
          fin contents position console disk can_create].
        assert ((files_count files_args =? 0) = false) as ->.
        { apply Z.eqb_neq. unfold files_count.
          destruct files_args; [congruence | cbn [length]; lia]. }
        cbn [orb].
        rewrite archive_bytes_cons, length_app, (length_entry_bytes e He).
        cbn [map wanted List.filter requested_entries].
        f_equal.
        -- f_equal. lia.
        -- destruct (bool_decide (e_name e ∈ files_args)), verbose;
             cbn [andb map]; rewrite <- ?app_assoc; reflexivity.
        -- destruct (bool_decide (e_name e ∈ files_args)); reflexivity.
Qed.

(** X19.  Extraction with requested names, each requested once, into
    an empty working directory, on an archive of well-formed entries
    with distinct names closed by two zero blocks, when the requested
    entries have plain names (no '/', so that two names denote one file
    only if they are equal) and their files can be created: exactly the
    requested entries are extracted, each to its payload, and their
    names are printed under [-v] in archive order;
    the data of the other entries is skipped.  The exit status is 0
    when every requested name is in the archive; otherwise the requested
    entries that exist are still extracted, each missing name gets a
    "Not found in archive" line, and the exit status is 2. *)
Theorem extraction_of_requested_names (es : list entry) (rest : list Z)
    (creatable : list Z -> bool) (fuel : nat) :
  Forall entry_ok es ->
  NoDup (map e_name es) ->
  Forall (fun e => plain_name (e_name e) = true)
    (requested_entries files_args es) ->
  Forall (fun e => creatable (e_name e) = true)
    (requested_entries files_args es) ->
  Z.of_nat (length (archive_bytes es ++ zero_block ++ zero_block ++ rest))
    <= LONG_MAX ->
  (length es + 2 <= fuel)%nat ->
  let archive := archive_bytes es ++ zero_block ++ zero_block ++ rest in
  let done :=
    mkWorld (mkFILE archive (length (archive_bytes es) + 1024))
      (if verbose
       then map Stdout (wanted files_args (map e_name es)) else [])
      (extracted (requested_entries files_args es) ∅) creatable in
  main_walk fuel files_args EXTRACT verbose (start archive creatable)
  = match absent files_args (map e_name es) with
    | [] => Ret 0 done
    | names =>
        Exit 2 (emit_all (not_found_lines names
                          ++ [Stderr msg_exiting_failure]) done)
    end.
Proof.
  intros Hok Hnd _ Hcan Hfit Hfuel archive done.
  rewrite main_walk_start.
  replace fuel with (length es + S (S (fuel - length es - 2)))%nat by lia.
  rewrite (while_loop_entries_selected _ files_args EXTRACT verbose es []
             (zero_block ++ zero_block ++ rest) _ _ _ Hok);
    try reflexivity; try assumption;
    [| subst archive; rewrite !length_app; cbn [length]; lia |].
  2:{ intros _. cbn [start can_create]. clear -Hcan some_requested.
      unfold requested_entries in Hcan.
      induction es as [|e es' IH]; [constructor|].
      cbn [List.filter] in Hcan.
      destruct (bool_decide (e_name e ∈ files_args)) eqn:Hin.
      - inversion Hcan; subst. constructor; [auto | now apply IH].
      - constructor; [|now apply IH].
        intros [Hnil|Hreq]; [contradiction|].
        apply bool_decide_eq_false_1 in Hin. contradiction. }
  destruct (walk_entries_filtered_extract es [] (initial_locals files_args)
              (start archive creatable) Hok Hnd)
    as [Hf Hw].
  { intros e _ H. inversion H. }
  { symmetry. apply flags_for_nil. }
  destruct (walk_entries_stream files_args EXTRACT verbose es
              (initial_locals files_args) (start archive creatable) Hok)
    as (_ & _ & H1 & H2).
  rewrite Hw.
  rewrite (while_loop_end_marker _ files_args EXTRACT verbose _
             (archive_bytes es) rest) by (reflexivity || assumption).
  rewrite after_loop_spec
    by (cbn [files_found]; rewrite Hf; unfold flags_for; apply length_map).
  cbn [first_empty second_empty andb negb files_found].
  rewrite Hf, missing_flags_for.
  assert (List.filter
            (fun a => negb (bool_decide (a ∈ rev (map e_name es) ++ [])))
            files_args
          = absent files_args (map e_name es)) as ->.
  { unfold absent. apply filter_ext. intros a. do 2 f_equal.
    apply bool_decide_ext.
    rewrite app_nil_r, !list_elem_of_In. symmetry. apply in_rev. }
  destruct (absent files_args (map e_name es)) as [|name names].
  - rewrite emit_all_nil. reflexivity.
  - reflexivity.
Qed.

End filtered_extraction.

Lemma extraction_of_requested_names_witness :
  NoDup [[98]; [99]] /\
  Forall entry_ok [entry_a; entry_b] /\
  main_walk 4 [[98]; [99]] EXTRACT true
    (start (archive_bytes [entry_a; entry_b] ++ zero_block ++ zero_block
            ++ []) (fun name => bool_decide (name = [98])))
  = Exit 2
      (mkWorld
         (mkFILE (archive_bytes [entry_a; entry_b] ++ zero_block
                  ++ zero_block ++ [])
            (length (archive_bytes [entry_a; entry_b]) + 1024))
         [Stdout [98]; Stderr (msg_not_found [99]);
          Stderr msg_exiting_failure]
         (<[ [98] := replicate 513 7 ]> ∅)
         (fun name => bool_decide (name = [98]))).
Proof.
  assert (forall x y : list Z, x <> y -> NoDup [x; y]) as Hpair.
  { intros x y Hxy. apply NoDup_cons. split; [|apply NoDup_singleton].
    intros H. apply list_elem_of_singleton in H. contradiction. }
  assert (NoDup [[98]; [99]]) as Hargs by (apply Hpair; discriminate).
  assert (NoDup (map e_name [entry_a; entry_b])) as Hnames
    by (apply Hpair; discriminate).
  split; [exact Hargs|]. split; [exact sample_entries_ok|].
  apply (extraction_of_requested_names [[98]; [99]] true Hargs
           ltac:(discriminate) [entry_a; entry_b] []
           (fun name => bool_decide (name = [98])) 4
           sample_entries_ok Hnames).
  - vm_compute. repeat constructor.
  - vm_compute. repeat constructor.
  - vm_compute. discriminate.
  - cbn [length]. lia.
Defined.


(** ** Block alignment *)

Lemma extract_loop_advance fuel : forall fout i blocks bytes w u w',
  extract_loop fuel fout i blocks bytes w = Ret u w' ->
  exists k : nat, position (fin w') = (position (fin w) + 512 * k)%nat.
Proof.
  induction fuel as [|fuel IH]; intros fout i blocks bytes w u w' H;
    [discriminate|].
  cbn [extract_loop] in H.
  destruct (i <? blocks); [|injection H as <- <-; exists 0%nat; lia].
  apply bind_Ret in H as (r & w1 & Hr & H).
  destruct r as [buffer|]; [|discriminate].
  apply fread_block_Some in Hr as (_ & _ & _ & ->).
  apply bind_Ret in H as ([] & w2 & Hw & H).
  apply IH in H as [k Hk].
  assert (fin w2 = mkFILE (contents (fin w)) (position (fin w) + 512)) as Hf.
  { destruct (wrap32 (i + 1) =? blocks); unfold fwrite in Hw;
      destruct (_ && _); try discriminate; now injection Hw as <-. }
  exists (S k). rewrite Hk, Hf. cbn [position]. lia.
Qed.

Lemma extract_file_advance buffer w u w' :
  extract_file buffer w = Ret u w' ->
  exists k : nat, position (fin w') = (position (fin w) + 512 * k)%nat.
Proof.
  unfold extract_file.
  destruct (cstr (Header.at_field buffer Header.name)) as [name|];
    [|discriminate].
  intros H. apply bind_Ret in H as (fout & w1 & Ho & H).
  assert (fin w1 = fin w) as Hf.
  { unfold fopen_w in Ho.
    destruct (can_create w name); injection Ho as <- <-; reflexivity. }
  destruct fout as [fout|]; [|discriminate].
  destruct (oct2dec (Header.at_field buffer Header.size)) as [file_size|];
    [|discriminate].
  apply bind_Ret in H as ([] & w2 & Hl & H).
  injection H as <- <-. apply extract_loop_advance in Hl as [k Hk].
  exists k. now rewrite Hk, Hf.
Qed.

Lemma fseek_cur_aligned blocks w u w' :
  fseek_cur (wrap64 (BLOCK_SIZE * blocks)) w = Ret u w' ->
  block_aligned w -> block_aligned w'.
Proof.
  unfold fseek_cur, block_aligned, BLOCK_SIZE. intros H [k Hk].
  destruct (wrap64_spec (512 * blocks)) as [j Hj].
  destruct (Z.leb_spec 0
              (Z.of_nat (position (fin w)) + wrap64 (512 * blocks)));
    cbn [andb] in H.
  - destruct (_ <=? LONG_MAX); injection H as <- <-; cbn [fin set_fin position].
    + exists (Z.to_nat (Z.of_nat k + blocks + j * 2 ^ 55)).
      rewrite Hj, Hk in *.
      change (2 ^ 64) with (512 * 2 ^ 55) in *. lia.
    + now exists k.
  - injection H as <- <-. now exists k.
Qed.

(** X20.  The walk reads headers only at block boundaries.  In a walk
    started on a block boundary, every state in which the next header
    is expected has the stream on a multiple of 512 bytes, whatever the
    archive holds: reads take whole blocks, extraction takes whole
    blocks, and a skip moves by a multiple of 512 or, when it fails,
    not at all. *)
Theorem headers_are_read_at_block_boundaries (archive_size : Z)
    (files_args : list (list Z)) (action : mode) (verbose : bool)
    (w0 : world) (l : locals) (w : world) :
  block_aligned w0 ->
  expects_header archive_size files_args action verbose w0 l w ->
  block_aligned w.
Proof.
  intros Hstart Hreach.
  induction Hreach as [|l w l' w' _ IH Hstep]; [exact Hstart|].
  destruct IH as [k Hk].
  apply loop_body_Ret in Hstep
    as [[? _]|[(buffer & Hr & _)|(buffer & w1 & Hr & _ & H)]];
    [discriminate| |].
  - apply fread_block_Some in Hr as (_ & _ & _ & ->).
    exists (S k). cbn [fin set_fin position]. lia.
  - apply fread_block_Some in Hr as (_ & _ & _ & ->).
    apply process_entry_Ret in H as (e & H & _).
    apply handle_entry_Ret in H as (fs & name & _ & _ & _ & _ & _ & H).
    set (found := fst (mark_file name files_args
                         (files_found (counted l)))) in *.
    assert (position
              (fin (announced files_args action verbose name found
                      (set_fin (mkFILE (contents (fin w))
                                  (position (fin w) + 512)) w)))
            = (512 * S k)%nat) as Hp.
    { unfold announced. destruct (selected files_args found && _);
        cbn [fin emit set_fin position]; lia. }
    destruct (is_extract action && selected files_args found).
    + apply extract_file_advance in H as [j Hj].
      exists (S k + j)%nat. rewrite Hj, Hp. lia.
    + apply (fseek_cur_aligned _ _ _ _ H). now exists (S k).
Qed.

Lemma headers_are_read_at_block_boundaries_witness :
  let w0 := start stranded_archive (fun _ => true) in
  let w1 := mkWorld (mkFILE stranded_archive 512) [Stdout [97]] ∅
              (fun _ => true) in
  block_aligned w0 /\
  expects_header 1536 [] LIST false w0
    (blocks_entry_locals) w1 /\
  block_aligned w1.
Proof.
  intros w0 w1.
  assert (block_aligned w0) as H0 by (exists 0%nat; reflexivity).
  assert (expects_header 1536 [] LIST false w0 blocks_entry_locals w1) as H1.
  { apply (expects_next 1536 [] LIST false w0 (initial_locals []) w0).
    - apply expects_first.
    - vm_compute. reflexivity. }
  split; [exact H0|]. split; [exact H1|].
  exact (headers_are_read_at_block_boundaries 1536 [] LIST false w0
           blocks_entry_locals w1 H0 H1).
Defined.

(** X21.  Without an [-f] option [main] never opens an archive: if no
    argument has '-' as its first and 'f' as its second character, the
    run ends with a usage error, whatever else the command line holds. *)
Theorem no_archive_without_f (fuel : nat) (argv : list (list Z))
    (archives : list Z -> option (list Z)) (creatable : list Z -> bool) :
  Forall (fun arg => ~ (char_at arg 0 = 45 /\ char_at arg 1 = 102))
    (tail argv) ->
  exists e, main fuel argv archives creatable = inl e.
Proof.
  intros Hnof. unfold main.
  destruct (length argv <? 2)%nat; [now eexists|].
  destruct (parse_args (tail argv) no_flags) as [e|c] eqn:Hparse;
    [now eexists|].
  assert (fflag c = false) as ->; [|now eexists].
  revert Hnof.
  assert (forall rest c0 c1,
            parse_args rest c0 = inr c1 ->
            Forall (fun arg => ~ (char_at arg 0 = 45 /\ char_at arg 1 = 102))
              rest ->
            fflag c0 = false -> fflag c1 = false) as Hkeep.
  { apply (parse_args_rule
             (fun rest c0 c1 =>
                Forall (fun arg => ~ (char_at arg 0 = 45
                                      /\ char_at arg 1 = 102)) rest ->
                fflag c0 = false -> fflag c1 = false)).
    - auto.
    - intros arg file rest c0 c1 H0 H1 _ Hall.
      inversion Hall; subst. tauto.
    - intros arg rest c0 c1 _ _ (c2 & _ & _ & Hf & _ & _ & IH) Hall Hc.
      inversion Hall; subst. apply IH; [assumption | congruence].
    - intros arg rest c0 c1 _ _ _ IH Hall Hc.
      inversion Hall; subst. now apply IH.
    - intros arg rest c0 c1 _ _ IH Hall Hc.
      inversion Hall; subst. now apply IH. }
  intros Hall. apply (Hkeep _ _ _ Hparse Hall). reflexivity.
Qed.

Lemma no_archive_without_f_witness :
  exists e,
    main 10 [[109]; opt 116; [97]] (fun _ => Some stranded_archive)
      (fun _ => true) = inl e.
Proof.
  apply (no_archive_without_f 10 [[109]; opt 116; [97]]).
  cbn [tail]. repeat constructor; intros [H1 H2]; discriminate.
Defined.
